(** * Vectori: colour-layer decomposition and SVG merge pipeline

    A shallow embedding of the pure core of [vectori.js] (nearest-colour
    classification, pixel passes over a Jimp bitmap, the [Promise.all]
    trace batch, the SVG merger and the outline rewrite), with the
    properties of the pipeline proved over it.

    Conventions of the embedding:
    - a JavaScript number that the code only ever uses as an integer
      (a byte read from [bitmap.data], a luma value, an index) is a [Z];
    - a JavaScript number that goes through [Math.sqrt], [parseFloat],
      [Math.min]/[Math.max] or a decimal constant is a binary64 [float]
      (Rocq's primitive floats are IEEE 754 doubles, as JavaScript's);
    - a JavaScript string is a [string] whose characters are code units
      below 256;
    - [bitmap.data] is a flat list of bytes, four per pixel, updated by
      index like the typed array it stands for. *)

From Stdlib Require Import ZArith List Lia Bool String Ascii Floats Reals.
From stdpp Require Import base list strings.
Import ListNotations.

Local Open Scope Z_scope.

(** * Part I: the embedding *)

(** ** JavaScript numbers *)

Module JsNum.

(** [Infinity], and [Math.min] / [Math.max] on two arguments: [NaN] when
    either argument is [NaN], and [-0] counts as smaller than [+0]. *)
Definition Infinity : float := infinity.

Definition Math_min (a b : float) : float :=
  if is_nan a || is_nan b then nan
  else if (a <? b)%float then a
  else if (b <? a)%float then b
  else if get_sign a then a else b.

Definition Math_max (a b : float) : float :=
  if is_nan a || is_nan b then nan
  else if (a <? b)%float then b
  else if (b <? a)%float then a
  else if get_sign a then b else a.

(** An integer as a double: exact below [2^53] in absolute value, which
    covers every integer the pipeline computes from 8-bit channels. *)
Definition of_Z (n : Z) : float :=
  if n <? 0 then (- of_uint63 (Uint63.of_Z (- n)))%float
  else of_uint63 (Uint63.of_Z n).

Definition Math_sqrt (x : float) : float := PrimFloat.sqrt x.

(** [Math.round] on a finite double: the nearest integer, a tie going
    towards positive infinity, computed exactly from the mantissa and
    exponent. Only ever applied to finite values here. *)
Definition Math_round (x : float) : Z :=
  match Prim2SF x with
  | S754_finite s m e =>
      let v := if s then Z.neg m else Z.pos m in
      if 0 <=? e then v * 2 ^ e
      else (2 * v + 2 ^ (- e)) / 2 ^ (1 - e)
  | _ => 0
  end.

End JsNum.

(** ** Pixel classifier: [computeEuclideanDistance], [findClosestColor] *)

(** A colour is the JavaScript array [[R, G, B]]. *)
Abbreviation Color := (list Z).

(** A call either returns or throws. *)
Inductive JsResult (A : Type) : Type :=
| Returns (a : A)
| Throws (e : string).
Arguments Returns {A} a.
Arguments Throws {A} e.

(** [l.reduce((acc, x, i) => f(acc, x, i), init)], the index starting at
    [i0]. *)
Fixpoint reduceFrom {A B : Type} (f : B -> A -> nat -> B) (i0 : nat)
    (l : list A) (acc : B) : B :=
  match l with
  | [] => acc
  | x :: l' => reduceFrom f (S i0) l' (f acc x i0)
  end.

(** [acc + Math.pow(val - b[i], 2)]: the running sum is an integer, or
    [None] for [NaN] once some [b[i]] is [undefined]. The square of an
    integer difference is exact in a double while it stays below [2^53]. *)
Definition addSquaredDiff (b : Color) (acc : option Z) (val : Z) (i : nat)
    : option Z :=
  match acc, b !! i with
  | Some s, Some bi => Some (s + (val - bi) ^ 2)
  | _, _ => None
  end.

Definition sumSquaredDiff (a b : Color) : option Z :=
  reduceFrom (addSquaredDiff b) 0%nat a (Some 0).

(** [Math.sqrt(a.reduce((acc, val, i) => acc + Math.pow(val - b[i], 2), 0))] *)
Definition computeEuclideanDistance (a b : Color) : float :=
  match sumSquaredDiff a b with
  | Some s => JsNum.Math_sqrt (JsNum.of_Z s)
  | None => nan
  end.

(** The callback of the [reduce] in [findClosestColor]. *)
Definition closer (color prev curr : Color) : Color :=
  if (computeEuclideanDistance curr color
      <? computeEuclideanDistance prev color)%float
  then curr else prev.

(** [findClosestColor] of [vectori.js]: the empty palette is guarded, and
    [reduce] without an initial value starts from [palette[0]]. *)
Definition findClosestColor (color : Color) (palette : list Color) : Color :=
  match palette with
  | [] => color
  | p0 :: rest => fold_left (closer color) rest p0
  end.

(** The older copy of the pipeline (the one built on Vibrant) has the same
    function without the guard: [reduce] of an empty array with no initial
    value throws a [TypeError]. *)
Module Legacy.
Definition findClosestColor (color : Color) (palette : list Color)
    : JsResult Color :=
  match palette with
  | [] => Throws "TypeError: Reduce of empty array with no initial value"
  | p0 :: rest => Returns (fold_left (closer color) rest p0)
  end.
End Legacy.

(** A colour as the data model has it: three 8-bit channels. *)
Definition byte (v : Z) : Prop := 0 <= v <= 255.
Definition isColor (c : Color) : Prop :=
  exists r g b, c = [r; g; b] /\ byte r /\ byte g /\ byte b.

(** The squared distance, as an integer. *)
Definition squaredDistance (a b : Color) : Z :=
  match a, b with
  | [r; g; bl], [r'; g'; bl'] => (r - r') ^ 2 + (g - g') ^ 2 + (bl - bl') ^ 2
  | _, _ => 0
  end.

(** The Euclidean RGB distance as the specification words it, the square
    root of the sum of the squared channel differences, a real number. *)
Definition euclideanDistance (a b : Color) : R :=
  sqrt (IZR (squaredDistance a b)).

(** ** JavaScript strings *)

Module Str.

Definition isDigit (c : ascii) : bool :=
  let n := N_of_ascii c in (48 <=? n)%N && (n <=? 57)%N.

(** The regular-expression class [\s], and the white space [parseInt] and
    [parseFloat] skip, among code units below 256. *)
Definition isSpace (c : ascii) : bool :=
  let n := N_of_ascii c in
  ((9 <=? n)%N && (n <=? 13)%N) || (n =? 32)%N || (n =? 160)%N.

Definition digitValue (c : ascii) : Z := Z.of_N (N_of_ascii c) - 48.

(** The value of a hexadecimal digit, either case. *)
Definition hexDigitValue (c : ascii) : option Z :=
  let n := N_of_ascii c in
  if isDigit c then Some (Z.of_N n - 48)
  else if (97 <=? n)%N && (n <=? 102)%N then Some (Z.of_N n - 87)
  else if (65 <=? n)%N && (n <=? 70)%N then Some (Z.of_N n - 55)
  else None.

(** [s] without the prefix [p], when it starts with it. *)
Fixpoint stripPrefix (p s : string) : option string :=
  match p, s with
  | EmptyString, _ => Some s
  | String a p', String b s' =>
      if Ascii.eqb a b then stripPrefix p' s' else None
  | String _ _, EmptyString => None
  end.

(** The longest prefix of [s] made of characters of the class [f], and
    what follows it. *)
Fixpoint span (f : ascii -> bool) (s : string) : string * string :=
  match s with
  | EmptyString => (EmptyString, EmptyString)
  | String c s' =>
      if f c then let (a, b) := span f s' in (String c a, b)
      else (EmptyString, s)
  end.

Definition trimStart (s : string) : string := snd (span isSpace s).

(** [s.split(sep)] for a separator of one character. *)
Fixpoint split (sep : ascii) (s : string) : list string :=
  match s with
  | EmptyString => [EmptyString]
  | String c s' =>
      if Ascii.eqb c sep then EmptyString :: split sep s'
      else match split sep s' with
           | piece :: pieces => String c piece :: pieces
           | [] => [String c EmptyString]
           end
  end.

(** [l.join(sep)] *)
Fixpoint join (sep : string) (l : list string) : string :=
  match l with
  | [] => EmptyString
  | [x] => x
  | x :: l' => x ++ sep ++ join sep l'
  end.

(** [s.slice(i, j)] for [0 <= i <= j]. *)
Definition slice (i j : nat) (s : string) : string := substring i (j - i) s.

(** The number a string of decimal digits denotes. *)
Fixpoint decimalValue (acc : Z) (s : string) : Z :=
  match s with
  | EmptyString => acc
  | String c s' => decimalValue (10 * acc + digitValue c) s'
  end.

(** [n / d] for [n >= 0] and [d > 0], rounded to the nearest double, a tie
    going to the even mantissa. *)
Definition nearestDouble (n d : Z) : float :=
  if n =? 0 then zero
  else
    let L := Z.log2 n - Z.log2 d in
    let ge := if 0 <=? L then d * 2 ^ L <=? n else d <=? n * 2 ^ (- L) in
    let e := Z.max ((if ge then L else L - 1) - 52) (-1074) in
    let num := if 0 <=? e then n else n * 2 ^ (- e) in
    let den := if 0 <=? e then d * 2 ^ e else d in
    let q := num / den in
    let r := num mod den in
    let q' := if (den <? 2 * r) || ((den =? 2 * r) && Z.odd q)
              then q + 1 else q in
    Z.ldexp (of_uint63 (Uint63.of_Z q')) e.

(** [parseFloat(s)]: leading white space is skipped, then the longest
    prefix that is a decimal literal is read; [NaN] when there is none. *)
Definition parseFloat (s : string) : float :=
  let s0 := trimStart s in
  let '(neg, s1) :=
    match s0 with
    | String "-"%char r => (true, r)
    | String "+"%char r => (false, r)
    | _ => (false, s0)
    end in
  let signed (x : float) : float := if neg then (- x)%float else x in
  match stripPrefix "Infinity"%string s1 with
  | Some _ => signed infinity
  | None =>
      let '(ip, r1) := span isDigit s1 in
      let '(fp, r2) :=
        match r1 with
        | String "."%char r => span isDigit r
        | _ => (EmptyString, r1)
        end in
      match ip, fp with
      | EmptyString, EmptyString => nan
      | _, _ =>
          let e10 :=
            match r2 with
            | String c r =>
                if Ascii.eqb c "e"%char || Ascii.eqb c "E"%char then
                  let '(eneg, r') :=
                    match r with
                    | String "-"%char r' => (true, r')
                    | String "+"%char r' => (false, r')
                    | _ => (false, r)
                    end in
                  let '(ed, _) := span isDigit r' in
                  match ed with
                  | EmptyString => 0
                  | _ => if eneg then - decimalValue 0 ed
                         else decimalValue 0 ed
                  end
                else 0
            | EmptyString => 0
            end - Z.of_nat (String.length fp) in
          let mant := decimalValue 0 (ip ++ fp)%string in
          signed (if 0 <=? e10 then nearestDouble (mant * 10 ^ e10) 1
                  else nearestDouble mant (10 ^ (- e10)))
      end
  end.

(** [parseInt(s, 16)]: white space, a sign and a [0x] prefix are skipped,
    then the longest run of hexadecimal digits is read; [None] is [NaN]. *)
Fixpoint hexValue (acc : Z) (s : string) : Z * nat :=
  match s with
  | EmptyString => (acc, 0%nat)
  | String c s' =>
      match hexDigitValue c with
      | Some v => let (r, k) := hexValue (16 * acc + v) s' in (r, S k)
      | None => (acc, 0%nat)
      end
  end.

Definition parseInt16 (s : string) : option Z :=
  let s0 := trimStart s in
  let '(neg, s1) :=
    match s0 with
    | String "-"%char r => (true, r)
    | String "+"%char r => (false, r)
    | _ => (false, s0)
    end in
  let s2 :=
    match s1 with
    | String "0"%char (String c r) =>
        if Ascii.eqb c "x"%char || Ascii.eqb c "X"%char then r else s1
    | _ => s1
    end in
  match hexValue 0 s2 with
  | (_, O) => None
  | (v, S _) => Some (if neg then - v else v)
  end.

(** [n.toString(16)] for an integer [n]. *)
Definition hexDigit (v : Z) : ascii :=
  ascii_of_N (Z.to_N (if v <? 10 then 48 + v else 87 + v)).

Fixpoint hexDigitsFuel (fuel : nat) (n : Z) (acc : string) : string :=
  match fuel with
  | O => acc
  | S fuel' =>
      let acc' := String (hexDigit (n mod 16)) acc in
      if n / 16 =? 0 then acc' else hexDigitsFuel fuel' (n / 16) acc'
  end.

Definition toString16 (n : Z) : string :=
  let digits := hexDigitsFuel (S (Z.to_nat (Z.log2 (Z.abs n))))
                  (Z.abs n) EmptyString in
  if n <? 0 then String "-"%char digits else digits.

(** [s.padStart(2, "0")] *)
Definition padStart2 (s : string) : string :=
  match s with
  | EmptyString => "00"%string
  | String c EmptyString => String "0"%char s
  | _ => s
  end.

(** The double quote, and a quoted attribute [name="value"]. *)
Definition dq : ascii := "034"%char.
Definition quoted (v : string) : string :=
  (String dq v ++ String dq EmptyString)%string.
Definition attr (name v : string) : string := (name ++ "=" ++ quoted v)%string.

(** The decimal digits of a non-negative integer. *)
Fixpoint decimalDigitsFuel (fuel : nat) (n : Z) (acc : string) : string :=
  match fuel with
  | O => acc
  | S fuel' =>
      let acc' := String (ascii_of_N (Z.to_N (48 + n mod 10))) acc in
      if n / 10 =? 0 then acc' else decimalDigitsFuel fuel' (n / 10) acc'
  end.

Definition decimalDigits (n : Z) : string :=
  decimalDigitsFuel (S (Z.to_nat (Z.log2 n))) n EmptyString.

Fixpoint zeros (k : nat) : string :=
  match k with
  | O => EmptyString
  | S k' => String "0"%char (zeros k')
  end.

(** [Number::toString] in radix 10. For a positive finite [x = num / den]
    it looks for the least [k] and the integers [n] and [s], with
    [10^(k-1) <= s < 10^k], such that [s * 10^(n-k)] reads back as [x],
    taking the [s] nearest to [x]; [shortestDigits] returns [(s, n, k)]. *)
Definition scaledDouble (s e10 : Z) : float :=
  if 0 <=? e10 then nearestDouble (s * 10 ^ e10) 1
  else nearestDouble s (10 ^ (- e10)).

Definition decimalExponent (num den : Z) : Z :=
  let est := (Z.log2 num - Z.log2 den) * 1233 / 4096 in
  let below (n : Z) : bool :=
    if 0 <=? n then num <? den * 10 ^ n else num * 10 ^ (- n) <? den in
  if below (est - 2) then est - 2
  else if below (est - 1) then est - 1
  else if below est then est
  else if below (est + 1) then est + 1
  else if below (est + 2) then est + 2
  else est + 3.

Fixpoint shortestDigitsFrom (fuel : nat) (k : Z) (x : float) (num den n : Z)
    : Z * Z * Z :=
  match fuel with
  | O => (0, n, 1)
  | S fuel' =>
      let e10 := n - k in
      let snum := if 0 <=? e10 then num else num * 10 ^ (- e10) in
      let sden := if 0 <=? e10 then den * 10 ^ e10 else den in
      let lo := snum / sden in
      let r := snum mod sden in
      let hi := lo + 1 in
      let okLo := (0 <? lo) && PrimFloat.eqb (scaledDouble lo e10) x in
      let okHi := PrimFloat.eqb (scaledDouble hi e10) x in
      let preferHi := (sden <? 2 * r) || ((sden =? 2 * r) && Z.odd lo) in
      let chooseHi := if hi =? 10 ^ k then (10 ^ (k - 1), n + 1, k)
                      else (hi, n, k) in
      if okLo && okHi then (if preferHi then chooseHi else (lo, n, k))
      else if okLo then (lo, n, k)
      else if okHi then chooseHi
      else shortestDigitsFrom fuel' (k + 1) x num den n
  end.

(** Trailing zeros of [s] are not significant digits. *)
Fixpoint stripZerosFuel (fuel : nat) (s k : Z) : Z * Z :=
  match fuel with
  | O => (s, k)
  | S fuel' =>
      if (1 <? k) && (s mod 10 =? 0) then stripZerosFuel fuel' (s / 10) (k - 1)
      else (s, k)
  end.

Definition formatDigits (s n k : Z) : string :=
  let ds := decimalDigits s in
  if (k <=? n) && (n <=? 21) then
    (ds ++ zeros (Z.to_nat (n - k)))%string
  else if (0 <? n) && (n <=? 21) then
    (substring 0 (Z.to_nat n) ds ++ "."
     ++ substring (Z.to_nat n) (Z.to_nat (k - n)) ds)%string
  else if (-6 <? n) && (n <=? 0) then
    ("0." ++ zeros (Z.to_nat (- n)) ++ ds)%string
  else
    let e := n - 1 in
    let esign := if e <? 0 then "-"%string else "+"%string in
    let es := (esign ++ decimalDigits (Z.abs e))%string in
    if k =? 1 then (ds ++ "e" ++ es)%string
    else (substring 0 1 ds ++ "."
          ++ substring 1 (Z.to_nat (k - 1)) ds ++ "e" ++ es)%string.

Definition numberToString (x : float) : string :=
  match Prim2SF x with
  | S754_nan => "NaN"%string
  | S754_zero _ => "0"%string
  | S754_infinity sgn => if sgn then "-Infinity"%string else "Infinity"%string
  | S754_finite sgn m e =>
      let num := if 0 <=? e then Z.pos m * 2 ^ e else Z.pos m in
      let den := if 0 <=? e then 1 else 2 ^ (- e) in
      let n := decimalExponent num den in
      let '(s, n', k) := shortestDigitsFrom 17 1 (abs x) num den n in
      let '(s', k') := stripZerosFuel 17 s k in
      let body := formatDigits s' n' k' in
      if sgn then String "-"%char body else body
  end.

End Str.

(** ** Colours as text: [rgbToHex], [greyHexToNumber] *)

(** The hash sign, then for each channel
    [Math.round(x).toString(16).padStart(2, "0")]; the channels are integers,
    which [Math.round] leaves alone. *)
Definition rgbToHex (rgb : Color) : string :=
  ("#" ++ Str.join ""
            (map (fun x => Str.padStart2 (Str.toString16 x)) rgb))%string.

Definition mapColorPaletteToHex (palette : list Color) : list string :=
  map rgbToHex palette.

(** [Math.round(0.3 * red + 0.59 * green + 0.11 * blue)], in doubles; the
    three constants are the doubles nearest to 0.3, 0.59 and 0.11. *)
Definition luma (red green blue : Z) : Z :=
  JsNum.Math_round
    (0x1.3333333333333p-2 * JsNum.of_Z red
     + 0x1.2e147ae147ae1p-1 * JsNum.of_Z green
     + 0x1.c28f5c28f5c29p-4 * JsNum.of_Z blue)%float.

(** [greyHexToNumber]: [None] stands for [NaN], which is what the
    arithmetic gives once some [parseInt] fails. *)
Definition greyHexToNumber (hexString : string) : option Z :=
  match Str.parseInt16 (Str.slice 1 3 hexString),
        Str.parseInt16 (Str.slice 3 5 hexString),
        Str.parseInt16 (Str.slice 5 7 hexString) with
  | Some r, Some g, Some b => Some (luma r g b)
  | _, _, _ => None
  end.

Definition TOLERANCE : Z := 5.

(** ** Bitmaps and the pixel passes *)

(** Jimp's [image.bitmap]: [data] holds four bytes per pixel (R, G, B, A),
    rows first. *)
Record Bitmap : Type := mkBitmap {
  width : nat;
  height : nat;
  data : list Z
}.

(** [data[i]], read; every read of a scan over a well-formed bitmap is in
    range. *)
Definition readByte (d : list Z) (i : nat) : Z := default 0 (d !! i).

(** [data[i] = v] on the byte buffer: the value is stored modulo 256
    ([undefined] and [NaN], here [None], as 0), and a write past the end is
    dropped. *)
Definition writeByte (i : nat) (v : option Z) (d : list Z) : list Z :=
  <[i := Z.modulo (default 0 v) 256]> d.

(** The calls Jimp's [scan(x0, y0, w, h, f)] makes, in order: rows outside,
    columns inside, with [idx = (bitmap.width * y + x) << 2]. *)
Definition scanOrder (bw x0 y0 w h : nat) : list (nat * nat * nat) :=
  flat_map
    (fun y => map (fun x => (x, y, Nat.shiftl (bw * y + x) 2)) (seq x0 w))
    (seq y0 h).

(** [image.scan(x0, y0, w, h, f)]: [f] rewrites [this.bitmap.data]. *)
Definition scan (x0 y0 w h : nat) (f : nat -> nat -> nat -> list Z -> list Z)
    (b : Bitmap) : Bitmap :=
  {| width := width b;
     height := height b;
     data := fold_left (fun d '(x, y, idx) => f x y idx d)
               (scanOrder (width b) x0 y0 w h) (data b) |}.

(** The callback of [processImage]. *)
Definition processPixel (colorPalette : list Color) (x y idx : nat)
    (d : list Z) : list Z :=
  let red := readByte d idx in
  let green := readByte d (idx + 1) in
  let blue := readByte d (idx + 2) in
  let closestColor := findClosestColor [red; green; blue] colorPalette in
  let d := writeByte idx (closestColor !! 0%nat) d in
  let d := writeByte (idx + 1) (closestColor !! 1%nat) d in
  writeByte (idx + 2) (closestColor !! 2%nat) d.

(** The callback of [separateColors] for one palette colour. *)
Definition separatePixel (color : Color) (x y idx : nat) (d : list Z)
    : list Z :=
  let red := readByte d idx in
  let green := readByte d (idx + 1) in
  let blue := readByte d (idx + 2) in
  if negb (bool_decide (Some red = color !! 0%nat))
     || negb (bool_decide (Some green = color !! 1%nat))
     || negb (bool_decide (Some blue = color !! 2%nat))
  then
    let d := writeByte idx (Some 255) d in
    let d := writeByte (idx + 1) (Some 255) d in
    writeByte (idx + 2) (Some 255) d
  else d.

(** The callback of [separateGreyscaleColors] for one target grey. *)
Definition bandPixel (targetGrey : option Z) (x y idx : nat) (d : list Z)
    : list Z :=
  let red := readByte d idx in
  let green := readByte d (idx + 1) in
  let blue := readByte d (idx + 2) in
  let grey := luma red green blue in
  let inBand :=
    match targetGrey with
    | Some t => Z.abs (grey - t) <=? TOLERANCE
    | None => false
    end in
  if inBand then
    let d := writeByte idx targetGrey d in
    let d := writeByte (idx + 1) targetGrey d in
    writeByte (idx + 2) targetGrey d
  else
    let d := writeByte idx (Some 255) d in
    let d := writeByte (idx + 1) (Some 255) d in
    writeByte (idx + 2) (Some 255) d.

(** The callback of [extractGreyscalePalette], adding to a [Set] kept in
    insertion order. *)
Definition setAdd (x : string) (set : list string) : list string :=
  if bool_decide (x ∈ set) then set else set ++ [x].

Definition pixelColor (d : list Z) (idx : nat) : Color :=
  [readByte d idx; readByte d (idx + 1); readByte d (idx + 2)].

(** [extractAllColors] / [getAllColors]: the distinct colours, as hex, in
    first-seen order. *)
Definition extractAllColors (b : Bitmap) : list string :=
  fold_left
    (fun set '(x, y, idx) => setAdd (rgbToHex (pixelColor (data b) idx)) set)
    (scanOrder (width b) 0 0 (width b) (height b)) [].

(** [extractGreyscalePalette]: the distinct lumas, as grey hex. *)
Definition extractGreyscalePalette (b : Bitmap) : list string :=
  fold_left
    (fun set '(x, y, idx) =>
       let grey := luma (readByte (data b) idx) (readByte (data b) (idx + 1))
                     (readByte (data b) (idx + 2)) in
       setAdd (rgbToHex [grey; grey; grey]) set)
    (scanOrder (width b) 0 0 (width b) (height b)) [].

(** The pixels [createPallet] hands to the clustering library. *)
Definition collectPixels (b : Bitmap) : list Color :=
  map (fun '(x, y, idx) => pixelColor (data b) idx)
    (scanOrder (width b) 0 0 (width b) (height b)).

(** ** Reading an SVG fragment: the regular expressions of [mergeSvgs] *)

(** The leftmost position of [s] at which [matchAt] succeeds. *)
Fixpoint firstMatch {A : Type} (matchAt : string -> option A) (s : string)
    : option A :=
  match matchAt s with
  | Some v => Some v
  | None =>
      match s with
      | EmptyString => None
      | String _ s' => firstMatch matchAt s'
      end
  end.

(** At the head of [s]: [name], an equals sign, a double quote, one or more
    characters of the class [cls], a double quote. The class holds no
    double quote, so the greedy run is the only candidate. Gives the run. *)
Definition attrValueAt (name : string) (cls : ascii -> bool) (s : string)
    : option string :=
  match Str.stripPrefix (name ++ "=" ++ String Str.dq EmptyString) s with
  | Some r =>
      match Str.span cls r with
      | (String c v, String c' _) =>
          if Ascii.eqb c' Str.dq then Some (String c v) else None
      | _ => None
      end
  | None => None
  end.

(** The class of the [viewBox] expression: digits, white space, dot, minus. *)
Definition isViewBoxChar (c : ascii) : bool :=
  Str.isDigit c || Str.isSpace c || Ascii.eqb c "."%char
  || Ascii.eqb c "-"%char.

(** The class of the [width] and [height] expressions: digits and dot. *)
Definition isSizeChar (c : ascii) : bool :=
  Str.isDigit c || Ascii.eqb c "."%char.

Definition viewBoxMatch (svg : string) : option string :=
  firstMatch (attrValueAt "viewBox" isViewBoxChar) svg.
Definition widthMatch (svg : string) : option string :=
  firstMatch (attrValueAt "width" isSizeChar) svg.
Definition heightMatch (svg : string) : option string :=
  firstMatch (attrValueAt "height" isSizeChar) svg.

(** The text before the first occurrence of [p] in [s]. *)
Fixpoint textBefore (p s : string) : option string :=
  match Str.stripPrefix p s with
  | Some _ => Some EmptyString
  | None =>
      match s with
      | EmptyString => None
      | String c s' => option_map (String c) (textBefore p s')
      end
  end.

(** At the head of [s]: the opening [<svg ...>] tag, then as little as
    possible up to a closing [</svg>]. Gives the text between the two. *)
Definition svgBodyAt (s : string) : option string :=
  match Str.stripPrefix "<svg" s with
  | Some r =>
      match snd (Str.span (fun c => negb (Ascii.eqb c ">"%char)) r) with
      | String _ body => textBefore "</svg>" body
      | EmptyString => None
      end
  | None => None
  end.

Definition contentMatch (svg : string) : option string :=
  firstMatch svgBodyAt svg.

(** ** Fragment merger: [mergeSvgs] *)

(** The four [content*] variables of the callback. *)
Record Frame : Type := mkFrame {
  contentMinX : float;
  contentMinY : float;
  contentWidth : float;
  contentHeight : float
}.

(** A missing element of the destructured array is [undefined], which the
    arithmetic that follows turns into [NaN]. *)
Definition frameOf (svg : string) : Frame :=
  match viewBoxMatch svg with
  | Some vb =>
      let parts := map Str.parseFloat (Str.split " "%char vb) in
      {| contentMinX := nth 0 parts nan;
         contentMinY := nth 1 parts nan;
         contentWidth := nth 2 parts nan;
         contentHeight := nth 3 parts nan |}
  | None =>
      match widthMatch svg, heightMatch svg with
      | Some w, Some h =>
          {| contentMinX := zero;
             contentMinY := zero;
             contentWidth := Str.parseFloat w;
             contentHeight := Str.parseFloat h |}
      | _, _ =>
          {| contentMinX := zero; contentMinY := zero;
             contentWidth := zero; contentHeight := zero |}
      end
  end.

(** The four accumulators [minX], [minY], [maxX], [maxY]. *)
Record Bounds : Type := mkBounds {
  minX : float;
  minY : float;
  maxX : float;
  maxY : float
}.

Definition initialBounds : Bounds :=
  {| minX := JsNum.Infinity; minY := JsNum.Infinity;
     maxX := (- JsNum.Infinity)%float; maxY := (- JsNum.Infinity)%float |}.

Definition extendBounds (b : Bounds) (f : Frame) : Bounds :=
  {| minX := JsNum.Math_min (minX b) (contentMinX f);
     minY := JsNum.Math_min (minY b) (contentMinY f);
     maxX := JsNum.Math_max (maxX b) (contentMinX f + contentWidth f)%float;
     maxY := JsNum.Math_max (maxY b) (contentMinY f + contentHeight f)%float |}.

(** The bounds after the [map] has run over every fragment. *)
Definition mergedBounds (svgs : list string) : Bounds :=
  fold_left (fun b svg => extendBounds b (frameOf svg)) svgs initialBounds.

(** What the callback returns for one fragment. *)
Definition innerContent (svg : string) : string :=
  match contentMatch svg with
  | Some body => body
  | None => EmptyString
  end.

Definition newline : string := String "010"%char EmptyString.

Definition mergedSvgContent (svgs : list string) : string :=
  Str.join newline (map innerContent svgs).

Definition finalWidth (b : Bounds) : float := (maxX b - minX b)%float.
Definition finalHeight (b : Bounds) : float := (maxY b - minY b)%float.

Definition mergedSvgHeader (b : Bounds) : string :=
  ("<svg " ++ Str.attr "xmlns" "http://www.w3.org/2000/svg" ++ " "
   ++ Str.attr "viewBox"
        (Str.numberToString (minX b) ++ " " ++ Str.numberToString (minY b)
         ++ " " ++ Str.numberToString (finalWidth b)
         ++ " " ++ Str.numberToString (finalHeight b))
   ++ " " ++ Str.attr "width" (Str.numberToString (finalWidth b))
   ++ " " ++ Str.attr "height" (Str.numberToString (finalHeight b))
   ++ ">")%string.

Definition mergeSvgs (svgs : list string) : string :=
  (mergedSvgHeader (mergedBounds svgs) ++ newline
   ++ mergedSvgContent svgs ++ newline ++ "</svg>")%string.

(** ** Outline transformer: [createSvgOutline] *)

(** The length of the match, at the head of [s], of [name], an equals sign,
    a double quote, any run without a double quote, a double quote. *)
Definition attrAnyLengthAt (name : string) (s : string) : option nat :=
  match Str.stripPrefix (name ++ "=" ++ String Str.dq EmptyString) s with
  | Some r =>
      match Str.span (fun c => negb (Ascii.eqb c Str.dq)) r with
      | (v, String _ _) =>
          Some (String.length name + 2 + String.length v + 1)%nat
      | (_, EmptyString) => None
      end
  | None => None
  end.

(** [s.replace(re, replacement)] for the global expression above: matches
    are taken left to right and do not overlap. [skip] counts the characters
    of the current match that are still to be dropped. *)
Fixpoint replaceAttrFrom (name replacement : string) (skip : nat)
    (s : string) : string :=
  match s with
  | EmptyString => EmptyString
  | String c s' =>
      match skip with
      | S k => replaceAttrFrom name replacement k s'
      | O =>
          match attrAnyLengthAt name s with
          | Some len =>
              (replacement
               ++ replaceAttrFrom name replacement (len - 1) s')%string
          | None => String c (replaceAttrFrom name replacement 0 s')
          end
      end
  end.

Definition replaceAttr (name replacement : string) (s : string) : string :=
  replaceAttrFrom name replacement 0 s.

Definition fillNone : string := Str.attr "fill" "none".
Definition strokeBlack : string :=
  (Str.attr "stroke" "black" ++ " " ++ Str.attr "stroke-width" "1")%string.

(** The callback of [createSvgOutline]. *)
Definition outlineSvg (svg : string) : string :=
  replaceAttr "stroke" strokeBlack (replaceAttr "fill" fillNone svg).

Definition createSvgOutline (separatedColorSvgs : list string) : list string :=
  map outlineSvg separatedColorSvgs.

(** ** Promises: [Promise.all] and [await] *)

(** The state of a promise. *)
Inductive Settled (A : Type) : Type :=
| Pending
| Fulfilled (v : A)
| Rejected (e : string).
Arguments Pending {A}.
Arguments Fulfilled {A} v.
Arguments Rejected {A} e.

(** [Promise.all] over [n] promises: the slots of the values received so
    far, how many are still awaited, and the state of the combined promise. *)
Record AllState (A : Type) : Type := mkAllState {
  slots : list (option A);
  remaining : nat;
  combined : Settled (list A)
}.
Arguments mkAllState {A}.
Arguments slots {A}.
Arguments remaining {A}.
Arguments combined {A}.

(** The values of the slots, in index order (all are filled once
    [remaining] is zero). *)
Definition slotValues {A : Type} (sl : list (option A)) : list A :=
  omap (fun v => v) sl.

Definition allInit {A : Type} (n : nat) : AllState A :=
  {| slots := replicate n None;
     remaining := n;
     combined := match n with O => Fulfilled [] | S _ => Pending end |}.

(** Promise number [i] settles with [r]. A value goes to slot [i] and the
    combined promise is fulfilled with all the slots when it was the last
    one; an error rejects the combined promise at once. A promise that has
    settled stays as it is. *)
Definition allSettle {A : Type} (st : AllState A) (i : nat) (r : JsResult A)
    : AllState A :=
  match combined st with
  | Pending =>
      match r with
      | Throws e =>
          {| slots := slots st; remaining := remaining st;
             combined := Rejected e |}
      | Returns v =>
          let slots' := <[i := Some v]> (slots st) in
          let remaining' := pred (remaining st) in
          {| slots := slots';
             remaining := remaining';
             combined := match remaining' with
                         | O => Fulfilled (slotValues slots')
                         | S _ => Pending
                         end |}
      end
  | _ => st
  end.

(** [Promise.all(calls)] when the calls settle in the order [order] (a list
    of indices into [calls]). *)
Definition promiseAll {A : Type} (calls : list (JsResult A)) (order : list nat)
    : Settled (list A) :=
  combined
    (fold_left
       (fun st i =>
          match calls !! i with
          | Some r => allSettle st i r
          | None => st
          end)
       order (allInit (length calls))).

(** ** The pipeline over Jimp images *)

(** Jimp images are objects: [clone] makes a new one, [scan] and
    [greyscale] change their receiver. The heap lists the images made so
    far; a reference is an index into it. *)
Abbreviation Ref := nat.
Abbreviation Heap := (list Bitmap).

(** An asynchronous computation over the heap: it completes with a value,
    fails with an error, or never settles. *)
Inductive Completion (A : Type) : Type :=
| Done (a : A)
| Failed (e : string)
| Waiting.
Arguments Done {A} a.
Arguments Failed {A} e.
Arguments Waiting {A}.

Definition M (A : Type) : Type := Heap -> Completion (A * Heap).

Definition mret {A : Type} (a : A) : M A := fun h => Done (a, h).

Definition mbind {A B : Type} (c : M A) (k : A -> M B) : M B :=
  fun h =>
    match c h with
    | Done (a, h') => k a h'
    | Failed e => Failed e
    | Waiting => Waiting
    end.

Notation "x <- c ;; k" := (mbind c (fun x => k))
  (at level 100, c at next level, right associativity).

(** [await p] *)
Definition await {A : Type} (p : Settled A) : M A :=
  fun h =>
    match p with
    | Fulfilled v => Done (v, h)
    | Rejected e => Failed e
    | Pending => Waiting
    end.

Fixpoint mapM {A B : Type} (f : A -> M B) (l : list A) : M (list B) :=
  match l with
  | [] => mret []
  | x :: l' => y <- f x ;; ys <- mapM f l' ;; mret (y :: ys)
  end.

(** A new image object holding [b]. *)
Definition newImage (b : Bitmap) : M Ref :=
  fun h => Done (length h, h ++ [b]).

(** [image.bitmap] *)
Definition bitmapOf (image : Ref) : M Bitmap :=
  fun h =>
    match h !! image with
    | Some b => Done (b, h)
    | None => Failed "TypeError: no such image"
    end.

(** [image.clone()] *)
Definition clone (image : Ref) : M Ref :=
  b <- bitmapOf image ;; newImage b.

(** A method that changes its receiver and returns it. *)
Definition update (f : Bitmap -> Bitmap) (image : Ref) : M Ref :=
  fun h => Done (image, alter f image h).

Section Pipeline.

(** The collaborators, which are library code: PNG encoding to base64
    ([getBuffer] then [toString]), decoding ([Jimp.read]), Jimp's
    [greyscale], the clustering of [quantize], and potrace's [trace]. *)
Variable encodePng : Bitmap -> string.
Variable decodePng : option string -> Bitmap.
Variable greyscale : Bitmap -> Bitmap.
Variable quantize : list Color -> Z -> list Color.
Variable trace : option string -> option string -> JsResult string.

Definition dataUri (b : Bitmap) : string :=
  ("data:image/png;base64," ++ encodePng b)%string.

(** [uri.split(",")[1]] *)
Definition payload (uri : string) : option string :=
  Str.split ","%char uri !! 1%nat.

(** [processImage]: the image itself is scanned and returned. *)
Definition processImage (image : Ref) (colorPalette : list Color) : M Ref :=
  b <- bitmapOf image ;;
  update (scan 0 0 (width b) (height b) (processPixel colorPalette)) image.

(** [createGreyscaleImage] *)
Definition createGreyscaleImage (image : Ref) : M string :=
  c <- clone image ;;
  greyscaleImage <- update greyscale c ;;
  b <- bitmapOf greyscaleImage ;;
  mret (dataUri b).

(** [createJimpImageFromBase64] *)
Definition createJimpImageFromBase64 (uri : string) : M Ref :=
  newImage (decodePng (payload uri)).

(** [separateColors]: one clone per palette colour, scanned with the
    dimensions of the source, then encoded. Each asynchronous callback only
    touches its own clone, so running them one after the other gives what
    any interleaving gives. *)
Definition separateColors (image : Ref) (colorPalette : list Color)
    : M (list string) :=
  mapM (fun color =>
          src <- bitmapOf image ;;
          c <- clone image ;;
          newImage <- update (scan 0 0 (width src) (height src)
                                (separatePixel color)) c ;;
          b <- bitmapOf newImage ;;
          mret (dataUri b))
       colorPalette.

(** [separateGreyscaleColors] *)
Definition separateGreyscaleColors (image : Ref)
    (greyscalePalette : list string) : M (list string) :=
  mapM (fun greyHex =>
          let targetGrey := greyHexToNumber greyHex in
          src <- bitmapOf image ;;
          c <- clone image ;;
          newImage <- update (scan 0 0 (width src) (height src)
                                (bandPixel targetGrey)) c ;;
          b <- bitmapOf newImage ;;
          mret (dataUri b))
       greyscalePalette.

(** The promise made for image number [i] of [traceImagesToSvgs]: a missing
    payload makes [Buffer.from] throw inside the executor, which rejects. *)
Definition traceCall (colorPallet : list string) (i : nat)
    (base64Image : string) : JsResult string :=
  match payload base64Image with
  | None => Throws "TypeError: the first argument must be a string"
  | Some b64 => trace (Some b64) (colorPallet !! i)
  end.

(** [traceImagesToSvgs], the trace callbacks firing in the order [order]. *)
Definition traceImagesToSvgs (separatedColorImages : list string)
    (colorPallet : list string) (order : list nat) : Settled (list string) :=
  promiseAll (imap (traceCall colorPallet) separatedColorImages) order.

(** [createPallet]: the buffer is decoded again, into an image of its own. *)
Definition createPallet (source : Bitmap) (colorCount : Z) : M (list Color) :=
  image <- newImage source ;;
  b <- bitmapOf image ;;
  mret (quantize (collectPixels b) colorCount).

(** [extractAllGreyscale] *)
Definition extractAllGreyscale (jimpImage : Ref) : M (list string) :=
  c <- clone jimpImage ;;
  g <- update greyscale c ;;
  b <- bitmapOf g ;;
  mret (extractAllColors b).

(** What [vectori] computes before it builds its accessors. *)
Record ResultView : Type := mkResultView {
  colorImage : string;
  greyscaleImage : string;
  colorPallet : list string;
  greyscalePalette : list string;
  allColorsPalette : list string;
  greyscaleAllColorsPalette : list string;
  separatedColorImages : list string;
  separatedGreyscaleImages : list string;
  separatedColorSvgs : list string;
  separatedGreyscaleSvgs : list string;
  separatedOutlinedSvgs : list string;
  mergedColorSvg : string;
  mergedGreyscaleSvg : string;
  mergedOutlinedSvg : string;
  mergedGreyscaleOutlinedSvg : string;
  mergedColorOutlinedSvg : string
}.

(** Steps 7 to 10 of [vectori], shared by its copies: trace both batches,
    outline, merge. [orderColor] and [orderGrey] are the orders in which
    the trace callbacks of the two batches fire. *)
Definition traceAndMerge (colorImage greyscaleImage : string)
    (colorPallet greyscalePalette allColorsPalette greyscaleAllColorsPalette
       separatedColorImages separatedGreyscaleImages : list string)
    (orderColor orderGrey : list nat) : M ResultView :=
  separatedColorSvgs <-
    await (traceImagesToSvgs separatedColorImages colorPallet orderColor) ;;
  separatedGreyscaleSvgs <-
    await (traceImagesToSvgs separatedGreyscaleImages greyscalePalette
             orderGrey) ;;
  let separatedOutlinedSvgs := createSvgOutline separatedColorSvgs in
  mret {| colorImage := colorImage;
          greyscaleImage := greyscaleImage;
          colorPallet := colorPallet;
          greyscalePalette := greyscalePalette;
          allColorsPalette := allColorsPalette;
          greyscaleAllColorsPalette := greyscaleAllColorsPalette;
          separatedColorImages := separatedColorImages;
          separatedGreyscaleImages := separatedGreyscaleImages;
          separatedColorSvgs := separatedColorSvgs;
          separatedGreyscaleSvgs := separatedGreyscaleSvgs;
          separatedOutlinedSvgs := separatedOutlinedSvgs;
          mergedColorSvg := mergeSvgs separatedColorSvgs;
          mergedGreyscaleSvg := mergeSvgs separatedGreyscaleSvgs;
          mergedOutlinedSvg := mergeSvgs separatedOutlinedSvgs;
          mergedGreyscaleOutlinedSvg :=
            mergeSvgs (separatedGreyscaleSvgs ++ separatedOutlinedSvgs);
          mergedColorOutlinedSvg :=
            mergeSvgs (separatedColorSvgs ++ separatedOutlinedSvgs) |}.

(** Steps 1 to 6 of [vectori], as far as the separated images. [source] is
    what decoding the file gives. Returns the reference of [image] with the
    values computed so far. *)
Record Separated : Type := mkSeparated {
  sepImage : Ref;
  sepColorPaletteValues : list Color;
  sepColorImage : string;
  sepGreyscaleImage : string;
  sepGreyscalePalette : list string;
  sepAllColorsPalette : list string;
  sepGreyscaleAllColorsPalette : list string;
  sepColorImages : list string;
  sepGreyscaleImages : list string
}.

(** [vectori] of [vectori.js]: [processImage] is given [image] itself. *)
Definition vectoriSeparate (source : Bitmap) : M Separated :=
  image <- newImage source ;;
  colorPaletteValues <- createPallet source 6 ;;
  b0 <- bitmapOf image ;;
  let allColorsPalette := extractAllColors b0 in
  greyscaleAllColorsPalette <- extractAllGreyscale image ;;
  processedImage <- processImage image colorPaletteValues ;;
  processedBitmap <- bitmapOf processedImage ;;
  let colorImage := dataUri processedBitmap in
  greyscaleImage <- createGreyscaleImage image ;;
  greyscaleJimpImage <- createJimpImageFromBase64 greyscaleImage ;;
  gb <- bitmapOf greyscaleJimpImage ;;
  let greyscalePalette := extractGreyscalePalette gb in
  separatedColorImages <- separateColors image colorPaletteValues ;;
  separatedGreyscaleImages <- separateGreyscaleColors image greyscalePalette ;;
  mret {| sepImage := image;
          sepColorPaletteValues := colorPaletteValues;
          sepColorImage := colorImage;
          sepGreyscaleImage := greyscaleImage;
          sepGreyscalePalette := greyscalePalette;
          sepAllColorsPalette := allColorsPalette;
          sepGreyscaleAllColorsPalette := greyscaleAllColorsPalette;
          sepColorImages := separatedColorImages;
          sepGreyscaleImages := separatedGreyscaleImages |}.

Definition vectori (source : Bitmap) (orderColor orderGrey : list nat)
    : M ResultView :=
  s <- vectoriSeparate source ;;
  traceAndMerge (sepColorImage s) (sepGreyscaleImage s)
    (mapColorPaletteToHex (sepColorPaletteValues s)) (sepGreyscalePalette s)
    (sepAllColorsPalette s) (sepGreyscaleAllColorsPalette s)
    (sepColorImages s) (sepGreyscaleImages s) orderColor orderGrey.

(** The copy under [src/lib]: [processImage] is given a clone of [image],
    and the greyscale palette also serves as the full greyscale palette. *)
Definition libVectoriSeparate (source : Bitmap) : M Separated :=
  image <- newImage source ;;
  colorPaletteValues <- createPallet source 6 ;;
  b0 <- bitmapOf image ;;
  let uniqueAllColorsPalette := extractAllColors b0 in
  c <- clone image ;;
  processedImage <- processImage c colorPaletteValues ;;
  processedBitmap <- bitmapOf processedImage ;;
  let colorImage := dataUri processedBitmap in
  greyscaleImage <- createGreyscaleImage image ;;
  greyscaleJimpImage <- createJimpImageFromBase64 greyscaleImage ;;
  gb <- bitmapOf greyscaleJimpImage ;;
  let greyscalePalette := extractGreyscalePalette gb in
  separatedColorImages <- separateColors image colorPaletteValues ;;
  separatedGreyscaleImages <- separateGreyscaleColors image greyscalePalette ;;
  mret {| sepImage := image;
          sepColorPaletteValues := colorPaletteValues;
          sepColorImage := colorImage;
          sepGreyscaleImage := greyscaleImage;
          sepGreyscalePalette := greyscalePalette;
          sepAllColorsPalette := uniqueAllColorsPalette;
          sepGreyscaleAllColorsPalette := greyscalePalette;
          sepColorImages := separatedColorImages;
          sepGreyscaleImages := separatedGreyscaleImages |}.

End Pipeline.

(** ** The copy under [src/lib]: collecting the colours *)

(** [Array.from(new Set(items))]: the distinct items, in first-seen order. *)
Definition arrayFromSet (items : list string) : list string :=
  fold_left (fun set x => setAdd x set) items [].

(** The copy of [vectori] under [src/lib] has no [extractAllColors]: it
    pushes the hex of every pixel on an array and removes the duplicates
    afterwards. *)
Definition uniqueAllColorsPalette (b : Bitmap) : list string :=
  arrayFromSet
    (fold_left
       (fun allColorsPalette '(x, y, idx) =>
          allColorsPalette ++ [rgbToHex (pixelColor (data b) idx)])
       (scanOrder (width b) 0 0 (width b) (height b)) []).

(** ** The older copy of the quantization pass *)

Module LegacyPass.

(** The callback of [processImage] in the older copy: the same reads and
    writes, around the unguarded [findClosestColor]; an exception thrown by
    it leaves the callback before any write. *)
Definition processPixel (colorPalette : list Color) (x y idx : nat)
    (d : list Z) : JsResult (list Z) :=
  let red := readByte d idx in
  let green := readByte d (idx + 1) in
  let blue := readByte d (idx + 2) in
  match Legacy.findClosestColor [red; green; blue] colorPalette with
  | Throws e => Throws e
  | Returns closestColor =>
      let d := writeByte idx (closestColor !! 0%nat) d in
      let d := writeByte (idx + 1) (closestColor !! 1%nat) d in
      Returns (writeByte (idx + 2) (closestColor !! 2%nat) d)
  end.

(** A scan whose callback may throw: the exception ends the scan at once,
    and the buffer keeps the writes of the calls that returned. *)
Fixpoint scanCalls (f : nat -> nat -> nat -> list Z -> JsResult (list Z))
    (calls : list (nat * nat * nat)) (d : list Z) : list Z * option string :=
  match calls with
  | [] => (d, None)
  | (x, y, idx) :: rest =>
      match f x y idx d with
      | Returns d' => scanCalls f rest d'
      | Throws e => (d, Some e)
      end
  end.

(** [processImage] on a bitmap: the bitmap after the call, and the
    exception the call ended with, if any. *)
Definition processBitmap (colorPalette : list Color) (b : Bitmap)
    : Bitmap * option string :=
  let '(d, thrown) :=
    scanCalls (processPixel colorPalette)
      (scanOrder (width b) 0 0 (width b) (height b)) (data b) in
  ({| width := width b; height := height b; data := d |}, thrown).

End LegacyPass.

(** ** The object [vectori] returns *)

(** What an accessor is called with: nothing at all, or an options object
    whose [fill] property may be missing. *)
Inductive Arg : Type :=
| NoArgument
| Options (fill : option string).

Module Result.

(** The parameter pattern [{ fill = "color" }]: destructuring [undefined]
    throws, a missing [fill] takes the default. *)
Definition fillOf (arg : Arg) : JsResult string :=
  match arg with
  | NoArgument =>
      Throws "TypeError: Cannot destructure property 'fill' of 'undefined'"
  | Options fill => Returns (default "color"%string fill)
  end.

(** The pattern [{ fill = "color" } = {}] of [palette.all]. *)
Definition fillOrEmpty (arg : Arg) : string :=
  match arg with
  | NoArgument => "color"%string
  | Options fill => default "color"%string fill
  end.

(** A chain of [if (fill === key) return value]: the value of the first
    key that is [fill]; falling off the end returns [undefined], here
    [None]. *)
Fixpoint choose {A : Type} (fill : string) (cases : list (string * A))
    : option A :=
  match cases with
  | [] => None
  | (key, v) :: rest => if String.eqb fill key then Some v else choose fill rest
  end.

Definition withFill {A : Type} (arg : Arg) (cases : list (string * A))
    : JsResult (option A) :=
  match fillOf arg with
  | Returns fill => Returns (choose fill cases)
  | Throws e => Throws e
  end.

Definition image (r : ResultView) (arg : Arg) : JsResult (option string) :=
  withFill arg [("greyscale"%string, greyscaleImage r);
                ("color"%string, colorImage r)].

Definition palette_popular (r : ResultView) (arg : Arg)
    : JsResult (option (list string)) :=
  withFill arg [("greyscale"%string, greyscalePalette r);
                ("color"%string, colorPallet r)].

Definition palette_all (r : ResultView) (arg : Arg) : option (list string) :=
  choose (fillOrEmpty arg)
    [("greyscale"%string, greyscaleAllColorsPalette r);
     ("color"%string, allColorsPalette r)].

Definition components_image (r : ResultView) (arg : Arg)
    : JsResult (option (list string)) :=
  withFill arg [("color"%string, separatedColorImages r);
                ("greyscale"%string, separatedGreyscaleImages r)].

Definition components_svg (r : ResultView) (arg : Arg)
    : JsResult (option (list string)) :=
  withFill arg [("color"%string, separatedColorSvgs r);
                ("greyscale"%string, separatedGreyscaleSvgs r);
                ("outline"%string, separatedOutlinedSvgs r)].

Definition svg (r : ResultView) (arg : Arg) : JsResult (option string) :=
  withFill arg [("color"%string, mergedColorSvg r);
                ("greyscale"%string, mergedGreyscaleSvg r);
                ("outline"%string, mergedOutlinedSvg r);
                ("color-outline"%string, mergedColorOutlinedSvg r);
                ("greyscale-outline"%string, mergedGreyscaleOutlinedSvg r)].

End Result.

(** ** Vocabulary of the properties *)

(** The largest squared distance between two colours, [3 * 255^2]. *)
Definition maxSquaredDistance : Z := 195075.

(** [Math.sqrt] goes strictly up from each of the [k] integers that start
    at [n] to the next one. *)
Fixpoint sqrtIncreasesFrom (k : nat) (n : Z) : bool :=
  match k with
  | O => true
  | S k' => (JsNum.Math_sqrt (JsNum.of_Z n)
             <? JsNum.Math_sqrt (JsNum.of_Z (n + 1)))%float
            && sqrtIncreasesFrom k' (n + 1)
  end.

(** The colour of pixel number [p] (rows first), its three bytes read from
    the flat buffer. *)
Definition pixelAt (d : list Z) (p : nat) : Z * Z * Z :=
  (readByte d (4 * p), readByte d (4 * p + 1), readByte d (4 * p + 2)).

(** The alpha byte of pixel number [p]. *)
Definition alphaAt (d : list Z) (p : nat) : option Z := d !! (4 * p + 3)%nat.

(** A bitmap whose buffer has four bytes for each of its pixels. *)
Definition wellFormed (b : Bitmap) : Prop :=
  length (data b) = (4 * (width b * height b))%nat.

(** A callback that rewrites the three colour bytes at [idx] from their
    old values, by the pixel function [t], and nothing else. *)
Record pixelLocal (g : nat -> list Z -> list Z) (t : Z * Z * Z -> Z * Z * Z)
    : Prop := {
  local_length : forall idx d, length (g idx d) = length d;
  local_frame : forall idx d j,
    (j < idx \/ idx + 3 <= j)%nat -> g idx d !! j = d !! j;
  local_pixel : forall idx d, (idx + 2 < length d)%nat ->
    (readByte (g idx d) idx, readByte (g idx d) (idx + 1),
     readByte (g idx d) (idx + 2))
    = t (readByte d idx, readByte d (idx + 1), readByte d (idx + 2))
}.

(** What a byte buffer keeps of a value written to it. *)
Definition stored (v : option Z) : Z := Z.modulo (default 0 v) 256.

Definition white : Z * Z * Z := (255, 255, 255).

(** The pixel function of [processImage]. *)
Definition processedColor (colorPalette : list Color) (px : Z * Z * Z)
    : Z * Z * Z :=
  let '(r, g, b) := px in
  let c := findClosestColor [r; g; b] colorPalette in
  (stored (c !! 0%nat), stored (c !! 1%nat), stored (c !! 2%nat)).

(** The pixel [px] has exactly the channels of [color]. *)
Definition sameColor (color : Color) (px : Z * Z * Z) : Prop :=
  let '(r, g, b) := px in
  color !! 0%nat = Some r /\ color !! 1%nat = Some g /\ color !! 2%nat = Some b.

#[local] Instance sameColor_dec color px : Decision (sameColor color px).
Proof. destruct px as [[r g] b]. unfold sameColor. apply _. Defined.

(** The pixel function of [separateColors]. *)
Definition separatedColor (color : Color) (px : Z * Z * Z) : Z * Z * Z :=
  if decide (sameColor color px) then px else white.

(** The pixel function of [separateGreyscaleColors]. *)
Definition bandedColor (targetGrey : option Z) (px : Z * Z * Z) : Z * Z * Z :=
  let '(r, g, b) := px in
  match targetGrey with
  | Some t =>
      if Z.abs (luma r g b - t) <=? TOLERANCE
      then (stored (Some t), stored (Some t), stored (Some t))
      else white
  | None => white
  end.

(** The three writes of a callback, in the order the code makes them. *)
Definition write3 (idx : nat) (a b c : option Z) (d : list Z) : list Z :=
  writeByte (idx + 2) c (writeByte (idx + 1) b (writeByte idx a d)).

(** The mask [separateColors] makes of [src] for one colour, and the mask
    [separateGreyscaleColors] makes for one palette entry. *)
Definition colorMask (src : Bitmap) (color : Color) : Bitmap :=
  scan 0 0 (width src) (height src) (separatePixel color) src.

Definition greyMask (src : Bitmap) (greyHex : string) : Bitmap :=
  scan 0 0 (width src) (height src) (bandPixel (greyHexToNumber greyHex)) src.

(** The luma of pixel number [p]. *)
Definition lumaAt (d : list Z) (p : nat) : Z :=
  let '(r, g, b) := pixelAt d p in luma r g b.

(** Whether the grey hex [extractGreyscalePalette] writes for the luma [t]
    reads back as [t]. *)
Definition greyHexRoundTrips (t : Z) : bool :=
  match greyHexToNumber (rgbToHex [t; t; t]) with
  | Some t' => t' =? t
  | None => false
  end.

(** Feeding settlements to [Promise.all] in a given order. *)
Definition settleAll {A : Type} (calls : list (JsResult A)) (order : list nat)
    (st : AllState A) : AllState A :=
  fold_left
    (fun st i =>
       match calls !! i with
       | Some r => allSettle st i r
       | None => st
       end)
    order st.


(** The frame [mergeSvgs] declares for the merged document: the four
    numbers of its [viewBox]. *)
Definition declaredFrame (svgs : list string) : float * float * float * float :=
  let b := mergedBounds svgs in (minX b, minY b, finalWidth b, finalHeight b).

(** A frame made of numbers: neither origin is [NaN], and neither far
    corner [origin + size] is. *)
Definition properFrame (f : Frame) : Prop :=
  is_nan (contentMinX f) = false
  /\ is_nan (contentMinY f) = false
  /\ is_nan (contentMinX f + contentWidth f)%float = false
  /\ is_nan (contentMinY f + contentHeight f)%float = false.


(** Bounds none of which is [NaN]. *)
Definition properBounds (b : Bounds) : Prop :=
  is_nan (minX b) = false /\ is_nan (minY b) = false
  /\ is_nan (maxX b) = false /\ is_nan (maxY b) = false.


(** A fragment as potrace writes it: [width], [height] and [viewBox] on
    the root element, one path inside. *)
Definition tracedSvg (w h viewBox fill : string) : string :=
  ("<svg " ++ Str.attr "xmlns" "http://www.w3.org/2000/svg"
   ++ " " ++ Str.attr "width" w ++ " " ++ Str.attr "height" h
   ++ " " ++ Str.attr "viewBox" viewBox ++ " " ++ Str.attr "version" "1.1"
   ++ ">" ++ "<path " ++ Str.attr "d" "M0 0L1 1Z" ++ " "
   ++ Str.attr "stroke" "none" ++ " " ++ Str.attr "fill" fill ++ " "
   ++ Str.attr "fill-rule" "evenodd" ++ "/>" ++ "</svg>")%string.

(** The header of a merged document with the given [viewBox] and size. *)
Definition svgHeader (viewBox w h : string) : string :=
  ("<svg " ++ Str.attr "xmlns" "http://www.w3.org/2000/svg" ++ " "
   ++ Str.attr "viewBox" viewBox ++ " " ++ Str.attr "width" w ++ " "
   ++ Str.attr "height" h ++ ">")%string.

(** The image [decodePng] gives back for the encoded greyscale of [b]. *)
Definition greyscaleRead (encodePng : Bitmap -> string)
    (decodePng : option string -> Bitmap) (greyscale : Bitmap -> Bitmap)
    (b : Bitmap) : Bitmap :=
  decodePng (payload (dataUri encodePng (greyscale b))).

(** What steps 1 to 6 of [vectori] return for the bitmap [source] when
    every step after [processImage] reads the bitmap [kept] from [image]. *)
Definition separatedFrom (encodePng : Bitmap -> string)
    (decodePng : option string -> Bitmap) (greyscale : Bitmap -> Bitmap)
    (source kept : Bitmap) (palette : list Color)
    : Separated :=
  {| sepImage := 0%nat;
     sepColorPaletteValues := palette;
     sepColorImage :=
       dataUri encodePng
         (scan 0 0 (width source) (height source) (processPixel palette) source);
     sepGreyscaleImage := dataUri encodePng (greyscale kept);
     sepGreyscalePalette :=
       extractGreyscalePalette
         (greyscaleRead encodePng decodePng greyscale kept);
     sepAllColorsPalette := extractAllColors source;
     sepGreyscaleAllColorsPalette := extractAllColors (greyscale source);
     sepColorImages :=
       map (fun c => dataUri encodePng (colorMask kept c)) palette;
     sepGreyscaleImages :=
       map (fun g => dataUri encodePng (greyMask kept g))
         (extractGreyscalePalette
            (greyscaleRead encodePng decodePng greyscale kept)) |}.

(** A stand-in PNG encoder that shows the bytes, in hexadecimal. *)
Definition showBitmap (b : Bitmap) : string :=
  Str.join "." (map Str.toString16 (data b)).

(** The number of double quotes in a string. *)
Fixpoint countQuotes (s : string) : nat :=
  match s with
  | EmptyString => 0%nat
  | String c s' =>
      if Ascii.eqb c Str.dq then S (countQuotes s') else countQuotes s'
  end.

(** [s] starts with [p]. *)
Definition startsWith (p s : string) : bool :=
  match Str.stripPrefix p s with
  | Some _ => true
  | None => false
  end.

(** The character [a] does not occur in [s]. *)
Fixpoint lacks (a : ascii) (s : string) : bool :=
  match s with
  | EmptyString => true
  | String c s' => negb (Ascii.eqb c a) && lacks a s'
  end.

(** The opening of an attribute: its name, an equals sign, a double quote. *)
Definition opening (name : string) : string :=
  (name ++ "=" ++ String Str.dq EmptyString)%string.

(** [svg] holds a declaration of the attribute [name]: the expression of
    [createSvgOutline] for that attribute matches somewhere in it. *)
Definition declares (name svg : string) : Prop :=
  firstMatch (attrAnyLengthAt name) svg <> None.

(** A path as potrace writes it, and the same path without its stroke. *)
Definition tracedPath : string :=
  ("<path " ++ Str.attr "d" "M0 0L1 1Z" ++ " " ++ Str.attr "stroke" "none"
   ++ " " ++ Str.attr "fill" "#ff0000" ++ " "
   ++ Str.attr "fill-rule" "evenodd" ++ "/>")%string.

Definition strokelessPath : string :=
  ("<path " ++ Str.attr "d" "M0 0L1 1Z" ++ " " ++ Str.attr "fill" "#ff0000"
   ++ " " ++ Str.attr "fill-rule" "evenodd" ++ "/>")%string.

(** The two hexadecimal digits [rgbToHex] writes for one channel. *)
Definition hexPair (x : Z) : string := Str.padStart2 (Str.toString16 x).

(** Whether the digits written for [x] are two characters that [parseInt]
    reads back as [x]. *)
Definition hexPairRoundTrips (x : Z) : bool :=
  match hexPair x with
  | String c1 (String c2 EmptyString) =>
      match Str.parseInt16 (String c1 (String c2 EmptyString)) with
      | Some v => v =? x
      | None => false
      end
  | _ => false
  end.

(** The hex colour of pixel number [p], and the grey hex of its luma. *)
Definition hexAt (d : list Z) (p : nat) : string :=
  let '(r, g, b) := pixelAt d p in rgbToHex [r; g; b].

Definition greyHexAt (d : list Z) (p : nat) : string :=
  let grey := lumaAt d p in rgbToHex [grey; grey; grey].

(** The colour of pixel number [p] as the array the classifier is given. *)
Definition colorAt (d : list Z) (p : nat) : Color :=
  let '(r, g, b) := pixelAt d p in [r; g; b].

(** The buffer holds the bytes [r], [g], [b] for pixel number [p]. *)
Definition pixelIs (d : list Z) (p : nat) (r g b : Z) : Prop :=
  d !! (4 * p)%nat = Some r /\ d !! (4 * p + 1)%nat = Some g
  /\ d !! (4 * p + 2)%nat = Some b.

(** Pixel number [p] is a grey: its three channels are one byte. *)
Definition greyPixel (d : list Z) (p : nat) : Prop :=
  exists v, byte v /\ pixelIs d p v v v.

(** Whether the luma of the grey [(v, v, v)] is [v]. *)
Definition lumaFixes (v : Z) : bool := luma v v v =? v.

(** The sign of a specification float. *)
Definition SFsign (x : spec_float) : bool :=
  match x with
  | S754_zero s | S754_infinity s | S754_finite s _ _ => s
  | S754_nan => false
  end.

(** [x] comes first for [Math.min], and last for [Math.max]: it is the
    smaller one, or they are equal and [x] is [-0] or [y] is not. *)
Definition SFfirst (x y : spec_float) : bool :=
  SFltb x y || (negb (SFltb y x) && (SFsign x || negb (SFsign y))).

Definition comesFirst (a b : float) : bool :=
  SFfirst (Prim2SF a) (Prim2SF b).

(** A run of [vectori] on one pixel, with stand-ins for the libraries: the
    clustering answers one colour, the decoder answers the source, and the
    tracer writes a one-path fragment in the colour it is given. *)
Definition sampleSource : Bitmap :=
  {| width := 1; height := 1; data := [10; 20; 30; 255] |}.

Definition sampleTrace (png color : option string) : JsResult string :=
  match png, color with
  | Some _, Some c => Returns (tracedSvg "1" "1" "0 0 1 1" c)
  | _, _ => Throws "potrace: bad image"
  end.

Definition sampleRun (orderColor orderGrey : list nat) : M ResultView :=
  vectori showBitmap (fun _ => sampleSource) (fun b => b)
    (fun _ _ => [[12; 20; 28]]) sampleTrace sampleSource orderColor orderGrey.

(** * Part II: properties *)

(** ** Facts about JavaScript numbers *)

Module JsNumFacts.
Import JsNum.

(** Order facts on [spec_float], the specification side of the
    primitive comparisons. *)

Ltac sf_cases :=
  repeat match goal with
    | x : spec_float |- _ => destruct x
    | s : bool |- _ => destruct s
    end;
  cbn [SFcompare]; try congruence; try discriminate; try reflexivity.

Ltac cmp_cases :=
  change (Pos.compare_cont Eq) with Pos.compare in *;
  repeat match goal with
    | |- context [Z.compare ?a ?b] =>
        destruct (Z.compare_spec a b); subst
    | H : context [Z.compare ?a ?b] |- _ =>
        destruct (Z.compare_spec a b); subst
    | |- context [Pos.compare ?a ?b] =>
        destruct (Pos.compare_spec a b); subst
    | H : context [Pos.compare ?a ?b] |- _ =>
        destruct (Pos.compare_spec a b); subst
    end;
  cbn in *; try congruence; try discriminate; try reflexivity; try lia.

Lemma SFltb_trans x y z :
  SFltb x y = true -> SFltb y z = true -> SFltb x z = true.
Proof. unfold SFltb. sf_cases; intros; cmp_cases. Qed.


Lemma SFltb_asym x y : SFltb x y = true -> SFltb y x = false.
Proof. unfold SFltb. sf_cases; intros; cmp_cases. Qed.




(** The same facts on primitive floats, through [FloatAxioms]. *)

Lemma is_nan_spec (x : float) : is_nan x = true <-> Prim2SF x = S754_nan.
Proof.
  unfold is_nan. rewrite FloatAxioms.eqb_spec. unfold SFeqb.
  destruct (Prim2SF x) as [s|s| |s m e]; cbn [SFcompare];
    try (destruct s); cbn; try (split; congruence).
  all: rewrite Z.compare_refl;
    change (Pos.compare_cont Eq m m) with (Pos.compare m m);
    rewrite Pos.compare_refl; cbn; split; congruence.
Qed.

Lemma not_nan_spec (x : float) : is_nan x = false -> Prim2SF x <> S754_nan.
Proof.
  intros H E. apply is_nan_spec in E. congruence.
Qed.

Lemma ltb_trans (x y z : float) :
  (x <? y)%float = true -> (y <? z)%float = true -> (x <? z)%float = true.
Proof. rewrite !FloatAxioms.ltb_spec. apply SFltb_trans. Qed.


Lemma ltb_asym (x y : float) :
  (x <? y)%float = true -> (y <? x)%float = false.
Proof. rewrite !FloatAxioms.ltb_spec. apply SFltb_asym. Qed.

Lemma ltb_irrefl (x : float) : (x <? x)%float = false.
Proof.
  destruct (x <? x)%float eqn:E; [|reflexivity].
  now rewrite (ltb_asym _ _ E) in E.
Qed.












End JsNumFacts.


(** ** The pixel classifier *)

Section Classifier.
Import JsNum JsNumFacts.

(** [Math.sqrt] is strictly increasing on the integers a squared distance
    between two colours can take: checked on every adjacent pair. *)
Lemma sqrtIncreasesFrom_spec (k : nat) (n i : Z) :
  sqrtIncreasesFrom k n = true -> n <= i < n + Z.of_nat k ->
  (Math_sqrt (of_Z i) <? Math_sqrt (of_Z (i + 1)))%float = true.
Proof.
  revert n. induction k as [|k IH]; intros n H Hi; [lia|].
  cbn [sqrtIncreasesFrom] in H. apply andb_prop in H as [H1 H2].
  destruct (Z.eq_dec i n) as [->|Hne]; [exact H1|].
  apply (IH (n + 1)); [exact H2|lia].
Qed.

Lemma sqrt_increases_all :
  sqrtIncreasesFrom (Z.to_nat maxSquaredDistance) 0 = true.
Proof. vm_compute. reflexivity. Qed.

Lemma sqrt_of_Z_lt (n m : Z) :
  0 <= n < m -> m <= maxSquaredDistance ->
  (Math_sqrt (of_Z n) <? Math_sqrt (of_Z m))%float = true.
Proof.
  intros Hnm Hm.
  assert (Hstep : forall i, 0 <= i < maxSquaredDistance ->
            (Math_sqrt (of_Z i) <? Math_sqrt (of_Z (i + 1)))%float = true).
  { intros i Hi. apply (sqrtIncreasesFrom_spec _ 0 i sqrt_increases_all).
    rewrite Z2Nat.id by (unfold maxSquaredDistance; lia). lia. }
  assert (Hgen : forall d : nat, n + 1 + Z.of_nat d <= maxSquaredDistance ->
            (Math_sqrt (of_Z n) <? Math_sqrt (of_Z (n + 1 + Z.of_nat d)))%float
            = true).
  { induction d as [|d IH]; intros Hd.
    - replace (n + 1 + Z.of_nat 0) with (n + 1) by lia. apply Hstep. lia.
    - apply ltb_trans with (y := Math_sqrt (of_Z (n + 1 + Z.of_nat d))).
      + apply IH. lia.
      + replace (n + 1 + Z.of_nat (S d)) with (n + 1 + Z.of_nat d + 1) by lia.
        apply Hstep. lia. }
  replace m with (n + 1 + Z.of_nat (Z.to_nat (m - n - 1))) by lia.
  apply Hgen. lia.
Qed.

Lemma sqrt_of_Z_ltb (n m : Z) :
  0 <= n <= maxSquaredDistance -> 0 <= m <= maxSquaredDistance ->
  (Math_sqrt (of_Z n) <? Math_sqrt (of_Z m))%float = (n <? m).
Proof.
  intros Hn Hm. destruct (Z.ltb_spec n m) as [Hlt|Hge].
  - apply sqrt_of_Z_lt; lia.
  - destruct (Z.eq_dec n m) as [->|Hne]; [apply ltb_irrefl|].
    apply ltb_asym, sqrt_of_Z_lt; lia.
Qed.

Lemma squaredDistance_range (a b : Color) :
  isColor a -> isColor b -> 0 <= squaredDistance a b <= maxSquaredDistance.
Proof.
  intros (r & g & bl & -> & Hr & Hg & Hb)
         (r' & g' & bl' & -> & Hr' & Hg' & Hb').
  unfold byte, maxSquaredDistance in *. cbn [squaredDistance].
  assert (Hsq : forall u v, 0 <= u <= 255 -> 0 <= v <= 255 ->
            0 <= (u - v) ^ 2 <= 65025).
  { intros u v Hu Hv. rewrite Z.pow_2_r.
    pose proof (Z.square_nonneg (u - v)).
    assert (0 <= (255 - (u - v)) * (255 + (u - v)))
      by (apply Z.mul_nonneg_nonneg; lia).
    lia. }
  pose proof (Hsq r r' Hr Hr'). pose proof (Hsq g g' Hg Hg').
  pose proof (Hsq bl bl' Hb Hb'). lia.
Qed.

Lemma sumSquaredDiff_color (a b : Color) :
  isColor a -> isColor b -> sumSquaredDiff a b = Some (squaredDistance a b).
Proof.
  intros (r & g & bl & -> & _) (r' & g' & bl' & -> & _).
  cbn. f_equal; lia.
Qed.

Lemma closer_color (color prev curr : Color) :
  isColor color -> isColor prev -> isColor curr ->
  closer color prev curr
  = if squaredDistance curr color <? squaredDistance prev color
    then curr else prev.
Proof.
  intros Hc Hp Hq. unfold closer, computeEuclideanDistance.
  rewrite !sumSquaredDiff_color by assumption.
  rewrite sqrt_of_Z_ltb by (apply squaredDistance_range; assumption).
  reflexivity.
Qed.

(** The [reduce] keeps the first entry of least squared distance. *)
Lemma fold_closer_first_min (color p0 : Color) (rest : list Color) :
  isColor color -> Forall isColor (p0 :: rest) ->
  let r := fold_left (closer color) rest p0 in
  exists i : nat,
    (p0 :: rest) !! i = Some r
    /\ (forall j q, (p0 :: rest) !! j = Some q ->
          squaredDistance r color <= squaredDistance q color)
    /\ (forall j q, (j < i)%nat -> (p0 :: rest) !! j = Some q ->
          squaredDistance r color < squaredDistance q color).
Proof.
  intros Hc. induction rest as [|x rest IH] using rev_ind; intros HP r.
  - exists 0%nat. subst r. cbn. split; [reflexivity|]. split.
    + intros [|j] q Hq; cbn in Hq; [|discriminate]. injection Hq as <-. lia.
    + intros j q Hj. lia.
  - rewrite app_comm_cons in HP. apply Forall_app in HP as [HP Hx].
    apply Forall_inv in Hx.
    destruct (IH HP) as (i & Hi & Hmin & Hfirst).
    set (r0 := fold_left (closer color) rest p0) in *.
    assert (Hr0 : isColor r0).
    { exact (Forall_lookup_1 _ _ _ _ HP Hi). }
    assert (Hlen : (i < length (p0 :: rest))%nat)
      by (eapply lookup_lt_Some, Hi).
    subst r. rewrite fold_left_app. cbn [fold_left]. fold r0.
    rewrite closer_color by assumption.
    rewrite app_comm_cons.
    destruct (Z.ltb_spec (squaredDistance x color) (squaredDistance r0 color))
      as [Hlt|Hge].
    + exists (length (p0 :: rest)). split; [|split].
      * rewrite lookup_app_r by lia. now rewrite Nat.sub_diag.
      * intros j q Hq. apply lookup_app_Some in Hq as [Hq|[_ Hq]].
        -- specialize (Hmin j q Hq). lia.
        -- destruct (j - length (p0 :: rest))%nat; cbn in Hq; [|discriminate].
           injection Hq as <-. lia.
      * intros j q Hj Hq. rewrite lookup_app_l in Hq by lia.
        specialize (Hmin j q Hq). lia.
    + exists i. split; [|split].
      * rewrite lookup_app_l by lia. exact Hi.
      * intros j q Hq. apply lookup_app_Some in Hq as [Hq|[_ Hq]].
        -- exact (Hmin j q Hq).
        -- destruct (j - length (p0 :: rest))%nat; cbn in Hq; [|discriminate].
           injection Hq as <-. lia.
      * intros j q Hj Hq. rewrite lookup_app_l in Hq by lia.
        exact (Hfirst j q Hj Hq).
Qed.

Lemma euclideanDistance_lt (a b c : Color) :
  isColor a -> isColor b -> isColor c ->
  (euclideanDistance a c < euclideanDistance b c)%R
  <-> squaredDistance a c < squaredDistance b c.
Proof.
  intros Ha Hb Hc. unfold euclideanDistance.
  pose proof (squaredDistance_range a c Ha Hc) as [Ha0 _].
  pose proof (squaredDistance_range b c Hb Hc) as [Hb0 _].
  split.
  - intros H. apply lt_IZR. apply sqrt_lt_0_alt. exact H.
  - intros H. apply sqrt_lt_1_alt. split; [now apply IZR_le|now apply IZR_lt].
Qed.

End Classifier.

(** C4. For a non-empty palette [P] of colours and a colour [c],
    [findClosestColor c P] is a member of [P]; no member of [P] is strictly
    closer to [c] in Euclidean RGB distance; and every member standing
    before it in [P] is strictly farther, so of several members at the
    least distance the earliest one is returned. *)
Theorem findClosestColor_nearest_first (c : Color) (P : list Color) :
  P <> [] -> isColor c -> Forall isColor P ->
  findClosestColor c P ∈ P
  /\ (forall q, q ∈ P ->
        ~ (euclideanDistance q c
           < euclideanDistance (findClosestColor c P) c)%R)
  /\ exists i : nat,
       P !! i = Some (findClosestColor c P)
       /\ forall j q, (j < i)%nat -> P !! j = Some q ->
            (euclideanDistance (findClosestColor c P) c
             < euclideanDistance q c)%R.
Proof.
  intros Hne Hc HP. destruct P as [|p0 rest]; [congruence|].
  cbn [findClosestColor].
  destruct (fold_closer_first_min c p0 rest Hc HP) as (i & Hi & Hmin & Hfirst).
  set (r := fold_left (closer c) rest p0) in *.
  assert (Hr : isColor r) by exact (Forall_lookup_1 _ _ _ _ HP Hi).
  split; [eapply list_elem_of_lookup_2, Hi|]. split.
  - intros q Hq Hlt. apply list_elem_of_lookup_1 in Hq as [j Hj].
    assert (Hqc : isColor q) by exact (Forall_lookup_1 _ _ _ _ HP Hj).
    apply euclideanDistance_lt in Hlt; try assumption.
    specialize (Hmin j q Hj). lia.
  - exists i. split; [exact Hi|]. intros j q Hj Hq.
    assert (Hqc : isColor q) by exact (Forall_lookup_1 _ _ _ _ HP Hq).
    apply euclideanDistance_lt; try assumption.
    exact (Hfirst j q Hj Hq).
Qed.

Lemma isColor_intro (r g b : Z) :
  0 <= r <= 255 -> 0 <= g <= 255 -> 0 <= b <= 255 -> isColor [r; g; b].
Proof.
  intros Hr Hg Hb. exists r, g, b.
  repeat split; apply Hr || apply Hg || apply Hb.
Qed.

Lemma findClosestColor_nearest_first_witness :
  let c := [10; 20; 30] in
  let P := [[0; 0; 0]; [20; 20; 30]; [10; 30; 30]; [255; 255; 255]] in
  findClosestColor c P ∈ P
  /\ (forall q, q ∈ P ->
        ~ (euclideanDistance q c
           < euclideanDistance (findClosestColor c P) c)%R)
  /\ exists i : nat,
       P !! i = Some (findClosestColor c P)
       /\ forall j q, (j < i)%nat -> P !! j = Some q ->
            (euclideanDistance (findClosestColor c P) c
             < euclideanDistance q c)%R.
Proof.
  apply findClosestColor_nearest_first.
  - discriminate.
  - apply isColor_intro; lia.
  - repeat constructor; apply isColor_intro; lia.
Defined.

(** Ties: of two palette entries at the same distance the first stays. *)
Example findClosestColor_tie :
  findClosestColor [10; 20; 30] [[0; 0; 0]; [20; 20; 30]; [10; 30; 30]]
  = [20; 20; 30].
Proof. vm_compute. reflexivity. Qed.

(** The guarded classifier of [vectori.js] is the identity on the empty
    palette. *)
Lemma findClosestColor_empty (c : Color) : findClosestColor c [] = c.
Proof. reflexivity. Qed.

(** C5. The older copy of [findClosestColor] has no guard for the empty
    palette: instead of returning the colour unchanged it throws. *)
Theorem legacy_findClosestColor_empty_throws (c : Color) :
  Legacy.findClosestColor c []
  = Throws "TypeError: Reduce of empty array with no initial value"
  /\ Legacy.findClosestColor c [] <> Returns c.
Proof. split; [reflexivity|discriminate]. Qed.

(** ** Scans over a bitmap *)

Section Scan.

Lemma scanOrder_rows (w h : nat) :
  map (fun '(x, y, idx) => idx) (scanOrder w 0 0 w h)
  = map (fun p => (4 * p)%nat) (seq 0 (w * h)).
Proof.
  unfold scanOrder. induction h as [|h IH].
  - now rewrite Nat.mul_0_r.
  - rewrite seq_S, flat_map_app, map_app, IH. cbn [flat_map].
    rewrite app_nil_r, Nat.mul_succ_r, seq_app, map_app. f_equal.
    rewrite map_map. cbn [Nat.add].
    replace (seq (w * h) w) with (seq (w * h + 0) w) by (f_equal; lia).
    rewrite <- fmap_add_seq.
    change (fmap ?f ?l) with (map f l). rewrite map_map.
    apply map_ext. intros x. rewrite Nat.shiftl_mul_pow2. cbn. lia.
Qed.

Lemma fold_scanOrder (f : nat -> nat -> nat -> list Z -> list Z)
    (g : nat -> list Z -> list Z) (l : list (nat * nat * nat)) (d : list Z) :
  (forall x y idx d', f x y idx d' = g idx d') ->
  fold_left (fun d' '(x, y, idx) => f x y idx d') l d
  = fold_left (fun d' idx => g idx d') (map (fun '(x, y, idx) => idx) l) d.
Proof.
  intros Hfg. revert d. induction l as [|[[x y] idx] l IH]; intros d.
  - reflexivity.
  - cbn. rewrite Hfg. apply IH.
Qed.

Lemma readByte_ext (d d' : list Z) (i : nat) :
  d !! i = d' !! i -> readByte d i = readByte d' i.
Proof. unfold readByte. now intros ->. Qed.

Lemma pixelAt_ext (d d' : list Z) (p : nat) :
  (forall j, (4 * p <= j < 4 * p + 3)%nat -> d !! j = d' !! j) ->
  pixelAt d p = pixelAt d' p.
Proof.
  intros H. unfold pixelAt.
  rewrite (readByte_ext d d' (4 * p)) by (apply H; lia).
  rewrite (readByte_ext d d' (4 * p + 1)) by (apply H; lia).
  rewrite (readByte_ext d d' (4 * p + 2)) by (apply H; lia).
  reflexivity.
Qed.

Lemma fold_pixelLocal (g : nat -> list Z -> list Z)
    (t : Z * Z * Z -> Z * Z * Z) (n : nat) (d0 : list Z) :
  pixelLocal g t -> (4 * n <= length d0)%nat ->
  let R := fold_left (fun d idx => g idx d)
             (map (fun p => (4 * p)%nat) (seq 0 n)) d0 in
  length R = length d0
  /\ (forall p, (p < n)%nat ->
        pixelAt R p = t (pixelAt d0 p) /\ alphaAt R p = alphaAt d0 p)
  /\ (forall j, (4 * n <= j)%nat -> R !! j = d0 !! j).
Proof.
  intros [Hlen Hframe Hpix]. induction n as [|n IH]; intros Hn R.
  - subst R. cbn. split; [reflexivity|]. split; [intros p Hp; lia|reflexivity].
  - subst R. rewrite seq_S, map_app, fold_left_app. cbn [map fold_left Nat.add].
    destruct IH as (IHlen & IHpix & IHrest); [lia|].
    set (R := fold_left (fun d idx => g idx d)
                (map (fun p => (4 * p)%nat) (seq 0 n)) d0) in *.
    split; [now rewrite Hlen|]. split.
    + intros p Hp. destruct (Nat.eq_dec p n) as [->|Hne].
      * split.
        -- unfold pixelAt at 1. rewrite Hpix by lia.
           change (t (pixelAt R n) = t (pixelAt d0 n)). f_equal.
           apply pixelAt_ext. intros j Hj. apply IHrest. lia.
        -- unfold alphaAt. rewrite Hframe by lia. apply IHrest. lia.
      * destruct (IHpix p) as [IHp IHa]; [lia|]. split.
        -- rewrite <- IHp. apply pixelAt_ext. intros j Hj.
           apply Hframe. lia.
        -- rewrite <- IHa. unfold alphaAt. apply Hframe. lia.
    + intros j Hj. rewrite Hframe by lia. apply IHrest. lia.
Qed.

(** A whole-image scan with a pixel-local callback maps [t] over the
    pixels, and keeps the dimensions, the buffer length and every alpha
    byte. *)
Lemma scan_pixelLocal (f : nat -> nat -> nat -> list Z -> list Z)
    (g : nat -> list Z -> list Z) (t : Z * Z * Z -> Z * Z * Z) (b : Bitmap) :
  (forall x y idx d, f x y idx d = g idx d) -> pixelLocal g t ->
  wellFormed b ->
  let b' := scan 0 0 (width b) (height b) f b in
  width b' = width b /\ height b' = height b
  /\ length (data b') = length (data b)
  /\ forall p, (p < width b * height b)%nat ->
       pixelAt (data b') p = t (pixelAt (data b) p)
       /\ alphaAt (data b') p = alphaAt (data b) p.
Proof.
  intros Hfg Hloc Hwf b'. subst b'. unfold scan. cbn [width height data].
  split; [reflexivity|]. split; [reflexivity|].
  rewrite (fold_scanOrder f g) by exact Hfg. rewrite scanOrder_rows.
  destruct (fold_pixelLocal g t (width b * height b) (data b) Hloc)
    as (Hlen & Hpix & _); [unfold wellFormed in Hwf; lia|].
  split; [exact Hlen|exact Hpix].
Qed.

(** The alpha bytes need no assumption on the buffer: a pixel-local
    callback called at multiples of four never reaches a byte at
    [4 * p + 3]. *)
Lemma fold_alpha (g : nat -> list Z -> list Z) (t : Z * Z * Z -> Z * Z * Z)
    (l : list nat) (d0 : list Z) :
  pixelLocal g t -> Forall (fun idx => exists k, idx = (4 * k)%nat) l ->
  let R := fold_left (fun d idx => g idx d) l d0 in
  length R = length d0 /\ forall p, alphaAt R p = alphaAt d0 p.
Proof.
  intros [Hlen Hframe _]. revert d0.
  induction l as [|idx l IH]; intros d0 Hall R.
  - subst R. cbn. split; reflexivity.
  - apply Forall_cons in Hall as [[k ->] Hall]. subst R. cbn [fold_left].
    destruct (IH (g (4 * k)%nat d0) Hall) as [IHlen IHalpha].
    split; [now rewrite IHlen, Hlen|].
    intros p. rewrite IHalpha. unfold alphaAt. apply Hframe. lia.
Qed.

Lemma scanOrder_fours (bw x0 y0 w h : nat) :
  Forall (fun idx => exists k, idx = (4 * k)%nat)
    (map (fun '(x, y, idx) => idx) (scanOrder bw x0 y0 w h)).
Proof.
  unfold scanOrder. apply Forall_forall. intros idx Hin.
  apply list_elem_of_In, in_map_iff in Hin as ([[x y] idx'] & Heq & Hin).
  cbn in Heq. subst idx'.
  apply in_flat_map in Hin as (y' & _ & Hin).
  apply in_map_iff in Hin as (x' & E & _). injection E as _ _ E.
  exists (bw * y' + x')%nat. rewrite <- E. unfold Nat.double. lia.
Qed.

Lemma scan_alpha (f : nat -> nat -> nat -> list Z -> list Z)
    (g : nat -> list Z -> list Z) (t : Z * Z * Z -> Z * Z * Z)
    (x0 y0 w h : nat) (b : Bitmap) :
  (forall x y idx d, f x y idx d = g idx d) -> pixelLocal g t ->
  let b' := scan x0 y0 w h f b in
  width b' = width b /\ height b' = height b
  /\ length (data b') = length (data b)
  /\ forall p, alphaAt (data b') p = alphaAt (data b) p.
Proof.
  intros Hfg Hloc b'. subst b'. unfold scan. cbn [width height data].
  split; [reflexivity|]. split; [reflexivity|].
  rewrite (fold_scanOrder f g) by exact Hfg.
  exact (fold_alpha g t _ (data b) Hloc (scanOrder_fours _ _ _ _ _)).
Qed.

End Scan.

(** ** The three pixel passes, pixel by pixel *)

Section PixelPasses.

Lemma writeByte_length (i : nat) (v : option Z) (d : list Z) :
  length (writeByte i v d) = length d.
Proof. apply length_insert. Qed.

Lemma writeByte_other (i j : nat) (v : option Z) (d : list Z) :
  i <> j -> writeByte i v d !! j = d !! j.
Proof. intros H. now apply list_lookup_insert_ne. Qed.

Lemma readByte_writeByte (i : nat) (v : option Z) (d : list Z) :
  (i < length d)%nat -> readByte (writeByte i v d) i = stored v.
Proof.
  intros H. unfold readByte, writeByte.
  now rewrite list_lookup_insert_eq.
Qed.

Lemma readByte_writeByte_other (i j : nat) (v : option Z) (d : list Z) :
  i <> j -> readByte (writeByte i v d) j = readByte d j.
Proof. intros H. apply readByte_ext. now apply writeByte_other. Qed.

Lemma write3_length idx a b c d : length (write3 idx a b c d) = length d.
Proof. unfold write3. now rewrite !writeByte_length. Qed.

Lemma write3_frame idx a b c d j :
  (j < idx \/ idx + 3 <= j)%nat -> write3 idx a b c d !! j = d !! j.
Proof.
  intros H. unfold write3. rewrite !writeByte_other by lia. reflexivity.
Qed.

Lemma write3_read idx a b c d :
  (idx + 2 < length d)%nat ->
  (readByte (write3 idx a b c d) idx,
   readByte (write3 idx a b c d) (idx + 1),
   readByte (write3 idx a b c d) (idx + 2))
  = (stored a, stored b, stored c).
Proof.
  intros H. unfold write3.
  rewrite (readByte_writeByte (idx + 2))
    by (rewrite !writeByte_length; lia).
  rewrite !(readByte_writeByte_other (idx + 2)) by lia.
  rewrite (readByte_writeByte (idx + 1))
    by (rewrite !writeByte_length; lia).
  rewrite !(readByte_writeByte_other (idx + 1)) by lia.
  rewrite (readByte_writeByte idx) by lia.
  reflexivity.
Qed.

Lemma processPixel_local (colorPalette : list Color) :
  pixelLocal (processPixel colorPalette 0 0) (processedColor colorPalette).
Proof.
  split.
  - intros idx d. apply write3_length.
  - intros idx d j Hj. now apply write3_frame.
  - intros idx d Hd. unfold processPixel, processedColor.
    cbv beta iota zeta. exact (write3_read idx _ _ _ d Hd).
Qed.

Lemma separatePixel_test (color : Color) (r g b : Z) :
  negb (bool_decide (Some r = color !! 0%nat))
  || negb (bool_decide (Some g = color !! 1%nat))
  || negb (bool_decide (Some b = color !! 2%nat))
  = negb (bool_decide (sameColor color (r, g, b))).
Proof.
  assert (E : sameColor color (r, g, b)
              <-> Some r = color !! 0%nat
                  /\ Some g = color !! 1%nat /\ Some b = color !! 2%nat).
  { unfold sameColor. split; intros (H0 & H1 & H2); auto. }
  rewrite (bool_decide_ext _ _ E), !bool_decide_and, !negb_andb.
  now rewrite orb_assoc.
Qed.

Lemma separatePixel_local (color : Color) :
  pixelLocal (separatePixel color 0 0) (separatedColor color).
Proof.
  split.
  - intros idx d. unfold separatePixel.
    destruct (_ || _); [apply write3_length|reflexivity].
  - intros idx d j Hj. unfold separatePixel.
    destruct (_ || _); [now apply write3_frame|reflexivity].
  - intros idx d Hd. unfold separatePixel, separatedColor.
    cbv beta iota zeta. rewrite separatePixel_test.
    destruct (decide (sameColor color _)) as [Hs|Hs].
    + rewrite bool_decide_true by exact Hs. reflexivity.
    + rewrite bool_decide_false by exact Hs. cbn [negb].
      exact (write3_read idx _ _ _ d Hd).
Qed.

Lemma bandPixel_local (targetGrey : option Z) :
  pixelLocal (bandPixel targetGrey 0 0) (bandedColor targetGrey).
Proof.
  split.
  - intros idx d. unfold bandPixel.
    destruct targetGrey as [t|]; [destruct (_ <=? _)|]; apply write3_length.
  - intros idx d j Hj. unfold bandPixel.
    destruct targetGrey as [t|]; [destruct (_ <=? _)|]; now apply write3_frame.
  - intros idx d Hd. unfold bandPixel, bandedColor. cbv beta iota zeta.
    destruct targetGrey as [t|]; [destruct (_ <=? _)|];
      exact (write3_read idx _ _ _ d Hd).
Qed.

End PixelPasses.

(** ** The passes over the heap of images *)

Section HeapPasses.

Variable encodePng : Bitmap -> string.

Lemma alter_new (f : Bitmap -> Bitmap) (h : Heap) (b : Bitmap) :
  alter f (length h) (h ++ [b]) = h ++ [f b].
Proof.
  replace (length h) with (length h + 0)%nat by lia.
  now rewrite alter_app_r.
Qed.

(** One clone per item, changed by [mk] and encoded: the heap grows by
    the changed clones, in order, and nothing else in it changes. *)
Lemma mapM_clones {X : Type} (mk : X -> Bitmap -> Bitmap -> Bitmap)
    (image : Ref) (src : Bitmap) (xs : list X) (h : Heap) :
  h !! image = Some src ->
  mapM (fun x =>
          s <- bitmapOf image ;;
          c <- clone image ;;
          n <- update (mk x s) c ;;
          b <- bitmapOf n ;;
          mret (dataUri encodePng b)) xs h
  = Done (map (fun x => dataUri encodePng (mk x src src)) xs,
          h ++ map (fun x => mk x src src) xs).
Proof.
  revert h. induction xs as [|x xs IH]; intros h Hsrc.
  - cbn. unfold mret. now rewrite app_nil_r.
  - cbn [mapM map].
    unfold clone in *. unfold mbind, bitmapOf, newImage, update, mret in *.
    rewrite Hsrc. cbv beta iota. rewrite ?Hsrc. cbv beta iota.
    rewrite alter_new.
    rewrite (list_lookup_middle h [] _ (length h)) by reflexivity.
    cbv beta iota.
    rewrite IH by (now apply lookup_app_l_Some).
    now rewrite <- app_assoc.
Qed.

Lemma separateColors_run (image : Ref) (src : Bitmap) (P : list Color)
    (h : Heap) :
  h !! image = Some src ->
  separateColors encodePng image P h
  = Done (map (fun color =>
                 dataUri encodePng
                   (scan 0 0 (width src) (height src) (separatePixel color) src))
              P,
          h ++ map (fun color =>
                      scan 0 0 (width src) (height src) (separatePixel color) src)
                   P).
Proof.
  intros Hsrc. unfold separateColors.
  exact (mapM_clones
           (fun color s => scan 0 0 (width s) (height s) (separatePixel color))
           image src P h Hsrc).
Qed.

Lemma separateGreyscaleColors_run (image : Ref) (src : Bitmap)
    (G : list string) (h : Heap) :
  h !! image = Some src ->
  separateGreyscaleColors encodePng image G h
  = Done (map (fun greyHex =>
                 dataUri encodePng
                   (scan 0 0 (width src) (height src)
                      (bandPixel (greyHexToNumber greyHex)) src))
              G,
          h ++ map (fun greyHex =>
                      scan 0 0 (width src) (height src)
                        (bandPixel (greyHexToNumber greyHex)) src)
                   G).
Proof.
  intros Hsrc. unfold separateGreyscaleColors.
  exact (mapM_clones
           (fun greyHex s =>
              scan 0 0 (width s) (height s) (bandPixel (greyHexToNumber greyHex)))
           image src G h Hsrc).
Qed.

Lemma alter_insert (f : Bitmap -> Bitmap) (h : Heap) (i : nat) (b : Bitmap) :
  h !! i = Some b -> alter f i h = <[i := f b]> h.
Proof.
  intros Hb. apply list_eq. intros j. destruct (Nat.eq_dec i j) as [<-|Hne].
  - rewrite list_lookup_alter_eq, Hb.
    rewrite list_lookup_insert_eq by (eapply lookup_lt_Some, Hb).
    reflexivity.
  - now rewrite list_lookup_alter_ne, list_lookup_insert_ne.
Qed.

Lemma processImage_run (image : Ref) (src : Bitmap) (P : list Color)
    (h : Heap) :
  h !! image = Some src ->
  processImage image P h
  = Done (image,
          <[image := scan 0 0 (width src) (height src) (processPixel P) src]> h).
Proof.
  intros Hsrc. unfold processImage, mbind, bitmapOf. rewrite Hsrc.
  unfold update. now rewrite (alter_insert _ h image src Hsrc).
Qed.

End HeapPasses.

(** ** Layer separation, luma bands and the alpha channel *)

Section Layers.

Variable encodePng : Bitmap -> string.

Lemma colorMask_spec (src : Bitmap) (color : Color) :
  wellFormed src ->
  width (colorMask src color) = width src
  /\ height (colorMask src color) = height src
  /\ length (data (colorMask src color)) = length (data src)
  /\ forall p, (p < width src * height src)%nat ->
       pixelAt (data (colorMask src color)) p
         = separatedColor color (pixelAt (data src) p)
       /\ alphaAt (data (colorMask src color)) p = alphaAt (data src) p.
Proof.
  intros Hwf.
  exact (scan_pixelLocal (separatePixel color) (separatePixel color 0 0)
           (separatedColor color) src (fun _ _ _ _ => eq_refl)
           (separatePixel_local color) Hwf).
Qed.

Lemma greyMask_spec (src : Bitmap) (greyHex : string) :
  wellFormed src ->
  width (greyMask src greyHex) = width src
  /\ height (greyMask src greyHex) = height src
  /\ length (data (greyMask src greyHex)) = length (data src)
  /\ forall p, (p < width src * height src)%nat ->
       pixelAt (data (greyMask src greyHex)) p
         = bandedColor (greyHexToNumber greyHex) (pixelAt (data src) p)
       /\ alphaAt (data (greyMask src greyHex)) p = alphaAt (data src) p.
Proof.
  intros Hwf.
  exact (scan_pixelLocal (bandPixel (greyHexToNumber greyHex))
           (bandPixel (greyHexToNumber greyHex) 0 0)
           (bandedColor (greyHexToNumber greyHex)) src
           (fun _ _ _ _ => eq_refl) (bandPixel_local _) Hwf).
Qed.

Lemma quantized_spec (src : Bitmap) (P : list Color) :
  wellFormed src ->
  let q := scan 0 0 (width src) (height src) (processPixel P) src in
  width q = width src /\ height q = height src
  /\ length (data q) = length (data src)
  /\ forall p, (p < width src * height src)%nat ->
       pixelAt (data q) p = processedColor P (pixelAt (data src) p)
       /\ alphaAt (data q) p = alphaAt (data src) p.
Proof.
  intros Hwf.
  exact (scan_pixelLocal (processPixel P) (processPixel P 0 0)
           (processedColor P) src (fun _ _ _ _ => eq_refl)
           (processPixel_local P) Hwf).
Qed.

Lemma stored_byte (t : Z) : 0 <= t <= 255 -> stored (Some t) = t.
Proof. intros H. unfold stored. cbn [default]. apply Z.mod_small. lia. Qed.

End Layers.

(** C8. For a bitmap [B] and a palette [P], [separateColors] makes exactly
    one layer per palette entry, in palette order: layer [i] is a new bitmap
    with the width and height of [B] in which a pixel whose three channels
    are exactly those of [P[i]] keeps its colour and every other pixel is
    white; what the function returns is the PNG encoding of each layer. *)
Theorem separateColors_layers (encodePng : Bitmap -> string) (h : Heap)
    (image : Ref) (B : Bitmap) (P : list Color) :
  h !! image = Some B -> wellFormed B ->
  exists masks : list Bitmap,
    separateColors encodePng image P h
      = Done (map (dataUri encodePng) masks, h ++ masks)
    /\ length masks = length P
    /\ forall i color, P !! i = Some color ->
         exists m, masks !! i = Some m
           /\ width m = width B /\ height m = height B
           /\ forall p, (p < width B * height B)%nat ->
                (sameColor color (pixelAt (data B) p) ->
                   pixelAt (data m) p = pixelAt (data B) p)
                /\ (~ sameColor color (pixelAt (data B) p) ->
                      pixelAt (data m) p = white).
Proof.
  intros Hsrc Hwf. exists (map (colorMask B) P). split; [|split].
  - rewrite (separateColors_run encodePng image B P h Hsrc).
    now rewrite map_map.
  - now rewrite length_map.
  - intros i color Hi. exists (colorMask B color).
    destruct (colorMask_spec B color Hwf) as (Hw & Hh & _ & Hpix).
    split; [|split; [exact Hw|split; [exact Hh|]]].
    + change (map (colorMask B) P) with (colorMask B <$> P).
      now rewrite list_lookup_fmap, Hi.
    + intros p Hp. destruct (Hpix p Hp) as [Hpx _]. rewrite Hpx.
      unfold separatedColor.
      destruct (decide (sameColor color (pixelAt (data B) p)));
        split; intros; [reflexivity|contradiction|contradiction|reflexivity].
Qed.

Lemma separateColors_layers_witness :
  let B := {| width := 2; height := 1;
              data := [255; 0; 0; 255; 0; 0; 255; 128] |} in
  let P := [[255; 0; 0]; [0; 0; 255]] in
  let enc := fun b : Bitmap => "png"%string in
  exists masks : list Bitmap,
    separateColors enc 0%nat P [B]
      = Done (map (dataUri enc) masks, [B] ++ masks)
    /\ length masks = length P
    /\ forall i color, P !! i = Some color ->
         exists m, masks !! i = Some m
           /\ width m = width B /\ height m = height B
           /\ forall p, (p < width B * height B)%nat ->
                (sameColor color (pixelAt (data B) p) ->
                   pixelAt (data m) p = pixelAt (data B) p)
                /\ (~ sameColor color (pixelAt (data B) p) ->
                      pixelAt (data m) p = white).
Proof.
  intros B P enc.
  exact (separateColors_layers enc [B] 0%nat B P eq_refl eq_refl).
Defined.

(** The two layers of a red and a blue pixel. *)
Example separateColors_two_pixels :
  separateColors (fun _ => "png"%string) 0%nat [[255; 0; 0]; [0; 0; 255]]
    [{| width := 2; height := 1; data := [255; 0; 0; 255; 0; 0; 255; 128] |}]
  = Done (["data:image/png;base64,png"; "data:image/png;base64,png"]%string,
          [{| width := 2; height := 1;
              data := [255; 0; 0; 255; 0; 0; 255; 128] |};
           {| width := 2; height := 1;
              data := [255; 0; 0; 255; 255; 255; 255; 128] |};
           {| width := 2; height := 1;
              data := [255; 255; 255; 255; 0; 0; 255; 128] |}]).
Proof. vm_compute. reflexivity. Qed.



(** Overlapping bands: a pixel of luma 101 is within 5 of both 100 and 103
    and is grey in both masks; the pixel of luma 124 and the white pixel
    are white in both. *)
Example separateGreyscaleColors_overlap :
  separateGreyscaleColors (fun _ => "png"%string) 0%nat
    ["#646464"; "#676767"]%string
    [{| width := 3; height := 1;
        data := [101; 101; 101; 255; 10; 200; 30; 7; 255; 255; 255; 0] |}]
  = Done (["data:image/png;base64,png"; "data:image/png;base64,png"]%string,
          [{| width := 3; height := 1;
              data := [101; 101; 101; 255; 10; 200; 30; 7; 255; 255; 255; 0] |};
           {| width := 3; height := 1;
              data := [100; 100; 100; 255; 255; 255; 255; 7; 255; 255; 255; 0] |};
           {| width := 3; height := 1;
              data := [103; 103; 103; 255; 255; 255; 255; 7; 255; 255; 255; 0] |}]).
Proof. vm_compute. reflexivity. Qed.

(** The grey hex of a byte reads back as that byte: the targets of the
    bands are the lumas [extractGreyscalePalette] collected. *)
Lemma greyHexToNumber_rgbToHex (t : Z) :
  0 <= t <= 255 -> greyHexToNumber (rgbToHex [t; t; t]) = Some t.
Proof.
  intros Ht.
  assert (Hall : forallb greyHexRoundTrips (map Z.of_nat (seq 0 256)) = true)
    by (vm_compute; reflexivity).
  rewrite forallb_forall in Hall.
  specialize (Hall (Z.of_nat (Z.to_nat t))).
  rewrite Z2Nat.id in Hall by lia.
  assert (Hin : In t (map Z.of_nat (seq 0 256))).
  { rewrite <- (Z2Nat.id t) by lia. apply in_map, in_seq. lia. }
  specialize (Hall Hin). unfold greyHexRoundTrips in Hall.
  destruct (greyHexToNumber (rgbToHex [t; t; t])) as [t'|]; [|discriminate].
  apply Z.eqb_eq in Hall. now subst.
Qed.

(** C10. Quantization, colour separation and luma banding leave the alpha
    byte of every pixel as it was: in the quantized image and in every
    mask, for any bitmap, pixel [p] has the alpha byte pixel [p] of the
    source has, and the buffer keeps its length. *)
Theorem passes_preserve_alpha (encodePng : Bitmap -> string) (h : Heap)
    (image : Ref) (B : Bitmap) :
  h !! image = Some B ->
  (forall P : list Color,
     exists Q : Bitmap,
       processImage image P h = Done (image, <[image := Q]> h)
       /\ length (data Q) = length (data B)
       /\ forall p, alphaAt (data Q) p = alphaAt (data B) p)
  /\ (forall P : list Color,
        exists masks : list Bitmap,
          separateColors encodePng image P h
            = Done (map (dataUri encodePng) masks, h ++ masks)
          /\ length masks = length P
          /\ Forall (fun m =>
                       length (data m) = length (data B)
                       /\ forall p, alphaAt (data m) p = alphaAt (data B) p)
                    masks)
  /\ (forall G : list string,
        exists masks : list Bitmap,
          separateGreyscaleColors encodePng image G h
            = Done (map (dataUri encodePng) masks, h ++ masks)
          /\ length masks = length G
          /\ Forall (fun m =>
                       length (data m) = length (data B)
                       /\ forall p, alphaAt (data m) p = alphaAt (data B) p)
                    masks).
Proof.
  intros Hsrc. split; [|split].
  - intros P.
    exists (scan 0 0 (width B) (height B) (processPixel P) B).
    destruct (scan_alpha (processPixel P) (processPixel P 0 0)
                (processedColor P) 0 0 (width B) (height B) B
                (fun _ _ _ _ => eq_refl) (processPixel_local P))
      as (_ & _ & Hlen & Halpha).
    split; [exact (processImage_run image B P h Hsrc)|].
    split; [exact Hlen|exact Halpha].
  - intros P. exists (map (colorMask B) P). split; [|split].
    + rewrite (separateColors_run encodePng image B P h Hsrc).
      now rewrite map_map.
    + now rewrite length_map.
    + apply Forall_fmap, Forall_forall. intros color _. cbn.
      destruct (scan_alpha (separatePixel color) (separatePixel color 0 0)
                  (separatedColor color) 0 0 (width B) (height B) B
                  (fun _ _ _ _ => eq_refl) (separatePixel_local color))
        as (_ & _ & Hlen & Halpha).
      split; [exact Hlen|exact Halpha].
  - intros G. exists (map (greyMask B) G). split; [|split].
    + rewrite (separateGreyscaleColors_run encodePng image B G h Hsrc).
      now rewrite map_map.
    + now rewrite length_map.
    + apply Forall_fmap, Forall_forall. intros greyHex _. cbn.
      destruct (scan_alpha (bandPixel (greyHexToNumber greyHex))
                  (bandPixel (greyHexToNumber greyHex) 0 0)
                  (bandedColor (greyHexToNumber greyHex))
                  0 0 (width B) (height B) B
                  (fun _ _ _ _ => eq_refl) (bandPixel_local _))
        as (_ & _ & Hlen & Halpha).
      split; [exact Hlen|exact Halpha].
Qed.

Lemma passes_preserve_alpha_witness :
  let B := {| width := 2; height := 1;
              data := [255; 0; 0; 17; 0; 0; 255; 128] |} in
  let enc := fun b : Bitmap => "png"%string in
  (forall P : list Color,
     exists Q : Bitmap,
       processImage 0%nat P [B] = Done (0%nat, <[0%nat := Q]> [B])
       /\ length (data Q) = length (data B)
       /\ forall p, alphaAt (data Q) p = alphaAt (data B) p)
  /\ (forall P : list Color,
        exists masks : list Bitmap,
          separateColors enc 0%nat P [B]
            = Done (map (dataUri enc) masks, [B] ++ masks)
          /\ length masks = length P
          /\ Forall (fun m =>
                       length (data m) = length (data B)
                       /\ forall p, alphaAt (data m) p = alphaAt (data B) p)
                    masks)
  /\ (forall G : list string,
        exists masks : list Bitmap,
          separateGreyscaleColors enc 0%nat G [B]
            = Done (map (dataUri enc) masks, [B] ++ masks)
          /\ length masks = length G
          /\ Forall (fun m =>
                       length (data m) = length (data B)
                       /\ forall p, alphaAt (data m) p = alphaAt (data B) p)
                    masks).
Proof.
  intros B enc.
  exact (passes_preserve_alpha enc [B] 0%nat B eq_refl).
Defined.

(** ** The trace batch: [Promise.all] *)

Section PromiseAll.

Context {A : Type}.




Lemma settleAll_settled (calls : list (JsResult A)) (order : list nat)
    (st : AllState A) :
  combined st <> Pending -> settleAll calls order st = st.
Proof.
  intros Hst. induction order as [|i order IH]; [reflexivity|].
  cbn. destruct (calls !! i) as [r|]; [|exact IH].
  unfold allSettle. destruct (combined st) eqn:E; [congruence| |];
    destruct st; cbn in *; subst; exact IH.
Qed.


(** Some call throws: the combined promise is rejected with the error of a
    failing call, whatever the order. *)
Lemma settleAll_rejects (calls : list (JsResult A)) (rest : list nat)
    (st : AllState A) :
  combined st = Pending -> (length rest <= remaining st)%nat ->
  (forall i, i ∈ rest -> (i < length calls)%nat) ->
  (exists i e, i ∈ rest /\ calls !! i = Some (Throws e)) ->
  exists j e, calls !! j = Some (Throws e)
              /\ combined (settleAll calls rest st) = Rejected e.
Proof.
  revert st. induction rest as [|i rest IH]; intros st Hp Hrem Hin Hfail.
  - destruct Hfail as (i & e & Hi & _). destruct (not_elem_of_nil _ Hi).
  - assert (Hi : (i < length calls)%nat) by (apply Hin; left).
    destruct (lookup_lt_is_Some_2 calls i Hi) as [r Hr].
    change (settleAll calls (i :: rest) st)
      with (settleAll calls rest
              (match calls !! i with
               | Some r => allSettle st i r
               | None => st
               end)).
    rewrite Hr. destruct r as [v|e].
    + apply IH.
      * unfold allSettle. rewrite Hp. cbn.
        destruct Hfail as (j & e & Hj & Hje).
        apply elem_of_cons in Hj as [->|Hj]; [congruence|].
        cbn [length] in Hrem. destruct rest as [|k rest'];
          [now apply elem_of_nil in Hj|].
        cbn [length] in Hrem.
        destruct (remaining st) as [|[|n]]; [lia|lia|reflexivity].
      * unfold allSettle. rewrite Hp. cbn. cbn [length] in Hrem. lia.
      * intros j Hj. apply Hin. now right.
      * destruct Hfail as (j & e & Hj & Hje).
        apply elem_of_cons in Hj as [->|Hj]; [congruence|]. now exists j, e.
    + exists i, e. split; [exact Hr|].
      rewrite settleAll_settled.
      * unfold allSettle. now rewrite Hp.
      * unfold allSettle. rewrite Hp. discriminate.
Qed.


Lemma promiseAll_rejected (calls : list (JsResult A)) (order : list nat) :
  order ≡ₚ seq 0 (length calls) ->
  (exists i e, calls !! i = Some (Throws e)) ->
  exists j e, calls !! j = Some (Throws e)
              /\ promiseAll calls order = Rejected e.
Proof.
  intros Hperm (i & e & Hie). unfold promiseAll.
  assert (Hlen : length order = length calls).
  { rewrite Hperm. apply length_seq. }
  assert (Hin : forall k, k ∈ order <-> (k < length calls)%nat).
  { intros k. rewrite Hperm, list_elem_of_In, in_seq. lia. }
  assert (Hi : (i < length calls)%nat) by (eapply lookup_lt_Some, Hie).
  apply (settleAll_rejects calls order (allInit (length calls))).
  - cbn. destruct (length calls); [lia|reflexivity].
  - cbn. lia.
  - intros k. apply Hin.
  - exists i, e. split; [now apply Hin|exact Hie].
Qed.

End PromiseAll.

Section TraceBatch.

Variable trace : option string -> option string -> JsResult string.



Lemma traceImagesToSvgs_rejected (images palette : list string)
    (order : list nat) :
  order ≡ₚ seq 0 (length images) ->
  (exists i img e, images !! i = Some img
                   /\ traceCall trace palette i img = Throws e) ->
  exists e, traceImagesToSvgs trace images palette order = Rejected e.
Proof.
  intros Hperm (i & img & e & Hi & He). unfold traceImagesToSvgs.
  destruct (promiseAll_rejected (imap (traceCall trace palette) images) order)
    as (j & e' & _ & Hrej).
  - now rewrite length_imap.
  - exists i, e. now rewrite list_lookup_imap, Hi, <- He.
  - now exists e'.
Qed.


End TraceBatch.



(** The callbacks fire in reverse order and the fragments still come out
    in palette order; one failing call rejects the batch. *)
Example traceImagesToSvgs_reverse_order :
  let trace := fun (png color : option string) =>
                 match png, color with
                 | Some p, Some c => Returns (p ++ "@" ++ c)%string
                 | _, _ => Throws "potrace: bad image"
                 end in
  traceImagesToSvgs trace
    ["data:image/png;base64,AAA"; "data:image/png;base64,BBB";
     "data:image/png;base64,CCC"]%string
    ["#ff0000"; "#00ff00"; "#0000ff"]%string [2; 1; 0]%nat
  = Fulfilled ["AAA@#ff0000"; "BBB@#00ff00"; "CCC@#0000ff"]%string
  /\ traceImagesToSvgs trace
       ["data:image/png;base64,AAA"; "no payload";
        "data:image/png;base64,CCC"]%string
       ["#ff0000"; "#00ff00"; "#0000ff"]%string [2; 1; 0]%nat
     = Rejected "TypeError: the first argument must be a string".
Proof. split; vm_compute; reflexivity. Qed.

(** ** The fragment merger *)

Section Merger.
Import JsNum JsNumFacts.








Lemma initialBounds_proper : properBounds initialBounds.
Proof. repeat split. Qed.

End Merger.

(** C1 (as stated, refuted). Merging no fragments does not give the frame
    [{0, 0, 0, 0}]: the four numbers of the declared frame are [Infinity],
    [Infinity], [-Infinity], [-Infinity]. *)
Lemma mergeSvgs_empty_frame_not_zero :
  declaredFrame [] = (infinity, infinity, neg_infinity, neg_infinity)
  /\ declaredFrame [] <> (zero, zero, zero, zero)
  /\ mergeSvgs [] <> (svgHeader "0 0 0 0" "0" "0" ++ newline ++ newline
                      ++ "</svg>")%string.
Proof.
  split; [vm_compute; reflexivity|]. split.
  - intros H.
    apply (f_equal (fun t : float * float * float * float =>
                      is_infinity (fst (fst (fst t))))) in H.
    vm_compute in H. discriminate.
  - vm_compute. discriminate.
Qed.

(** C1 (amended). Merging no fragments gives a document with empty
    content whose bounds are the initial ones: [minX] and [minY] are
    [Infinity], width and height are [-Infinity], and that is what the
    header declares. *)
Theorem mergeSvgs_empty :
  mergedSvgContent [] = EmptyString
  /\ declaredFrame [] = (infinity, infinity, neg_infinity, neg_infinity)
  /\ mergeSvgs []
     = (svgHeader "Infinity Infinity -Infinity -Infinity" "-Infinity"
          "-Infinity" ++ newline ++ newline ++ "</svg>")%string.
Proof. repeat split; vm_compute; reflexivity. Qed.



(** Where the hypothesis of C6 matters: a [viewBox] with three numbers
    leaves the height undefined, and the merged bounds are [NaN]. *)
Example mergeSvgs_short_viewBox :
  let svg := tracedSvg "10" "10" "0 0 10" "#ff0000" in
  is_nan (contentHeight (frameOf svg)) = true
  /\ is_nan (maxY (mergedBounds [svg])) = true.
Proof. split; vm_compute; reflexivity. Qed.

(** ** The pipeline up to the separated images *)

Section Separate.

Variable encodePng : Bitmap -> string.
Variable decodePng : option string -> Bitmap.
Variable greyscale : Bitmap -> Bitmap.
Variable quantize : list Color -> Z -> list Color.

Local Abbreviation greyRead :=
  (greyscaleRead encodePng decodePng greyscale).

Lemma mbind_Done {A B : Type} (c : M A) (k : A -> M B) (h h' : Heap) (a : A) :
  c h = Done (a, h') -> mbind c k h = k a h'.
Proof. intros H. unfold mbind. now rewrite H. Qed.

Lemma bitmapOf_run (image : Ref) (b : Bitmap) (h : Heap) :
  h !! image = Some b -> bitmapOf image h = Done (b, h).
Proof. intros H. unfold bitmapOf. now rewrite H. Qed.

Lemma createPallet_run (source : Bitmap) (k : Z) (h : Heap) :
  createPallet quantize source k h
  = Done (quantize (collectPixels source) k, h ++ [source]).
Proof.
  unfold createPallet, mbind, newImage, bitmapOf.
  now rewrite list_lookup_middle.
Qed.

Lemma extractAllGreyscale_run (image : Ref) (b : Bitmap) (h : Heap) :
  h !! image = Some b ->
  extractAllGreyscale greyscale image h
  = Done (extractAllColors (greyscale b), h ++ [greyscale b]).
Proof.
  intros H. unfold extractAllGreyscale.
  unfold clone, mbind, bitmapOf, newImage, update, mret. rewrite H.
  rewrite alter_new. now rewrite list_lookup_middle.
Qed.

Lemma createGreyscaleImage_run (image : Ref) (b : Bitmap) (h : Heap) :
  h !! image = Some b ->
  createGreyscaleImage encodePng greyscale image h
  = Done (dataUri encodePng (greyscale b), h ++ [greyscale b]).
Proof.
  intros H. unfold createGreyscaleImage.
  unfold clone, mbind, bitmapOf, newImage, update, mret. rewrite H.
  rewrite alter_new. now rewrite list_lookup_middle.
Qed.

(** [vectori] of [vectori.js]: the image every later step reads is the
    quantized one. *)
Lemma vectoriSeparate_run (source : Bitmap) :
  let palette := quantize (collectPixels source) 6 in
  let Q := scan 0 0 (width source) (height source) (processPixel palette)
             source in
  vectoriSeparate encodePng decodePng greyscale quantize source []
  = Done (separatedFrom encodePng decodePng greyscale source Q palette,
          [Q; source; greyscale source; greyscale Q; greyRead Q]
          ++ map (colorMask Q) palette
          ++ map (greyMask Q) (extractGreyscalePalette (greyRead Q))).
Proof.
  intros palette Q. unfold vectoriSeparate.
  rewrite (mbind_Done _ _ [] [source] 0%nat) by reflexivity.
  rewrite (mbind_Done _ _ _ _ _ (createPallet_run source 6 [source])).
  fold palette. cbn [app].
  rewrite (mbind_Done _ _ _ _ _
             (bitmapOf_run 0 source [source; source] eq_refl)).
  rewrite (mbind_Done _ _ _ _ _
             (extractAllGreyscale_run 0 source [source; source] eq_refl)).
  cbn [app].
  rewrite (mbind_Done _ _ _ _ _
             (processImage_run 0 source palette
                [source; source; greyscale source] eq_refl)).
  cbn [insert list_insert]. fold Q.
  rewrite (mbind_Done _ _ _ _ _
             (bitmapOf_run 0 Q [Q; source; greyscale source] eq_refl)).
  rewrite (mbind_Done _ _ _ _ _
             (createGreyscaleImage_run 0 Q
                [Q; source; greyscale source] eq_refl)).
  cbn [app].
  rewrite (mbind_Done _ _
             [Q; source; greyscale source; greyscale Q]
             [Q; source; greyscale source; greyscale Q; greyRead Q]
             4%nat) by reflexivity.
  set (h5 := [Q; source; greyscale source; greyscale Q; greyRead Q]).
  rewrite (mbind_Done _ _ _ _ _
             (bitmapOf_run 4 (greyRead Q) h5 eq_refl)).
  rewrite (mbind_Done _ _ _ _ _
             (separateColors_run encodePng 0 Q palette h5 eq_refl)).
  rewrite (mbind_Done _ _ _ _ _
             (separateGreyscaleColors_run encodePng 0 Q
                (extractGreyscalePalette (greyRead Q))
                (h5 ++ map (fun color =>
                              scan 0 0 (width Q) (height Q)
                                (separatePixel color) Q) palette)
                eq_refl)).
  unfold mret, separatedFrom. cbn [app]. rewrite <- !app_assoc.
  reflexivity.
Qed.

(** The copy under [src/lib]: [processImage] works on a clone, and every
    later step reads the source. *)
Lemma libVectoriSeparate_run (source : Bitmap) :
  let palette := quantize (collectPixels source) 6 in
  let Q := scan 0 0 (width source) (height source) (processPixel palette)
             source in
  libVectoriSeparate encodePng decodePng greyscale quantize source []
  = Done ({| sepImage := 0%nat;
             sepColorPaletteValues := palette;
             sepColorImage := dataUri encodePng Q;
             sepGreyscaleImage := dataUri encodePng (greyscale source);
             sepGreyscalePalette :=
               extractGreyscalePalette (greyRead source);
             sepAllColorsPalette := extractAllColors source;
             sepGreyscaleAllColorsPalette :=
               extractGreyscalePalette (greyRead source);
             sepColorImages :=
               map (fun c => dataUri encodePng (colorMask source c)) palette;
             sepGreyscaleImages :=
               map (fun g => dataUri encodePng (greyMask source g))
                 (extractGreyscalePalette (greyRead source)) |},
          [source; source; Q; greyscale source; greyRead source]
          ++ map (colorMask source) palette
          ++ map (greyMask source)
               (extractGreyscalePalette (greyRead source))).
Proof.
  intros palette Q. unfold libVectoriSeparate.
  rewrite (mbind_Done _ _ [] [source] 0%nat) by reflexivity.
  rewrite (mbind_Done _ _ _ _ _ (createPallet_run source 6 [source])).
  fold palette. cbn [app].
  rewrite (mbind_Done _ _ _ _ _
             (bitmapOf_run 0 source [source; source] eq_refl)).
  rewrite (mbind_Done _ _ [source; source] [source; source; source] 2%nat)
    by reflexivity.
  rewrite (mbind_Done _ _ _ _ _
             (processImage_run 2 source palette
                [source; source; source] eq_refl)).
  cbn [insert list_insert]. fold Q.
  rewrite (mbind_Done _ _ _ _ _
             (bitmapOf_run 2 Q [source; source; Q] eq_refl)).
  rewrite (mbind_Done _ _ _ _ _
             (createGreyscaleImage_run 0 source [source; source; Q] eq_refl)).
  cbn [app].
  rewrite (mbind_Done _ _
             [source; source; Q; greyscale source]
             [source; source; Q; greyscale source; greyRead source]
             4%nat) by reflexivity.
  set (h5 := [source; source; Q; greyscale source; greyRead source]).
  rewrite (mbind_Done _ _ _ _ _
             (bitmapOf_run 4 (greyRead source) h5 eq_refl)).
  rewrite (mbind_Done _ _ _ _ _
             (separateColors_run encodePng 0 source palette h5 eq_refl)).
  rewrite (mbind_Done _ _ _ _ _
             (separateGreyscaleColors_run encodePng 0 source
                (extractGreyscalePalette (greyRead source))
                (h5 ++ map (fun color =>
                              scan 0 0 (width source) (height source)
                                (separatePixel color) source) palette)
                eq_refl)).
  unfold mret. cbn [app]. rewrite <- !app_assoc. reflexivity.
Qed.

End Separate.

(** After steps 1 to 6 of [vectori] the object [image] holds the quantized
    bitmap; in the copy under [src/lib] it still holds the source. *)
Lemma vectoriSeparate_image (encodePng : Bitmap -> string)
    (decodePng : option string -> Bitmap) (greyscale : Bitmap -> Bitmap)
    (quantize : list Color -> Z -> list Color) (source : Bitmap) :
  let palette := quantize (collectPixels source) 6 in
  let Q := scan 0 0 (width source) (height source) (processPixel palette)
             source in
  (exists s h,
     vectoriSeparate encodePng decodePng greyscale quantize source []
       = Done (s, h)
     /\ h !! sepImage s = Some Q
     /\ sepGreyscaleImage s = dataUri encodePng (greyscale Q)
     /\ sepColorImages s
        = map (fun c => dataUri encodePng (colorMask Q c)) palette)
  /\ (exists s h,
        libVectoriSeparate encodePng decodePng greyscale quantize source []
          = Done (s, h)
        /\ h !! sepImage s = Some source
        /\ sepGreyscaleImage s = dataUri encodePng (greyscale source)
        /\ sepColorImages s
           = map (fun c => dataUri encodePng (colorMask source c)) palette).
Proof.
  intros palette Q. split.
  - eexists _, _. split;
      [exact (vectoriSeparate_run encodePng decodePng greyscale quantize source)|].
    repeat split.
  - eexists _, _. split;
      [exact (libVectoriSeparate_run encodePng decodePng greyscale quantize
                source)|].
    repeat split.
Qed.

(** Quantization changes the bitmap as soon as one pixel is not already
    the palette colour nearest to it. *)
Lemma quantized_differs (source : Bitmap) (palette : list Color) (p : nat) :
  wellFormed source -> (p < width source * height source)%nat ->
  processedColor palette (pixelAt (data source) p) <> pixelAt (data source) p ->
  scan 0 0 (width source) (height source) (processPixel palette) source
  <> source.
Proof.
  intros Hwf Hp Hne Heq.
  destruct (quantized_spec source palette Hwf) as (_ & _ & _ & Hpix).
  destruct (Hpix p Hp) as [Hpx _]. rewrite Heq in Hpx. congruence.
Qed.


(** ** The outline transformer *)

Section Outline.
Local Open Scope string_scope.
#[local] Arguments String.append !s1 s2 : simpl nomatch.

Lemma append_assoc (a b c : string) : (a ++ b) ++ c = a ++ (b ++ c).
Proof. induction a as [|x a IH]; simpl; [reflexivity|now f_equal]. Qed.

Lemma length_append (a b : string) :
  String.length (a ++ b) = (String.length a + String.length b)%nat.
Proof. induction a as [|x a IH]; simpl; [reflexivity|now f_equal]. Qed.

Lemma countQuotes_append (a b : string) :
  countQuotes (a ++ b) = (countQuotes a + countQuotes b)%nat.
Proof.
  induction a as [|x a IH]; simpl; [reflexivity|].
  destruct (Ascii.eqb x Str.dq); simpl; now rewrite IH.
Qed.

Lemma stripPrefix_Some (p s r : string) :
  Str.stripPrefix p s = Some r -> s = p ++ r.
Proof.
  revert s. induction p as [|a p IH]; intros s H.
  - cbn in H. now injection H as ->.
  - destruct s as [|b s]; cbn in H; [discriminate|].
    destruct (Ascii.eqb_spec a b) as [->|]; [|discriminate].
    cbn. f_equal. now apply IH.
Qed.

Lemma span_append (f : ascii -> bool) (s a b : string) :
  Str.span f s = (a, b) -> s = a ++ b.
Proof.
  revert a b. induction s as [|c s IH]; intros a b H; cbn in H.
  - now injection H as <- <-.
  - destruct (f c).
    + destruct (Str.span f s) as [a' b']. injection H as <- <-.
      cbn. f_equal. now apply IH.
    + now injection H as <- <-.
Qed.

Lemma span_no_quote (s a b : string) :
  Str.span (fun c => negb (Ascii.eqb c Str.dq)) s = (a, b) ->
  countQuotes a = 0%nat.
Proof.
  revert a b. induction s as [|c s IH]; intros a b H; cbn in H.
  - now injection H as <- <-.
  - destruct (Ascii.eqb c Str.dq) eqn:E; cbn in H.
    + now injection H as <- <-.
    + destruct (Str.span _ s) as [a' b']. injection H as <- <-.
      cbn. rewrite E. now apply (IH a' b').
Qed.

Lemma countQuotes_opening (name : string) :
  (1 <= countQuotes (opening name))%nat.
Proof.
  unfold opening. rewrite !countQuotes_append. cbn. lia.
Qed.

(** A match at the head of [s]: [s] is the matched text [m] followed by
    [rest], and holds at least two double quotes. *)
Lemma attrAnyLengthAt_Some (name s : string) (len : nat) :
  attrAnyLengthAt name s = Some len ->
  exists m rest, s = m ++ rest /\ String.length m = len
                 /\ (1 <= len)%nat /\ (2 <= countQuotes s)%nat.
Proof.
  unfold attrAnyLengthAt. fold (opening name).
  destruct (Str.stripPrefix (opening name) s) as [r|] eqn:Hp; [|discriminate].
  destruct (Str.span _ r) as [v [|q rest]] eqn:Hs; [discriminate|].
  intros H. injection H as <-.
  apply stripPrefix_Some in Hp. pose proof (span_append _ _ _ _ Hs) as Hr.
  exists (opening name ++ v ++ String q ""), rest.
  assert (Hq : q = Str.dq).
  { clear - Hs. revert v Hs. induction r as [|c r IH]; intros v Hs; cbn in Hs.
    - discriminate.
    - destruct (Ascii.eqb_spec c Str.dq) as [->|Hne]; cbn in Hs.
      + now injection Hs as _ <-.
      + destruct (Str.span _ r) as [a' b'] eqn:E. injection Hs as _ ->.
        now apply (IH a'). }
  subst q. repeat split.
  - rewrite Hp, Hr, !append_assoc. reflexivity.
  - rewrite !length_append. unfold opening. rewrite !length_append. cbn. lia.
  - lia.
  - rewrite Hp, Hr, !countQuotes_append.
    pose proof (countQuotes_opening name). cbn. lia.
Qed.

(** No match at the head of a string that starts with the opening: the
    opening's double quote is the only one. *)
Lemma attrAnyLengthAt_None_opening (name s : string) :
  countQuotes (opening name) = 1%nat ->
  attrAnyLengthAt name s = None -> startsWith (opening name) s = true ->
  countQuotes s = 1%nat.
Proof.
  unfold attrAnyLengthAt, startsWith. fold (opening name). intros Hq.
  destruct (Str.stripPrefix (opening name) s) as [r|] eqn:Hp; [|discriminate].
  destruct (Str.span _ r) as [v [|q rest]] eqn:Hs; [|discriminate].
  intros _ _. apply stripPrefix_Some in Hp.
  pose proof (span_append _ _ _ _ Hs) as Hr.
  pose proof (span_no_quote _ _ _ Hs) as Hv.
  rewrite Hp, Hr, !countQuotes_append, Hq, Hv. reflexivity.
Qed.

Lemma attrAnyLengthAt_startsWith (name s : string) (len : nat) :
  attrAnyLengthAt name s = Some len -> startsWith (opening name) s = true.
Proof.
  unfold attrAnyLengthAt, startsWith. fold (opening name).
  now destruct (Str.stripPrefix (opening name) s).
Qed.

Lemma replaceAttrFrom_skip (name r a t : string) :
  replaceAttrFrom name r (String.length a) (a ++ t)
  = replaceAttrFrom name r 0 t.
Proof.
  induction a as [|c a IH]; [reflexivity|]. cbn. exact IH.
Qed.

(** The two ways [replaceAttr] goes on from the head of a string. *)
Lemma replaceAttr_match (name r s : string) (len : nat) :
  attrAnyLengthAt name s = Some len ->
  exists m rest,
    s = m ++ rest /\ (String.length rest < String.length s)%nat
    /\ replaceAttr name r s = r ++ replaceAttr name r rest.
Proof.
  intros H. destruct (attrAnyLengthAt_Some name s len H)
    as (m & rest & Hs & Hm & Hlen & _).
  exists m, rest. split; [exact Hs|]. split.
  - rewrite Hs, length_append. lia.
  - unfold replaceAttr. destruct s as [|c s']; [destruct m; cbn in *; try lia;
      discriminate|].
    cbn [replaceAttrFrom]. rewrite H. f_equal.
    destruct m as [|c' m']; [cbn in Hm; lia|].
    cbn in Hs. injection Hs as -> ->. cbn in Hm. subst len.
    replace (S (String.length m') - 1)%nat with (String.length m') by lia.
    apply replaceAttrFrom_skip.
Qed.

Lemma replaceAttr_no_match (name r : string) (c : ascii) (s : string) :
  attrAnyLengthAt name (String c s) = None ->
  replaceAttr name r (String c s) = String c (replaceAttr name r s).
Proof. intros H. unfold replaceAttr. cbn [replaceAttrFrom]. now rewrite H. Qed.

(** A string with at most one double quote has nothing to replace. *)
Lemma replaceAttr_few_quotes (name r s : string) :
  (countQuotes s <= 1)%nat -> replaceAttr name r s = s.
Proof.
  induction s as [|c s IH]; intros Hq; [reflexivity|].
  destruct (attrAnyLengthAt name (String c s)) as [len|] eqn:E.
  - destruct (attrAnyLengthAt_Some _ _ _ E) as (_ & _ & _ & _ & _ & H2). lia.
  - rewrite replaceAttr_no_match by exact E. f_equal. apply IH.
    cbn in Hq. destruct (Ascii.eqb c Str.dq); lia.
Qed.

Lemma startsWith_cons (a c : ascii) (p s : string) :
  startsWith (String a p) (String c s) = Ascii.eqb a c && startsWith p s.
Proof.
  unfold startsWith. cbn [Str.stripPrefix]. now destruct (Ascii.eqb a c).
Qed.

(** The fill replacement starts with an [f], and is itself one match. *)
Lemma fillNone_head : exists t, fillNone = String "f" t.
Proof. eexists. reflexivity. Qed.

Lemma replaceFill_fillNone (t : string) :
  replaceAttr "fill" fillNone (fillNone ++ t)
  = fillNone ++ replaceAttr "fill" fillNone t.
Proof. reflexivity. Qed.

Lemma firstMatch_suffix {A : Type} (f : string -> option A) (a u : string) :
  firstMatch f (a ++ u) = None -> firstMatch f u = None.
Proof.
  induction a as [|c a IH]; intros Hu; [exact Hu|].
  apply IH. cbn [firstMatch String.append] in Hu.
  now destruct (f (String c (a ++ u))).
Qed.

Lemma firstMatch_cons {A : Type} (f : string -> option A) (c : ascii)
    (s : string) :
  firstMatch f (String c s) = None
  <-> f (String c s) = None /\ firstMatch f s = None.
Proof.
  cbn [firstMatch]. destruct (f (String c s)); split;
    [discriminate|intros [? _]; discriminate|auto|intros [_ ?]; assumption].
Qed.

(** The fill rewrite does not bring about a prefix that has no [f]. *)
Lemma startsWith_replaceFill (p s : string) :
  lacks "f" p = true ->
  startsWith p (replaceAttr "fill" fillNone s) = true ->
  startsWith p s = true.
Proof.
  revert s. induction p as [|a p IH]; intros s Hp H; [reflexivity|].
  cbn [lacks] in Hp. apply andb_prop in Hp as [Ha Hp].
  destruct s as [|c s]; [exact H|].
  destruct (attrAnyLengthAt "fill" (String c s)) as [len|] eqn:E.
  - destruct (replaceAttr_match "fill" fillNone _ _ E)
      as (m & rest & _ & _ & HR).
    rewrite HR in H. destruct fillNone_head as [t Ht]. rewrite Ht in H.
    cbn [String.append] in H. rewrite startsWith_cons in H.
    apply andb_prop in H as [H _]. now rewrite H in Ha.
  - rewrite replaceAttr_no_match in H by exact E.
    rewrite startsWith_cons in *. apply andb_prop in H as [H1 H2].
    rewrite H1. cbn. now apply IH.
Qed.

(** After the fill rewrite no new attribute opening stands at a position
    that was copied, when the opening has no [f] after its first
    character: this is so for [fill] and for [stroke]. *)
Lemma no_new_opening (a c : ascii) (t s : string) :
  lacks "f" t = true ->
  startsWith (String a t) (String c s) = false ->
  startsWith (String a t) (String c (replaceAttr "fill" fillNone s)) = false.
Proof.
  intros Ht Hs.
  destruct (startsWith (String a t)
              (String c (replaceAttr "fill" fillNone s))) eqn:E;
    [|reflexivity].
  rewrite startsWith_cons in *. apply andb_prop in E as [E1 E2].
  rewrite E1 in Hs. cbn in Hs.
  now rewrite (startsWith_replaceFill t s Ht E2) in Hs.
Qed.

(** No match at the head of a string with two double quotes or more: the
    string does not start with the opening. *)
Lemma no_match_no_opening (name s : string) :
  countQuotes (opening name) = 1%nat -> (2 <= countQuotes s)%nat ->
  attrAnyLengthAt name s = None -> startsWith (opening name) s = false.
Proof.
  intros Hq H2 E. destruct (startsWith (opening name) s) eqn:Es;
    [|reflexivity].
  pose proof (attrAnyLengthAt_None_opening name s Hq E Es). lia.
Qed.

Lemma no_opening_no_match (name s : string) :
  startsWith (opening name) s = false -> attrAnyLengthAt name s = None.
Proof.
  intros Hs. destruct (attrAnyLengthAt name s) as [len|] eqn:E;
    [|reflexivity].
  now rewrite (attrAnyLengthAt_startsWith _ _ _ E) in Hs.
Qed.

(** The fill rewrite is idempotent. *)
Lemma replaceFill_idempotent_upto (n : nat) (s : string) :
  (String.length s <= n)%nat ->
  replaceAttr "fill" fillNone (replaceAttr "fill" fillNone s)
  = replaceAttr "fill" fillNone s.
Proof.
  revert s. induction n as [|n IH]; intros s Hn.
  - destruct s; [reflexivity|cbn in Hn; lia].
  - destruct s as [|c s]; [reflexivity|].
    destruct (le_gt_dec (countQuotes (String c s)) 1) as [Hq|Hq].
    + rewrite (replaceAttr_few_quotes "fill" fillNone _ Hq).
      exact (replaceAttr_few_quotes "fill" fillNone _ Hq).
    + destruct (attrAnyLengthAt "fill" (String c s)) as [len|] eqn:E.
      * destruct (replaceAttr_match "fill" fillNone _ _ E)
          as (m & rest & _ & Hlen & HR).
        rewrite HR, replaceFill_fillNone. f_equal. apply IH. cbn in *. lia.
      * rewrite (replaceAttr_no_match _ _ _ _ E).
        rewrite replaceAttr_no_match.
        -- f_equal. apply IH. cbn in Hn. lia.
        -- apply (no_opening_no_match "fill").
           apply (no_new_opening "f" c (opening "ill") s eq_refl).
           now apply (no_match_no_opening "fill").
Qed.

Lemma replaceFill_idempotent (s : string) :
  replaceAttr "fill" fillNone (replaceAttr "fill" fillNone s)
  = replaceAttr "fill" fillNone s.
Proof. exact (replaceFill_idempotent_upto (String.length s) s (le_n _)). Qed.

(** The fill rewrite brings about no stroke declaration. *)
Lemma replaceFill_no_stroke_upto (n : nat) (s : string) :
  (String.length s <= n)%nat ->
  firstMatch (attrAnyLengthAt "stroke") s = None ->
  firstMatch (attrAnyLengthAt "stroke") (replaceAttr "fill" fillNone s) = None.
Proof.
  revert s. induction n as [|n IH]; intros s Hn H.
  - destruct s; [exact H|cbn in Hn; lia].
  - destruct s as [|c s]; [exact H|].
    destruct (le_gt_dec (countQuotes (String c s)) 1) as [Hq|Hq].
    + now rewrite (replaceAttr_few_quotes "fill" fillNone _ Hq).
    + destruct (attrAnyLengthAt "fill" (String c s)) as [len|] eqn:E.
      * destruct (replaceAttr_match "fill" fillNone _ _ E)
          as (m & rest & Hs & Hlen & HR).
        rewrite HR. rewrite Hs in H. apply firstMatch_suffix in H.
        assert (Hrest : firstMatch (attrAnyLengthAt "stroke")
                          (replaceAttr "fill" fillNone rest) = None).
        { apply IH; [cbn in *; lia|exact H]. }
        exact Hrest.
      * rewrite (replaceAttr_no_match _ _ _ _ E).
        apply firstMatch_cons in H as [Hhead Htail].
        apply firstMatch_cons. split.
        -- apply (no_opening_no_match "stroke").
           apply (no_new_opening "s" c (opening "troke") s eq_refl).
           now apply (no_match_no_opening "stroke").
        -- apply IH; [cbn in Hn; lia|exact Htail].
Qed.

(** With no declaration of the attribute, the rewrite changes nothing. *)
Lemma replaceAttr_undeclared (name r s : string) :
  firstMatch (attrAnyLengthAt name) s = None -> replaceAttr name r s = s.
Proof.
  induction s as [|c s IH]; intros H; [reflexivity|].
  apply firstMatch_cons in H as [Hhead Htail].
  rewrite replaceAttr_no_match by exact Hhead. f_equal. now apply IH.
Qed.

End Outline.

(** C2 (as stated, refuted). On a traced path the second application of
    the outline rewrite differs from the first: the stroke declaration the
    first one wrote is matched again and gains a second [stroke-width]. *)
Lemma outlineSvg_not_idempotent :
  outlineSvg tracedPath
  = ("<path " ++ Str.attr "d" "M0 0L1 1Z" ++ " " ++ strokeBlack ++ " "
     ++ fillNone ++ " " ++ Str.attr "fill-rule" "evenodd" ++ "/>")%string
  /\ outlineSvg (outlineSvg tracedPath)
     = ("<path " ++ Str.attr "d" "M0 0L1 1Z" ++ " " ++ strokeBlack ++ " "
        ++ Str.attr "stroke-width" "1" ++ " " ++ fillNone ++ " "
        ++ Str.attr "fill-rule" "evenodd" ++ "/>")%string
  /\ outlineSvg (outlineSvg tracedPath) <> outlineSvg tracedPath.
Proof.
  split; [vm_compute; reflexivity|]. split; [vm_compute; reflexivity|].
  vm_compute. discriminate.
Qed.

(** C2 (amended). On a fragment that declares no stroke the outline
    rewrite is idempotent: it only rewrites the fill declarations, and
    those it leaves alone the second time. *)
Theorem outlineSvg_idempotent_without_stroke (svg : string) :
  ~ declares "stroke" svg ->
  outlineSvg (outlineSvg svg) = outlineSvg svg
  /\ outlineSvg svg = replaceAttr "fill" fillNone svg.
Proof.
  intros Hno.
  assert (H : firstMatch (attrAnyLengthAt "stroke") svg = None).
  { unfold declares in Hno.
    destruct (firstMatch (attrAnyLengthAt "stroke") svg); [|reflexivity].
    exfalso. apply Hno. discriminate. }
  assert (Hout : outlineSvg svg = replaceAttr "fill" fillNone svg).
  { unfold outlineSvg. apply replaceAttr_undeclared.
    exact (replaceFill_no_stroke_upto _ svg (le_n _) H). }
  split; [|exact Hout].
  rewrite Hout. unfold outlineSvg. rewrite replaceFill_idempotent.
  apply replaceAttr_undeclared.
  exact (replaceFill_no_stroke_upto _ svg (le_n _) H).
Qed.

Lemma outlineSvg_idempotent_without_stroke_witness :
  outlineSvg (outlineSvg strokelessPath) = outlineSvg strokelessPath
  /\ outlineSvg strokelessPath = replaceAttr "fill" fillNone strokelessPath.
Proof.
  apply outlineSvg_idempotent_without_stroke.
  unfold declares. vm_compute. intros H. apply H. reflexivity.
Defined.

(** The outline of the path without a stroke. *)
Example outlineSvg_strokeless :
  outlineSvg strokelessPath
  = ("<path " ++ Str.attr "d" "M0 0L1 1Z" ++ " " ++ fillNone ++ " "
     ++ Str.attr "fill-rule" "evenodd" ++ "/>")%string.
Proof. vm_compute. reflexivity. Qed.

(** The outline of a traced fragment keeps its frame and its path data:
    only the two paint attributes change. *)
Example outlineSvg_keeps_frame :
  let svg := tracedSvg "10" "20" "0 0 10 20" "#ff0000" in
  frameOf (outlineSvg svg) = frameOf svg
  /\ outlineSvg svg
     = ("<svg " ++ Str.attr "xmlns" "http://www.w3.org/2000/svg"
        ++ " " ++ Str.attr "width" "10" ++ " " ++ Str.attr "height" "20"
        ++ " " ++ Str.attr "viewBox" "0 0 10 20" ++ " "
        ++ Str.attr "version" "1.1" ++ ">" ++ "<path "
        ++ Str.attr "d" "M0 0L1 1Z" ++ " " ++ strokeBlack ++ " " ++ fillNone
        ++ " " ++ Str.attr "fill-rule" "evenodd" ++ "/>" ++ "</svg>")%string.
Proof. split; vm_compute; reflexivity. Qed.

(** * Part III: further properties of the pipeline *)

(** ** Colours as text *)

Section HexText.

(** Every byte is written as two hexadecimal digits that read back as the
    byte: checked on each of the 256 values. *)
Lemma hexPair_byte (x : Z) :
  byte x ->
  exists c1 c2, hexPair x = String c1 (String c2 EmptyString)
                /\ Str.parseInt16 (String c1 (String c2 EmptyString)) = Some x.
Proof.
  intros Hx. unfold byte in Hx.
  assert (Hall : forallb hexPairRoundTrips (map Z.of_nat (seq 0 256)) = true)
    by (vm_compute; reflexivity).
  rewrite forallb_forall in Hall.
  assert (Hin : In x (map Z.of_nat (seq 0 256))).
  { rewrite <- (Z2Nat.id x) by lia. apply in_map, in_seq. lia. }
  specialize (Hall x Hin). unfold hexPairRoundTrips in Hall.
  destruct (hexPair x) as [|c1 [|c2 [|c3 s]]]; try discriminate.
  exists c1, c2. split; [reflexivity|].
  destruct (Str.parseInt16 _) as [v|]; [|discriminate].
  apply Z.eqb_eq in Hall. now subst.
Qed.

Lemma rgbToHex_shape (r g b : Z) :
  byte r -> byte g -> byte b ->
  exists r1 r2 g1 g2 b1 b2,
    rgbToHex [r; g; b]
    = String "#" (String r1 (String r2 (String g1 (String g2
        (String b1 (String b2 EmptyString))))))
    /\ Str.parseInt16 (String r1 (String r2 EmptyString)) = Some r
    /\ Str.parseInt16 (String g1 (String g2 EmptyString)) = Some g
    /\ Str.parseInt16 (String b1 (String b2 EmptyString)) = Some b.
Proof.
  intros Hr Hg Hb.
  destruct (hexPair_byte r Hr) as (r1 & r2 & Er & Pr).
  destruct (hexPair_byte g Hg) as (g1 & g2 & Eg & Pg).
  destruct (hexPair_byte b Hb) as (b1 & b2 & Eb & Pb).
  exists r1, r2, g1, g2, b1, b2. split; [|auto].
  unfold rgbToHex. cbn [map]. fold (hexPair r) (hexPair g) (hexPair b).
  rewrite Er, Eg, Eb. reflexivity.
Qed.

(** Two colours with the same hex are the same colour. *)
Lemma rgbToHex_inj (a b : Color) :
  isColor a -> isColor b -> rgbToHex a = rgbToHex b -> a = b.
Proof.
  intros (r & g & bl & -> & Hr & Hg & Hb)
         (r' & g' & bl' & -> & Hr' & Hg' & Hb') E.
  destruct (rgbToHex_shape r g bl Hr Hg Hb)
    as (r1 & r2 & g1 & g2 & b1 & b2 & E1 & Pr & Pg & Pb).
  destruct (rgbToHex_shape r' g' bl' Hr' Hg' Hb')
    as (r1' & r2' & g1' & g2' & b1' & b2' & E2 & Pr' & Pg' & Pb').
  rewrite E1, E2 in E. injection E as -> -> -> -> -> ->.
  congruence.
Qed.

(** The luma of a grey is its level: checked on each of the 256 levels. *)
Lemma luma_grey (v : Z) : byte v -> luma v v v = v.
Proof.
  intros Hv. unfold byte in Hv.
  assert (Hall : forallb lumaFixes (map Z.of_nat (seq 0 256)) = true)
    by (vm_compute; reflexivity).
  rewrite forallb_forall in Hall.
  assert (Hin : In v (map Z.of_nat (seq 0 256))).
  { rewrite <- (Z2Nat.id v) by lia. apply in_map, in_seq. lia. }
  specialize (Hall v Hin). now apply Z.eqb_eq in Hall.
Qed.

End HexText.



(** The example of the documentation of [rgbToHex]. *)
Example rgbToHex_documented : rgbToHex [255; 128; 64] = "#ff8040"%string.
Proof. vm_compute. reflexivity. Qed.

(** X2. [mapColorPaletteToHex] keeps the palette's length and order, and
    distinct colours get distinct hex strings: a palette without repeated
    colours becomes a list without repeated strings. *)
Theorem mapColorPaletteToHex_distinct (palette : list Color) :
  Forall isColor palette -> NoDup palette ->
  NoDup (mapColorPaletteToHex palette)
  /\ length (mapColorPaletteToHex palette) = length palette
  /\ forall i c, palette !! i = Some c ->
       mapColorPaletteToHex palette !! i = Some (rgbToHex c).
Proof.
  intros Hall Hnd. unfold mapColorPaletteToHex.
  split; [|split; [apply length_map|]].
  - induction Hnd as [|c P Hc Hnd IH]; [constructor|].
    apply Forall_cons in Hall as [Hcol Hall]. cbn [map]. constructor.
    + intros Hin. apply Hc.
      apply list_elem_of_In, in_map_iff in Hin as (c' & E & Hin').
      apply list_elem_of_In in Hin'.
      assert (Hc' : isColor c').
      { rewrite Forall_forall in Hall. now apply Hall. }
      apply rgbToHex_inj in E; [|assumption|assumption]. now subst.
    + now apply IH.
  - intros i c Hi. change (map rgbToHex palette) with (rgbToHex <$> palette).
    now rewrite list_lookup_fmap, Hi.
Qed.

Lemma mapColorPaletteToHex_distinct_witness :
  let palette := [[255; 0; 0]; [0; 0; 255]; [12; 20; 28]] in
  NoDup (mapColorPaletteToHex palette)
  /\ length (mapColorPaletteToHex palette) = length palette
  /\ forall i c, palette !! i = Some c ->
       mapColorPaletteToHex palette !! i = Some (rgbToHex c).
Proof.
  apply mapColorPaletteToHex_distinct.
  - repeat constructor; apply isColor_intro; lia.
  - apply NoDup_ListNoDup.
    repeat (constructor; [cbn; intuition discriminate|]). constructor.
Defined.

(** ** The classifier, further *)

Section ClassifierFacts.
Import JsNum JsNumFacts.

Lemma squaredDistance_sym (a b : Color) :
  isColor a -> isColor b -> squaredDistance a b = squaredDistance b a.
Proof.
  intros (r & g & bl & -> & _) (r' & g' & bl' & -> & _).
  cbn [squaredDistance]. rewrite !Z.pow_2_r. lia.
Qed.

Lemma squaredDistance_zero (a b : Color) :
  isColor a -> isColor b -> squaredDistance a b = 0 <-> a = b.
Proof.
  intros (r & g & bl & -> & _) (r' & g' & bl' & -> & _).
  cbn [squaredDistance]. rewrite !Z.pow_2_r. split.
  - intros H.
    pose proof (Z.square_nonneg (r - r')).
    pose proof (Z.square_nonneg (g - g')).
    pose proof (Z.square_nonneg (bl - bl')).
    assert (E1 : (r - r') * (r - r') = 0) by lia.
    assert (E2 : (g - g') * (g - g') = 0) by lia.
    assert (E3 : (bl - bl') * (bl - bl') = 0) by lia.
    apply Z.mul_eq_0 in E1, E2, E3. repeat f_equal; lia.
  - intros E. injection E as -> -> ->. lia.
Qed.

Lemma computeEuclideanDistance_color (a b : Color) :
  isColor a -> isColor b ->
  computeEuclideanDistance a b = Math_sqrt (of_Z (squaredDistance a b)).
Proof.
  intros Ha Hb. unfold computeEuclideanDistance.
  now rewrite sumSquaredDiff_color.
Qed.

(** The [reduce] never leaves the palette, whatever the arrays hold. *)
Lemma fold_closer_member (color p0 : Color) (rest : list Color) :
  fold_left (closer color) rest p0 ∈ p0 :: rest.
Proof.
  revert p0. induction rest as [|x rest IH]; intros p0; cbn [fold_left].
  - apply list_elem_of_here.
  - specialize (IH (closer color p0 x)).
    apply elem_of_cons in IH as [E|Hin].
    + rewrite E. unfold closer. destruct (_ <? _)%float.
      * apply list_elem_of_further, list_elem_of_here.
      * apply list_elem_of_here.
    + now do 2 apply list_elem_of_further.
Qed.

Lemma findClosestColor_member (color : Color) (palette : list Color) :
  palette <> [] -> findClosestColor color palette ∈ palette.
Proof.
  destruct palette as [|p0 rest]; [congruence|]. intros _.
  apply fold_closer_member.
Qed.

(** A colour of the palette is its own nearest colour. *)
Lemma findClosestColor_self (c : Color) (P : list Color) :
  isColor c -> Forall isColor P -> c ∈ P -> findClosestColor c P = c.
Proof.
  intros Hc HP Hin. destruct P as [|p0 rest]; [now apply elem_of_nil in Hin|].
  cbn [findClosestColor].
  destruct (fold_closer_first_min c p0 rest Hc HP) as (i & Hi & Hmin & _).
  set (r := fold_left (closer c) rest p0) in *.
  assert (Hr : isColor r) by exact (Forall_lookup_1 _ _ _ _ HP Hi).
  apply list_elem_of_lookup_1 in Hin as [j Hj].
  specialize (Hmin j c Hj).
  pose proof (squaredDistance_range r c Hr Hc) as [H0 _].
  apply squaredDistance_zero; [assumption|assumption|].
  assert (Hcc : squaredDistance c c = 0) by (now apply squaredDistance_zero).
  lia.
Qed.

End ClassifierFacts.

(** X3. On colours of three bytes [computeEuclideanDistance] is exact
    where the pipeline needs it: two distances compare as the integer
    squared distances do, the distance is symmetric, and it is zero only
    between a colour and itself, as its documentation says. *)
Theorem computeEuclideanDistance_exact (a b c d : Color) :
  isColor a -> isColor b -> isColor c -> isColor d ->
  (computeEuclideanDistance a b <? computeEuclideanDistance c d)%float
  = (squaredDistance a b <? squaredDistance c d)
  /\ computeEuclideanDistance a b = computeEuclideanDistance b a
  /\ (computeEuclideanDistance a b = 0%float <-> a = b).
Proof.
  intros Ha Hb Hc Hd.
  rewrite !computeEuclideanDistance_color by assumption.
  pose proof (squaredDistance_range a b Ha Hb) as Rab.
  pose proof (squaredDistance_range c d Hc Hd) as Rcd.
  split; [now apply sqrt_of_Z_ltb|]. split.
  - now rewrite (squaredDistance_sym a b).
  - rewrite <- (squaredDistance_zero a b) by assumption. split.
    + intros E. destruct (Z.eq_dec (squaredDistance a b) 0) as [|Hne];
        [assumption|].
      assert (Hlt : (JsNum.Math_sqrt (JsNum.of_Z 0)
                     <? JsNum.Math_sqrt (JsNum.of_Z (squaredDistance a b)))%float
                    = true) by (apply sqrt_of_Z_lt; lia).
      rewrite E in Hlt. vm_compute in Hlt. discriminate.
    + intros ->. vm_compute. reflexivity.
Qed.

Lemma computeEuclideanDistance_exact_witness :
  let a := [10; 20; 30] in
  let b := [12; 20; 28] in
  let c := [0; 0; 0] in
  let d := [255; 255; 255] in
  (computeEuclideanDistance a b <? computeEuclideanDistance c d)%float
  = (squaredDistance a b <? squaredDistance c d)
  /\ computeEuclideanDistance a b = computeEuclideanDistance b a
  /\ (computeEuclideanDistance a b = 0%float <-> a = b).
Proof.
  apply computeEuclideanDistance_exact; apply isColor_intro; lia.
Defined.

(** X4. [findClosestColor] never invents a colour: on a non-empty palette
    its result is an entry of the palette, whatever the arrays hold; and a
    colour that is in the palette is returned as it is. *)
Theorem findClosestColor_keeps_palette_colours (c : Color) (P : list Color) :
  (P <> [] -> findClosestColor c P ∈ P)
  /\ (isColor c -> Forall isColor P -> c ∈ P -> findClosestColor c P = c).
Proof.
  split; [apply findClosestColor_member|apply findClosestColor_self].
Qed.

(** ** Quantization of the image *)

Section Quantization.

Lemma stored_stored (v : option Z) : stored (Some (stored v)) = stored v.
Proof. unfold stored. cbn [default]. apply Z.mod_mod. lia. Qed.

(** On a non-empty palette of colours the pixel function of [processImage]
    gives the nearest palette entry itself. *)
Lemma processedColor_palette (P : list Color) (px : Z * Z * Z) :
  P <> [] -> Forall isColor P ->
  exists r g b, findClosestColor [px.1.1; px.1.2; px.2] P = [r; g; b]
                /\ [r; g; b] ∈ P /\ processedColor P px = (r, g, b).
Proof.
  intros Hne HP. destruct px as [[x y] z]. cbn [fst snd].
  pose proof (findClosestColor_member [x; y; z] P Hne) as Hin.
  assert (Hc : isColor (findClosestColor [x; y; z] P)).
  { rewrite Forall_forall in HP. now apply HP. }
  destruct Hc as (r & g & b & E & Hr & Hg & Hb).
  exists r, g, b. split; [exact E|]. split; [now rewrite <- E|].
  unfold processedColor. rewrite E. cbn.
  now rewrite !stored_byte.
Qed.

Lemma processedColor_idempotent (P : list Color) (px : Z * Z * Z) :
  Forall isColor P ->
  processedColor P (processedColor P px) = processedColor P px.
Proof.
  intros HP. destruct P as [|p0 rest] eqn:EP.
  - destruct px as [[x y] z]. unfold processedColor. cbn.
    now rewrite !stored_stored.
  - rewrite <- EP in *.
    destruct (processedColor_palette P px) as (r & g & b & _ & Hin & E);
      [now subst|assumption|].
    rewrite E. unfold processedColor.
    assert (Hc : isColor [r; g; b]).
    { rewrite Forall_forall in HP. now apply HP. }
    rewrite (findClosestColor_self [r; g; b] P Hc HP Hin).
    destruct Hc as (r' & g' & b' & E' & Hr & Hg & Hb).
    injection E' as -> -> ->. cbn. now rewrite !stored_byte.
Qed.

Lemma lookup_readByte (d : list Z) (i : nat) :
  (i < length d)%nat -> d !! i = Some (readByte d i).
Proof.
  intros H. unfold readByte.
  destruct (lookup_lt_is_Some_2 d i H) as [v ->]. reflexivity.
Qed.

(** Two buffers of [n] pixels with the same colours and the same alpha
    bytes are the same buffer. *)
Lemma data_ext (n : nat) (d d' : list Z) :
  length d = (4 * n)%nat -> length d' = (4 * n)%nat ->
  (forall p, (p < n)%nat ->
     pixelAt d' p = pixelAt d p /\ alphaAt d' p = alphaAt d p) ->
  d' = d.
Proof.
  intros Hd Hd' Hpx. apply list_eq. intros j.
  destruct (le_lt_dec (4 * n) j) as [Hge|Hlt].
  - rewrite !lookup_ge_None_2 by lia. reflexivity.
  - pose proof (Nat.div_mod_eq j 4) as Hj.
    pose proof (Nat.mod_upper_bound j 4 ltac:(lia)) as Hk.
    set (p := (j / 4)%nat) in *. set (k := (j mod 4)%nat) in *.
    assert (Hp : (p < n)%nat) by lia.
    destruct (Hpx p Hp) as [Hpix Halpha].
    unfold pixelAt in Hpix. injection Hpix as H0 H1 H2.
    unfold alphaAt in Halpha.
    assert (Hk4 : k = 0%nat \/ k = 1%nat \/ k = 2%nat \/ k = 3%nat) by lia.
    destruct Hk4 as [Hk0|[Hk1|[Hk2|Hk3]]].
    + replace j with (4 * p)%nat by lia.
      rewrite !lookup_readByte by lia. now f_equal.
    + replace j with (4 * p + 1)%nat by lia.
      rewrite !lookup_readByte by lia. now f_equal.
    + replace j with (4 * p + 2)%nat by lia.
      rewrite !lookup_readByte by lia. now f_equal.
    + replace j with (4 * p + 3)%nat by lia. exact Halpha.
Qed.

Lemma bitmap_ext (b b' : Bitmap) :
  wellFormed b -> width b' = width b -> height b' = height b ->
  length (data b') = length (data b) ->
  (forall p, (p < width b * height b)%nat ->
     pixelAt (data b') p = pixelAt (data b) p
     /\ alphaAt (data b') p = alphaAt (data b) p) ->
  b' = b.
Proof.
  intros Hwf Hw Hh Hlen Hpx. destruct b as [w h d], b' as [w' h' d'].
  cbn in *. subst w' h'. f_equal. unfold wellFormed in Hwf. cbn in Hwf.
  apply (data_ext (w * h)); [lia|lia|exact Hpx].
Qed.

Lemma quantized_wellFormed (src : Bitmap) (P : list Color) :
  wellFormed src ->
  wellFormed (scan 0 0 (width src) (height src) (processPixel P) src).
Proof.
  intros Hwf. destruct (quantized_spec src P Hwf) as (Hw & Hh & Hlen & _).
  unfold wellFormed in *. rewrite Hlen, Hw, Hh. exact Hwf.
Qed.

Lemma quantized_idempotent (src : Bitmap) (P : list Color) :
  wellFormed src -> Forall isColor P ->
  let q := scan 0 0 (width src) (height src) (processPixel P) src in
  scan 0 0 (width q) (height q) (processPixel P) q = q.
Proof.
  intros Hwf HP q.
  pose proof (quantized_wellFormed src P Hwf) as Hwfq. fold q in Hwfq.
  destruct (quantized_spec src P Hwf) as (Hw & Hh & Hlen & Hpix).
  fold q in Hw, Hh, Hlen, Hpix.
  destruct (quantized_spec q P Hwfq) as (Hw' & Hh' & Hlen' & Hpix').
  apply bitmap_ext; try assumption.
  intros p Hp. destruct (Hpix' p Hp) as [Hpx Ha]. split; [|exact Ha].
  rewrite Hpx. rewrite Hw, Hh in Hp. destruct (Hpix p Hp) as [Hq _].
  rewrite Hq. now apply processedColor_idempotent.
Qed.

Lemma pixelAt_bytes (d : list Z) (p : nat) :
  Forall byte d -> (4 * p + 2 < length d)%nat ->
  processedColor [] (pixelAt d p) = pixelAt d p.
Proof.
  intros Hd Hp. unfold pixelAt, processedColor. cbn.
  assert (Hb : forall i, (i < length d)%nat -> byte (readByte d i)).
  { intros i Hi. rewrite Forall_lookup in Hd.
    exact (Hd i _ (lookup_readByte d i Hi)). }
  rewrite !stored_byte by (apply Hb; lia). reflexivity.
Qed.

Lemma sameColor_color (c : Color) (r g b : Z) :
  isColor c -> sameColor c (r, g, b) <-> c = [r; g; b].
Proof.
  intros (r' & g' & b' & -> & _). unfold sameColor. cbn. split.
  - intros (E1 & E2 & E3). congruence.
  - intros E. injection E as -> -> ->. auto.
Qed.

End Quantization.

(** X5. After [processImage] with a non-empty palette of colours every
    pixel of the image is a palette colour, the one [findClosestColor]
    gives for the pixel's old colour; width and height are unchanged. *)
Theorem processImage_uses_palette (h : Heap) (image : Ref) (B : Bitmap)
    (P : list Color) :
  h !! image = Some B -> wellFormed B -> P <> [] -> Forall isColor P ->
  exists Q,
    processImage image P h = Done (image, <[image := Q]> h)
    /\ width Q = width B /\ height Q = height B
    /\ forall p, (p < width B * height B)%nat ->
         colorAt (data Q) p ∈ P
         /\ colorAt (data Q) p = findClosestColor (colorAt (data B) p) P.
Proof.
  intros Hsrc Hwf Hne HP.
  exists (scan 0 0 (width B) (height B) (processPixel P) B).
  destruct (quantized_spec B P Hwf) as (Hw & Hh & _ & Hpix).
  split; [exact (processImage_run image B P h Hsrc)|].
  split; [exact Hw|]. split; [exact Hh|].
  intros p Hp. destruct (Hpix p Hp) as [Hpx _].
  destruct (processedColor_palette P (pixelAt (data B) p) Hne HP)
    as (r & g & b & E & Hin & Hc).
  unfold colorAt. rewrite Hpx, Hc.
  destruct (pixelAt (data B) p) as [[x y] z]. cbn [fst snd] in E.
  rewrite E. auto.
Qed.

Lemma processImage_uses_palette_witness :
  let B := {| width := 2; height := 1;
              data := [10; 20; 30; 255; 200; 210; 220; 128] |} in
  let P := [[12; 20; 28]; [255; 255; 255]] in
  exists Q,
    processImage 0%nat P [B] = Done (0%nat, <[0%nat := Q]> [B])
    /\ width Q = width B /\ height Q = height B
    /\ forall p, (p < width B * height B)%nat ->
         colorAt (data Q) p ∈ P
         /\ colorAt (data Q) p = findClosestColor (colorAt (data B) p) P.
Proof.
  intros B P. apply (processImage_uses_palette [B] 0%nat B P).
  - reflexivity.
  - reflexivity.
  - discriminate.
  - repeat constructor; apply isColor_intro; lia.
Defined.

(** X6. [processImage] is idempotent: on an image it has already mapped
    to a palette of colours, a second pass with the same palette changes
    nothing. *)
Theorem processImage_idempotent (h : Heap) (image : Ref) (B : Bitmap)
    (P : list Color) :
  h !! image = Some B -> wellFormed B -> Forall isColor P ->
  (processedImage <- processImage image P ;; processImage processedImage P) h
  = processImage image P h.
Proof.
  intros Hsrc Hwf HP.
  set (Q := scan 0 0 (width B) (height B) (processPixel P) B).
  rewrite (mbind_Done _ _ _ _ _ (processImage_run image B P h Hsrc)).
  fold Q.
  assert (HQ : <[image := Q]> h !! image = Some Q).
  { apply list_lookup_insert_eq. eapply lookup_lt_Some, Hsrc. }
  rewrite (processImage_run image Q P _ HQ).
  rewrite (processImage_run image B P h Hsrc). fold Q.
  rewrite list_insert_insert_eq.
  pose proof (quantized_idempotent B P Hwf HP) as HI. cbv zeta in HI.
  fold Q in HI. now rewrite HI.
Qed.

Lemma processImage_idempotent_witness :
  let B := {| width := 2; height := 1;
              data := [10; 20; 30; 255; 200; 210; 220; 128] |} in
  let P := [[12; 20; 28]; [255; 255; 255]] in
  (processedImage <- processImage 0%nat P ;; processImage processedImage P) [B]
  = processImage 0%nat P [B].
Proof.
  intros B P. apply (processImage_idempotent [B] 0%nat B P).
  - reflexivity.
  - reflexivity.
  - repeat constructor; apply isColor_intro; lia.
Defined.

(** X7. With the empty palette [processImage] leaves an image of bytes
    exactly as it was: the guarded [findClosestColor] hands every colour
    back, and the same bytes are written where they were read. *)
Theorem processImage_empty_palette (h : Heap) (image : Ref) (B : Bitmap) :
  h !! image = Some B -> wellFormed B -> Forall byte (data B) ->
  processImage image [] h = Done (image, h).
Proof.
  intros Hsrc Hwf Hbytes.
  rewrite (processImage_run image B [] h Hsrc).
  assert (E : scan 0 0 (width B) (height B) (processPixel []) B = B).
  { destruct (quantized_spec B [] Hwf) as (Hw & Hh & Hlen & Hpix).
    apply bitmap_ext; try assumption.
    intros p Hp. destruct (Hpix p Hp) as [Hpx Ha]. split; [|exact Ha].
    rewrite Hpx. apply pixelAt_bytes; [exact Hbytes|].
    unfold wellFormed in Hwf. lia. }
  rewrite E. now rewrite list_insert_id.
Qed.

Lemma processImage_empty_palette_witness :
  let B := {| width := 2; height := 1;
              data := [10; 20; 30; 255; 200; 210; 220; 128] |} in
  processImage 0%nat [] [B] = Done (0%nat, [B]).
Proof.
  intros B. apply (processImage_empty_palette [B] 0%nat B).
  - reflexivity.
  - reflexivity.
  - repeat constructor; unfold byte; lia.
Defined.

(** X8. Quantizing an image and then separating it by the same palette,
    as [vectori] does on its image, loses no pixel: when the palette is a
    non-empty list of distinct colours, each pixel of the quantized image
    keeps its colour in the layer of exactly one palette entry, the one it
    was mapped to, and is white in every other layer. *)
Theorem quantized_layers_partition (encodePng : Bitmap -> string) (h : Heap)
    (image : Ref) (B : Bitmap) (P : list Color) :
  h !! image = Some B -> wellFormed B ->
  P <> [] -> Forall isColor P -> NoDup P ->
  exists (Q : Bitmap) (masks : list Bitmap),
    (quantized <- processImage image P ;;
     separateColors encodePng quantized P) h
    = Done (map (dataUri encodePng) masks, <[image := Q]> h ++ masks)
    /\ length masks = length P
    /\ forall p, (p < width B * height B)%nat ->
         exists i c m,
           P !! i = Some c /\ masks !! i = Some m
           /\ sameColor c (pixelAt (data Q) p)
           /\ pixelAt (data m) p = pixelAt (data Q) p
           /\ forall j m', j <> i -> masks !! j = Some m' ->
                pixelAt (data m') p = white.
Proof.
  intros Hsrc Hwf Hne HP Hnd.
  set (Q := scan 0 0 (width B) (height B) (processPixel P) B).
  exists Q, (map (colorMask Q) P).
  assert (HQ : <[image := Q]> h !! image = Some Q).
  { apply list_lookup_insert_eq. eapply lookup_lt_Some, Hsrc. }
  pose proof (quantized_wellFormed B P Hwf) as HwfQ. fold Q in HwfQ.
  destruct (quantized_spec B P Hwf) as (Hw & Hh & _ & Hpix).
  fold Q in Hw, Hh, Hpix.
  split; [|split].
  - rewrite (mbind_Done _ _ _ _ _ (processImage_run image B P h Hsrc)).
    fold Q. rewrite (separateColors_run encodePng image Q P _ HQ).
    now rewrite map_map.
  - now rewrite length_map.
  - intros p Hp. destruct (Hpix p Hp) as [Hpx _].
    destruct (processedColor_palette P (pixelAt (data B) p) Hne HP)
      as (r & g & b & _ & Hin & Hc).
    rewrite Hc in Hpx.
    apply list_elem_of_lookup_1 in Hin as [i Hi].
    exists i, [r; g; b], (colorMask Q [r; g; b]).
    assert (Hp' : (p < width Q * height Q)%nat) by (now rewrite Hw, Hh).
    split; [exact Hi|]. split.
    { change (map (colorMask Q) P) with (colorMask Q <$> P).
      now rewrite list_lookup_fmap, Hi. }
    split; [rewrite Hpx; cbn; auto|]. split.
    + destruct (colorMask_spec Q [r; g; b] HwfQ) as (_ & _ & _ & Hm).
      destruct (Hm p Hp') as [Hmp _]. rewrite Hmp, Hpx.
      unfold separatedColor. rewrite decide_True; [reflexivity|cbn; auto].
    + intros j m' Hji Hj.
      change (map (colorMask Q) P) with (colorMask Q <$> P) in Hj.
      rewrite list_lookup_fmap in Hj.
      destruct (P !! j) as [c'|] eqn:Hc'; [|discriminate].
      cbn in Hj. injection Hj as <-.
      destruct (colorMask_spec Q c' HwfQ) as (_ & _ & _ & Hm).
      destruct (Hm p Hp') as [Hmp _]. rewrite Hmp, Hpx.
      unfold separatedColor. rewrite decide_False; [reflexivity|].
      intros Hs. apply sameColor_color in Hs;
        [|exact (Forall_lookup_1 _ _ _ _ HP Hc')].
      subst c'. apply Hji. exact (NoDup_lookup P j i _ Hnd Hc' Hi).
Qed.

Lemma quantized_layers_partition_witness :
  let B := {| width := 2; height := 1;
              data := [10; 20; 30; 255; 200; 210; 220; 128] |} in
  let P := [[12; 20; 28]; [255; 255; 255]] in
  let enc := fun b : Bitmap => "png"%string in
  exists (Q : Bitmap) (masks : list Bitmap),
    (quantized <- processImage 0%nat P ;; separateColors enc quantized P) [B]
    = Done (map (dataUri enc) masks, <[0%nat := Q]> [B] ++ masks)
    /\ length masks = length P
    /\ forall p, (p < width B * height B)%nat ->
         exists i c m,
           P !! i = Some c /\ masks !! i = Some m
           /\ sameColor c (pixelAt (data Q) p)
           /\ pixelAt (data m) p = pixelAt (data Q) p
           /\ forall j m', j <> i -> masks !! j = Some m' ->
                pixelAt (data m') p = white.
Proof.
  intros B P enc. apply (quantized_layers_partition enc [B] 0%nat B P).
  - reflexivity.
  - reflexivity.
  - discriminate.
  - repeat constructor; apply isColor_intro; lia.
  - apply NoDup_ListNoDup.
    repeat (constructor; [cbn; intuition discriminate|]). constructor.
Defined.

(** ** The palettes read off an image *)

Section Palettes.

(** Adding to a [Set] keeps it free of repeats, and it ends up holding
    what it held and what was added. *)
Lemma fold_setAdd (items acc : list string) :
  NoDup acc ->
  let set := fold_left (fun set x => setAdd x set) items acc in
  NoDup set /\ forall x, x ∈ set <-> x ∈ acc \/ x ∈ items.
Proof.
  revert acc. induction items as [|y items IH]; intros acc Hnd set.
  - subst set. cbn. split; [exact Hnd|]. intros x. rewrite elem_of_nil. tauto.
  - subst set. cbn [fold_left].
    assert (Hnd' : NoDup (setAdd y acc)).
    { unfold setAdd. destruct (bool_decide_reflect (y ∈ acc)) as [Hy|Hy];
        [exact Hnd|].
      apply NoDup_app. split; [exact Hnd|]. split.
      - intros x Hx Hx'. apply list_elem_of_singleton in Hx'. now subst.
      - apply NoDup_singleton. }
    destruct (IH (setAdd y acc) Hnd') as [IH1 IH2]. split; [exact IH1|].
    intros x. rewrite IH2, elem_of_cons. unfold setAdd.
    destruct (bool_decide_reflect (y ∈ acc)) as [Hy|Hy].
    + split; [tauto|]. intros [H|[->|H]]; tauto.
    + rewrite elem_of_app, list_elem_of_singleton. tauto.
Qed.

Lemma arrayFromSet_spec (items : list string) :
  NoDup (arrayFromSet items)
  /\ forall x, x ∈ arrayFromSet items <-> x ∈ items.
Proof.
  destruct (fold_setAdd items [] (NoDup_nil_2)) as [H1 H2].
  split; [exact H1|]. intros x. unfold arrayFromSet. rewrite H2, elem_of_nil.
  tauto.
Qed.

(** A whole-image scan whose callback only looks at [idx] visits the
    pixels in row-major order. *)
Lemma fold_scanOrder_rows {S : Type} (F : nat -> S -> S) (w h : nat) (a : S) :
  fold_left (fun acc '(x, y, idx) => F idx acc) (scanOrder w 0 0 w h) a
  = fold_left (fun acc p => F (4 * p)%nat acc) (seq 0 (w * h)) a.
Proof.
  assert (E : forall (l : list (nat * nat * nat)) (s : S),
            fold_left (fun acc '(x, y, idx) => F idx acc) l s
            = fold_left (fun acc idx => F idx acc)
                (map (fun '(x, y, idx) => idx) l) s).
  { induction l as [|[[x y] idx] l IH]; intros s; [reflexivity|]. cbn.
    apply IH. }
  rewrite E, scanOrder_rows. clear E.
  generalize (seq 0 (w * h)). intros l. revert a.
  induction l as [|p l IH]; intros a; [reflexivity|]. cbn. apply IH.
Qed.

Lemma fold_left_map_acc {X Y S : Type} (f : X -> Y) (F : S -> Y -> S)
    (l : list X) (a : S) :
  fold_left (fun acc x => F acc (f x)) l a = fold_left F (map f l) a.
Proof.
  revert a. induction l as [|x l IH]; intros a; [reflexivity|]. cbn. apply IH.
Qed.

Lemma extractAllColors_fold (b : Bitmap) :
  extractAllColors b
  = arrayFromSet (map (hexAt (data b)) (seq 0 (width b * height b))).
Proof.
  unfold extractAllColors, arrayFromSet.
  rewrite (fold_scanOrder_rows
             (fun idx set => setAdd (rgbToHex (pixelColor (data b) idx)) set)).
  exact (fold_left_map_acc (hexAt (data b)) (fun set x => setAdd x set) _ []).
Qed.

Lemma extractGreyscalePalette_fold (b : Bitmap) :
  extractGreyscalePalette b
  = arrayFromSet (map (greyHexAt (data b)) (seq 0 (width b * height b))).
Proof.
  unfold extractGreyscalePalette, arrayFromSet.
  rewrite (fold_scanOrder_rows
             (fun idx set =>
                let grey := luma (readByte (data b) idx)
                              (readByte (data b) (idx + 1))
                              (readByte (data b) (idx + 2)) in
                setAdd (rgbToHex [grey; grey; grey]) set)).
  exact (fold_left_map_acc (greyHexAt (data b)) (fun set x => setAdd x set)
           _ []).
Qed.

Lemma elem_of_map_seq {A : Type} (f : nat -> A) (n : nat) (x : A) :
  x ∈ map f (seq 0 n) <-> exists p, (p < n)%nat /\ x = f p.
Proof.
  rewrite list_elem_of_In, in_map_iff. split.
  - intros (p & <- & Hp). apply in_seq in Hp. exists p. split; [lia|reflexivity].
  - intros (p & Hp & ->). exists p. split; [reflexivity|]. apply in_seq. lia.
Qed.

Lemma pixelIs_pixelAt (d : list Z) (p : nat) (r g b : Z) :
  pixelIs d p r g b -> pixelAt d p = (r, g, b).
Proof.
  intros (H0 & H1 & H2). unfold pixelAt, readByte. now rewrite H0, H1, H2.
Qed.

Lemma pixelAt_pixelIs (d : list Z) (p : nat) :
  (4 * p + 2 < length d)%nat ->
  pixelIs d p (pixelAt d p).1.1 (pixelAt d p).1.2 (pixelAt d p).2.
Proof.
  intros Hp. unfold pixelIs, pixelAt. cbn [fst snd].
  rewrite !lookup_readByte by lia. auto.
Qed.

Lemma extractAllColors_members (b : Bitmap) :
  NoDup (extractAllColors b)
  /\ forall hex, hex ∈ extractAllColors b
       <-> exists p, (p < width b * height b)%nat /\ hex = hexAt (data b) p.
Proof.
  rewrite extractAllColors_fold.
  destruct (arrayFromSet_spec
              (map (hexAt (data b)) (seq 0 (width b * height b)))) as [H1 H2].
  split; [exact H1|]. intros hex. rewrite H2. apply elem_of_map_seq.
Qed.

Lemma extractGreyscalePalette_members (b : Bitmap) :
  NoDup (extractGreyscalePalette b)
  /\ forall hex, hex ∈ extractGreyscalePalette b
       <-> exists p, (p < width b * height b)%nat
                     /\ hex = greyHexAt (data b) p.
Proof.
  rewrite extractGreyscalePalette_fold.
  destruct (arrayFromSet_spec
              (map (greyHexAt (data b)) (seq 0 (width b * height b))))
    as [H1 H2].
  split; [exact H1|]. intros hex. rewrite H2. apply elem_of_map_seq.
Qed.

(** On an image of greys the lumas are the grey levels. *)
Lemma extractGreyscalePalette_greys (b : Bitmap) :
  (forall p, (p < width b * height b)%nat -> greyPixel (data b) p) ->
  extractGreyscalePalette b = extractAllColors b.
Proof.
  intros Hgrey.
  rewrite extractGreyscalePalette_fold, extractAllColors_fold. f_equal.
  apply map_ext_in. intros p Hp. apply in_seq in Hp.
  destruct (Hgrey p) as (v & Hv & Hpx); [lia|].
  apply pixelIs_pixelAt in Hpx.
  unfold greyHexAt, hexAt, lumaAt. rewrite Hpx. now rewrite luma_grey.
Qed.

End Palettes.

(** X9. The posterized image has no colour outside the palette: after
    [processImage] with a non-empty palette of colours, every colour
    [extractAllColors] finds in the image is the hex of a palette entry,
    so it finds at most as many colours as the palette has entries. *)
Theorem quantized_colors_within_palette (h : Heap) (image : Ref) (B : Bitmap)
    (P : list Color) :
  h !! image = Some B -> wellFormed B -> P <> [] -> Forall isColor P ->
  exists Q,
    processImage image P h = Done (image, <[image := Q]> h)
    /\ (forall hex, hex ∈ extractAllColors Q -> hex ∈ mapColorPaletteToHex P)
    /\ (length (extractAllColors Q) <= length P)%nat.
Proof.
  intros Hsrc Hwf Hne HP.
  set (Q := scan 0 0 (width B) (height B) (processPixel P) B).
  exists Q. split; [exact (processImage_run image B P h Hsrc)|].
  destruct (quantized_spec B P Hwf) as (Hw & Hh & _ & Hpix).
  fold Q in Hw, Hh, Hpix.
  assert (Hsub : forall hex, hex ∈ extractAllColors Q ->
                   hex ∈ mapColorPaletteToHex P).
  { intros hex Hin. apply extractAllColors_members in Hin as (p & Hp & ->).
    rewrite Hw, Hh in Hp. destruct (Hpix p Hp) as [Hpx _].
    destruct (processedColor_palette P (pixelAt (data B) p) Hne HP)
      as (r & g & b & _ & Hin & Hc).
    unfold hexAt. rewrite Hpx, Hc. unfold mapColorPaletteToHex.
    apply list_elem_of_In, in_map, list_elem_of_In, Hin. }
  split; [exact Hsub|].
  rewrite <- (length_map rgbToHex P). apply submseteq_length.
  apply NoDup_submseteq; [apply extractAllColors_members|exact Hsub].
Qed.

Lemma quantized_colors_within_palette_witness :
  let B := {| width := 2; height := 1;
              data := [10; 20; 30; 255; 200; 210; 220; 128] |} in
  let P := [[12; 20; 28]; [255; 255; 255]] in
  exists Q,
    processImage 0%nat P [B] = Done (0%nat, <[0%nat := Q]> [B])
    /\ (forall hex, hex ∈ extractAllColors Q -> hex ∈ mapColorPaletteToHex P)
    /\ (length (extractAllColors Q) <= length P)%nat.
Proof.
  intros B P. apply (quantized_colors_within_palette [B] 0%nat B P).
  - reflexivity.
  - reflexivity.
  - discriminate.
  - repeat constructor; apply isColor_intro; lia.
Defined.

(** X10. [extractAllColors] (and [getAllColors], which has the same body)
    lists every colour of the image once: the list has no repeats, and a
    hex string is in it exactly when it is the hex of the three colour
    bytes of some pixel. *)
Theorem extractAllColors_distinct (b : Bitmap) :
  wellFormed b ->
  NoDup (extractAllColors b)
  /\ forall hex, hex ∈ extractAllColors b
       <-> exists p r g bl, (p < width b * height b)%nat
                            /\ pixelIs (data b) p r g bl
                            /\ hex = rgbToHex [r; g; bl].
Proof.
  intros Hwf. destruct (extractAllColors_members b) as [Hnd Hmem].
  split; [exact Hnd|]. intros hex. rewrite Hmem. split.
  - intros (p & Hp & ->).
    exists p, (pixelAt (data b) p).1.1, (pixelAt (data b) p).1.2,
      (pixelAt (data b) p).2.
    split; [exact Hp|]. split.
    + apply pixelAt_pixelIs. unfold wellFormed in Hwf. lia.
    + unfold hexAt. now destruct (pixelAt (data b) p) as [[r g] bl].
  - intros (p & r & g & bl & Hp & Hpx & ->). exists p. split; [exact Hp|].
    unfold hexAt. now rewrite (pixelIs_pixelAt _ _ _ _ _ Hpx).
Qed.

Lemma extractAllColors_distinct_witness :
  let b := {| width := 3; height := 1;
              data := [255; 0; 0; 255; 0; 0; 255; 128; 255; 0; 0; 7] |} in
  NoDup (extractAllColors b)
  /\ forall hex, hex ∈ extractAllColors b
       <-> exists p r g bl, (p < width b * height b)%nat
                            /\ pixelIs (data b) p r g bl
                            /\ hex = rgbToHex [r; g; bl].
Proof. intros b. apply (extractAllColors_distinct b). reflexivity. Defined.

(** Three pixels, two colours, in first-seen order. *)
Example extractAllColors_three_pixels :
  extractAllColors
    {| width := 3; height := 1;
       data := [255; 0; 0; 255; 0; 0; 255; 128; 255; 0; 0; 7] |}
  = ["#ff0000"; "#0000ff"]%string.
Proof. vm_compute. reflexivity. Qed.

(** X11. The copy of [vectori] under [src/lib] collects the hex of every
    pixel in an array and removes the duplicates through a [Set]; that is
    the list [extractAllColors] gives, entry for entry. *)
Theorem uniqueAllColorsPalette_extractAllColors (b : Bitmap) :
  uniqueAllColorsPalette b = extractAllColors b.
Proof.
  rewrite extractAllColors_fold. unfold uniqueAllColorsPalette. f_equal.
  rewrite (fold_scanOrder_rows
             (fun idx acc => acc ++ [rgbToHex (pixelColor (data b) idx)])).
  generalize (seq 0 (width b * height b)). intros l.
  assert (E : forall acc,
            fold_left
              (fun acc p => acc ++ [rgbToHex (pixelColor (data b) (4 * p))])
              l acc
            = acc ++ map (hexAt (data b)) l).
  { induction l as [|p l IH]; intros acc; cbn [fold_left map].
    - now rewrite app_nil_r.
    - rewrite IH, <- app_assoc. reflexivity. }
  exact (E []).
Qed.

(** X12. [extractGreyscalePalette] lists every luma of the image once, as
    a grey hex: the list has no repeats, and a string is in it exactly when
    it is the grey hex of the luma of the three colour bytes of some
    pixel. *)
Theorem extractGreyscalePalette_distinct (b : Bitmap) :
  wellFormed b ->
  NoDup (extractGreyscalePalette b)
  /\ forall hex, hex ∈ extractGreyscalePalette b
       <-> exists p r g bl, (p < width b * height b)%nat
                            /\ pixelIs (data b) p r g bl
                            /\ hex = rgbToHex [luma r g bl; luma r g bl;
                                               luma r g bl].
Proof.
  intros Hwf. destruct (extractGreyscalePalette_members b) as [Hnd Hmem].
  split; [exact Hnd|]. intros hex. rewrite Hmem. split.
  - intros (p & Hp & ->).
    exists p, (pixelAt (data b) p).1.1, (pixelAt (data b) p).1.2,
      (pixelAt (data b) p).2.
    split; [exact Hp|]. split.
    + apply pixelAt_pixelIs. unfold wellFormed in Hwf. lia.
    + unfold greyHexAt, lumaAt. now destruct (pixelAt (data b) p) as [[r g] bl].
  - intros (p & r & g & bl & Hp & Hpx & ->). exists p. split; [exact Hp|].
    unfold greyHexAt, lumaAt. now rewrite (pixelIs_pixelAt _ _ _ _ _ Hpx).
Qed.

Lemma extractGreyscalePalette_distinct_witness :
  let b := {| width := 3; height := 1;
              data := [101; 101; 101; 255; 10; 200; 30; 7; 101; 101; 101; 0] |} in
  NoDup (extractGreyscalePalette b)
  /\ forall hex, hex ∈ extractGreyscalePalette b
       <-> exists p r g bl, (p < width b * height b)%nat
                            /\ pixelIs (data b) p r g bl
                            /\ hex = rgbToHex [luma r g bl; luma r g bl;
                                               luma r g bl].
Proof.
  intros b. apply (extractGreyscalePalette_distinct b). reflexivity.
Defined.

(** X13. On an image of greys, which is what [vectori] hands it, the
    greyscale palette is the list of the grey levels present: it equals
    what [extractAllColors] gives, and each entry is the hex of a byte [v]
    that [greyHexToNumber] reads back as [v], so the target of each band of
    [separateGreyscaleColors] is a grey level of that image. *)
Theorem extractGreyscalePalette_of_greys (b : Bitmap) :
  (forall p, (p < width b * height b)%nat -> greyPixel (data b) p) ->
  extractGreyscalePalette b = extractAllColors b
  /\ Forall (fun hex => exists v, byte v /\ hex = rgbToHex [v; v; v]
                                  /\ greyHexToNumber hex = Some v)
       (extractGreyscalePalette b).
Proof.
  intros Hgrey. split; [now apply extractGreyscalePalette_greys|].
  apply Forall_forall. intros hex Hin.
  apply extractGreyscalePalette_members in Hin as (p & Hp & ->).
  destruct (Hgrey p Hp) as (v & Hv & Hpx). exists v.
  apply pixelIs_pixelAt in Hpx.
  unfold greyHexAt, lumaAt. rewrite Hpx, luma_grey by exact Hv.
  split; [exact Hv|]. split; [reflexivity|].
  now apply greyHexToNumber_rgbToHex.
Qed.

Lemma extractGreyscalePalette_of_greys_witness :
  let b := {| width := 2; height := 1;
              data := [101; 101; 101; 255; 7; 7; 7; 0] |} in
  extractGreyscalePalette b = extractAllColors b
  /\ Forall (fun hex => exists v, byte v /\ hex = rgbToHex [v; v; v]
                                  /\ greyHexToNumber hex = Some v)
       (extractGreyscalePalette b).
Proof.
  intros b. apply (extractGreyscalePalette_of_greys b).
  intros p Hp. destruct p as [|[|p]].
  - exists 101. split; [unfold byte; lia|repeat split].
  - exists 7. split; [unfold byte; lia|repeat split].
  - cbn in Hp. lia.
Defined.

(** X14. [createPallet] hands the clustering one colour per pixel, in
    row-major order: entry [p] is the array of the three colour bytes of
    pixel [p], the alpha byte left out. *)
Theorem collectPixels_rows (b : Bitmap) :
  wellFormed b ->
  length (collectPixels b) = (width b * height b)%nat
  /\ forall p, (p < width b * height b)%nat ->
       exists r g bl, pixelIs (data b) p r g bl
                      /\ collectPixels b !! p = Some [r; g; bl].
Proof.
  intros Hwf.
  assert (E : collectPixels b
              = map (fun p => pixelColor (data b) (4 * p))
                  (seq 0 (width b * height b))).
  { unfold collectPixels. rewrite <- map_map, <- scanOrder_rows, map_map.
    apply map_ext. now intros [[x y] idx]. }
  rewrite E. split; [now rewrite length_map, length_seq|].
  intros p Hp.
  exists (pixelAt (data b) p).1.1, (pixelAt (data b) p).1.2,
    (pixelAt (data b) p).2.
  split; [apply pixelAt_pixelIs; unfold wellFormed in Hwf; lia|].
  change (map ?f ?l) with (f <$> l). rewrite list_lookup_fmap.
  rewrite lookup_seq_lt by exact Hp. reflexivity.
Qed.

Lemma collectPixels_rows_witness :
  let b := {| width := 2; height := 1;
              data := [10; 20; 30; 255; 200; 210; 220; 128] |} in
  length (collectPixels b) = (width b * height b)%nat
  /\ forall p, (p < width b * height b)%nat ->
       exists r g bl, pixelIs (data b) p r g bl
                      /\ collectPixels b !! p = Some [r; g; bl].
Proof. intros b. apply (collectPixels_rows b). reflexivity. Defined.

(** ** Luma bands, further *)

(** X15. A palette entry that [greyHexToNumber] cannot read (a string that
    is not a hash sign and six hexadecimal digits gives [NaN]) makes an
    all-white layer: no pixel is within the tolerance of [NaN]. *)
Theorem separateGreyscaleColors_unreadable_entry (encodePng : Bitmap -> string)
    (h : Heap) (image : Ref) (B : Bitmap) (G : list string) :
  h !! image = Some B -> wellFormed B ->
  exists masks : list Bitmap,
    separateGreyscaleColors encodePng image G h
      = Done (map (dataUri encodePng) masks, h ++ masks)
    /\ forall i greyHex,
         G !! i = Some greyHex -> greyHexToNumber greyHex = None ->
         exists m, masks !! i = Some m
           /\ forall p, (p < width B * height B)%nat ->
                pixelAt (data m) p = white.
Proof.
  intros Hsrc Hwf. exists (map (greyMask B) G). split.
  - rewrite (separateGreyscaleColors_run encodePng image B G h Hsrc).
    now rewrite map_map.
  - intros i greyHex Hi Hnone. exists (greyMask B greyHex). split.
    + change (map (greyMask B) G) with (greyMask B <$> G).
      now rewrite list_lookup_fmap, Hi.
    + intros p Hp.
      destruct (greyMask_spec B greyHex Hwf) as (_ & _ & _ & Hpix).
      destruct (Hpix p Hp) as [Hpx _]. rewrite Hpx, Hnone.
      unfold bandedColor. now destruct (pixelAt (data B) p) as [[r g] b].
Qed.

Lemma separateGreyscaleColors_unreadable_entry_witness :
  let B := {| width := 2; height := 1;
              data := [101; 101; 101; 255; 10; 200; 30; 7] |} in
  let G := ["#646464"; "#64"; "grey"]%string in
  let enc := fun b : Bitmap => "png"%string in
  exists masks : list Bitmap,
    separateGreyscaleColors enc 0%nat G [B]
      = Done (map (dataUri enc) masks, [B] ++ masks)
    /\ forall i greyHex,
         G !! i = Some greyHex -> greyHexToNumber greyHex = None ->
         exists m, masks !! i = Some m
           /\ forall p, (p < width B * height B)%nat ->
                pixelAt (data m) p = white.
Proof.
  intros B G enc.
  exact (separateGreyscaleColors_unreadable_entry enc [B] 0%nat B G
           eq_refl eq_refl).
Defined.

(** A hex cut short reads as [NaN], and its layer is white everywhere. *)
Example separateGreyscaleColors_short_hex :
  greyHexToNumber "#64" = None
  /\ separateGreyscaleColors (fun _ => "png"%string) 0%nat ["#64"%string]
       [{| width := 2; height := 1;
           data := [101; 101; 101; 255; 10; 200; 30; 7] |}]
     = Done (["data:image/png;base64,png"%string],
             [{| width := 2; height := 1;
                 data := [101; 101; 101; 255; 10; 200; 30; 7] |};
              {| width := 2; height := 1;
                 data := [255; 255; 255; 255; 255; 255; 255; 7] |}]).
Proof. split; vm_compute; reflexivity. Qed.

(** X16. Bands whose targets are more than twice the tolerance apart do
    not overlap: no pixel is kept by both, so in one of the two layers it
    is white. *)
Theorem separateGreyscaleColors_distant_bands (encodePng : Bitmap -> string)
    (h : Heap) (image : Ref) (B : Bitmap) (G : list string) :
  h !! image = Some B -> wellFormed B ->
  exists masks : list Bitmap,
    separateGreyscaleColors encodePng image G h
      = Done (map (dataUri encodePng) masks, h ++ masks)
    /\ forall i j g1 g2 t1 t2,
         G !! i = Some g1 -> G !! j = Some g2 ->
         greyHexToNumber g1 = Some t1 -> greyHexToNumber g2 = Some t2 ->
         Z.abs (t1 - t2) > 2 * TOLERANCE ->
         exists m1 m2, masks !! i = Some m1 /\ masks !! j = Some m2
           /\ forall p, (p < width B * height B)%nat ->
                pixelAt (data m1) p = white \/ pixelAt (data m2) p = white.
Proof.
  intros Hsrc Hwf. exists (map (greyMask B) G). split.
  - rewrite (separateGreyscaleColors_run encodePng image B G h Hsrc).
    now rewrite map_map.
  - intros i j g1 g2 t1 t2 Hi Hj Ht1 Ht2 Hfar.
    exists (greyMask B g1), (greyMask B g2).
    change (map (greyMask B) G) with (greyMask B <$> G).
    rewrite !list_lookup_fmap, Hi, Hj. split; [reflexivity|].
    split; [reflexivity|]. intros p Hp.
    destruct (greyMask_spec B g1 Hwf) as (_ & _ & _ & Hpix1).
    destruct (greyMask_spec B g2 Hwf) as (_ & _ & _ & Hpix2).
    destruct (Hpix1 p Hp) as [Hp1 _]. destruct (Hpix2 p Hp) as [Hp2 _].
    rewrite Hp1, Hp2, Ht1, Ht2. unfold bandedColor.
    destruct (pixelAt (data B) p) as [[r g] b].
    destruct (Z.leb_spec (Z.abs (luma r g b - t1)) TOLERANCE) as [H1|H1];
      [|now left].
    destruct (Z.leb_spec (Z.abs (luma r g b - t2)) TOLERANCE) as [H2|H2];
      [|now right].
    unfold TOLERANCE in *. lia.
Qed.

Lemma separateGreyscaleColors_distant_bands_witness :
  let B := {| width := 2; height := 1;
              data := [101; 101; 101; 255; 10; 200; 30; 7] |} in
  let G := ["#646464"; "#7b7b7b"]%string in
  let enc := fun b : Bitmap => "png"%string in
  exists masks : list Bitmap,
    separateGreyscaleColors enc 0%nat G [B]
      = Done (map (dataUri enc) masks, [B] ++ masks)
    /\ forall i j g1 g2 t1 t2,
         G !! i = Some g1 -> G !! j = Some g2 ->
         greyHexToNumber g1 = Some t1 -> greyHexToNumber g2 = Some t2 ->
         Z.abs (t1 - t2) > 2 * TOLERANCE ->
         exists m1 m2, masks !! i = Some m1 /\ masks !! j = Some m2
           /\ forall p, (p < width B * height B)%nat ->
                pixelAt (data m1) p = white \/ pixelAt (data m2) p = white.
Proof.
  intros B G enc.
  exact (separateGreyscaleColors_distant_bands enc [B] 0%nat B G
           eq_refl eq_refl).
Defined.

(** ** Clones and data URIs *)

(** X17. [createGreyscaleImage] and [extractAllGreyscale] work on a clone:
    [greyscale] changes its receiver, yet the image they are given is the
    same afterwards, and the heap has grown by the grey clone. *)
Theorem greyscale_passes_keep_source (encodePng : Bitmap -> string)
    (greyscale : Bitmap -> Bitmap) (h : Heap) (image : Ref) (B : Bitmap) :
  h !! image = Some B ->
  createGreyscaleImage encodePng greyscale image h
    = Done (dataUri encodePng (greyscale B), h ++ [greyscale B])
  /\ extractAllGreyscale greyscale image h
     = Done (extractAllColors (greyscale B), h ++ [greyscale B])
  /\ (h ++ [greyscale B]) !! image = Some B.
Proof.
  intros Hsrc. split; [now apply createGreyscaleImage_run|].
  split; [now apply extractAllGreyscale_run|].
  now apply lookup_app_l_Some.
Qed.

Lemma greyscale_passes_keep_source_witness :
  let B := {| width := 1; height := 1; data := [10; 20; 30; 255] |} in
  let grey := fun b : Bitmap =>
                {| width := width b; height := height b;
                   data := [19; 19; 19; 255] |} in
  createGreyscaleImage showBitmap grey 0%nat [B]
    = Done (dataUri showBitmap (grey B), [B] ++ [grey B])
  /\ extractAllGreyscale grey 0%nat [B]
     = Done (extractAllColors (grey B), [B] ++ [grey B])
  /\ ([B] ++ [grey B]) !! 0%nat = Some B.
Proof.
  intros B grey.
  exact (greyscale_passes_keep_source showBitmap grey [B] 0%nat B eq_refl).
Defined.

Section DataUri.
#[local] Arguments String.append !s1 s2 : simpl nomatch.

Lemma split_nonempty (sep : ascii) (s : string) :
  exists piece pieces, Str.split sep s = piece :: pieces.
Proof.
  induction s as [|c s IH]; cbn [Str.split]; [now eexists _, _|].
  destruct (Ascii.eqb c sep); [now eexists _, _|].
  destruct IH as (piece & pieces & ->). now eexists _, _.
Qed.

Lemma split_lacks (sep : ascii) (s : string) :
  lacks sep s = true -> Str.split sep s = [s].
Proof.
  induction s as [|c s IH]; intros H; [reflexivity|].
  cbn [lacks] in H. apply andb_prop in H as [Hc Hs].
  cbn [Str.split]. apply negb_true_iff in Hc. rewrite Hc, (IH Hs).
  reflexivity.
Qed.

Lemma split_prefix (sep : ascii) (p s : string) :
  lacks sep p = true ->
  Str.split sep (p ++ String sep s) = p :: Str.split sep s.
Proof.
  induction p as [|c p IH]; intros H.
  - cbn [String.append Str.split]. now rewrite Ascii.eqb_refl.
  - cbn [lacks] in H. apply andb_prop in H as [Hc Hp].
    cbn [String.append Str.split]. apply negb_true_iff in Hc.
    rewrite Hc, (IH Hp). reflexivity.
Qed.

(** [s.split(sep)[1]] is [undefined] exactly when [s] has no [sep]. *)
Lemma split_second_None (sep : ascii) (s : string) :
  Str.split sep s !! 1%nat = None <-> lacks sep s = true.
Proof.
  induction s as [|c s IH]; [cbn; tauto|].
  cbn [Str.split lacks].
  destruct (Ascii.eqb c sep) eqn:E; cbn [negb andb].
  - destruct (split_nonempty sep s) as (piece & pieces & ->). cbn.
    split; discriminate.
  - rewrite <- IH.
    destruct (split_nonempty sep s) as (piece & pieces & ->). reflexivity.
Qed.

Lemma payload_of_dataUri (encodePng : Bitmap -> string) (b : Bitmap) :
  lacks ","%char (encodePng b) = true ->
  payload (dataUri encodePng b) = Some (encodePng b).
Proof.
  intros H. unfold payload, dataUri.
  change ("data:image/png;base64," ++ encodePng b)%string
    with ("data:image/png;base64" ++ String ","%char (encodePng b))%string.
  rewrite split_prefix by reflexivity. now rewrite split_lacks.
Qed.

End DataUri.

(** X18. The data URI the pipeline writes and the payload it reads back
    are a round trip: when the encoded image has no comma, as base64 has
    none, [split(",")[1]] of the URI is the encoded image. In general the
    payload of a string is [undefined] exactly when the string has no
    comma. *)
Theorem dataUri_payload_round_trip (encodePng : Bitmap -> string)
    (b : Bitmap) :
  lacks ","%char (encodePng b) = true ->
  payload (dataUri encodePng b) = Some (encodePng b)
  /\ forall uri, payload uri = None <-> lacks ","%char uri = true.
Proof.
  intros H. split; [now apply payload_of_dataUri|].
  intros uri. apply split_second_None.
Qed.

Lemma dataUri_payload_round_trip_witness :
  let b := {| width := 1; height := 1; data := [10; 20; 30; 255] |} in
  payload (dataUri showBitmap b) = Some (showBitmap b)
  /\ forall uri, payload uri = None <-> lacks ","%char uri = true.
Proof.
  intros b. apply (dataUri_payload_round_trip showBitmap b).
  vm_compute. reflexivity.
Defined.

(** ** The trace batch, further *)

Section PromiseOrder.

Context {A : Type}.

Lemma settleAll_app (calls : list (JsResult A)) (l1 l2 : list nat)
    (st : AllState A) :
  settleAll calls (l1 ++ l2) st = settleAll calls l2 (settleAll calls l1 st).
Proof. unfold settleAll. apply fold_left_app. Qed.

(** While fewer promises have delivered than are awaited, the combined
    promise stays pending. *)
Lemma settleAll_pending (calls : list (JsResult A)) (pre : list nat)
    (st : AllState A) :
  combined st = Pending -> (length pre < remaining st)%nat ->
  (forall k, k ∈ pre -> exists v, calls !! k = Some (Returns v)) ->
  combined (settleAll calls pre st) = Pending
  /\ remaining (settleAll calls pre st) = (remaining st - length pre)%nat.
Proof.
  revert st. induction pre as [|k pre IH]; intros st Hp Hlen Hret.
  - cbn. split; [exact Hp|lia].
  - destruct (Hret k) as [v Hv]; [left|].
    change (settleAll calls (k :: pre) st)
      with (settleAll calls pre
              (match calls !! k with
               | Some r => allSettle st k r
               | None => st
               end)).
    rewrite Hv. cbn [length] in Hlen.
    assert (Hst : combined (allSettle st k (Returns v)) = Pending
                  /\ remaining (allSettle st k (Returns v))
                     = pred (remaining st)).
    { unfold allSettle. rewrite Hp. cbn.
      destruct (remaining st) as [|[|n]]; [lia|lia|]. split; reflexivity. }
    destruct Hst as [Hp' Hr'].
    destruct (IH (allSettle st k (Returns v))) as [IH1 IH2].
    + exact Hp'.
    + rewrite Hr'. lia.
    + intros j Hj. apply Hret. now right.
    + split; [exact IH1|]. rewrite IH2, Hr'. cbn [length]. lia.
Qed.

Lemma NoDup_below_length (l : list nat) (n : nat) :
  NoDup l -> (forall k, k ∈ l -> (k < n)%nat) -> (length l <= n)%nat.
Proof.
  intros Hnd Hlt. rewrite <- (length_seq n 0). apply submseteq_length.
  apply NoDup_submseteq; [exact Hnd|].
  intros k Hk. apply list_elem_of_In, in_seq. specialize (Hlt k Hk). lia.
Qed.

(** The combined promise is rejected with the error of the first promise
    to fail, in the order of settlement. *)
Lemma promiseAll_first_rejection (calls : list (JsResult A))
    (pre post : list nat) (i : nat) (e : string) :
  pre ++ i :: post ≡ₚ seq 0 (length calls) ->
  (forall k, k ∈ pre -> exists v, calls !! k = Some (Returns v)) ->
  calls !! i = Some (Throws e) ->
  promiseAll calls (pre ++ i :: post) = Rejected e.
Proof.
  intros Hperm Hpre Hi.
  assert (Hnd : NoDup (pre ++ i :: post)).
  { rewrite Hperm. apply NoDup_ListNoDup, List.seq_NoDup. }
  assert (Hlt : forall k, k ∈ pre ++ i :: post -> (k < length calls)%nat).
  { intros k Hk. rewrite Hperm in Hk. apply list_elem_of_In, in_seq in Hk. lia. }
  assert (Hlen : (length pre < length calls)%nat).
  { assert (H : (length (pre ++ [i]) <= length calls)%nat).
    { apply NoDup_below_length.
      - replace (pre ++ i :: post) with ((pre ++ [i]) ++ post) in Hnd
          by (now rewrite <- app_assoc).
        now apply NoDup_app in Hnd as [Hnd _].
      - intros k Hk. apply Hlt. apply elem_of_app in Hk as [Hk|Hk].
        + apply elem_of_app. now left.
        + apply list_elem_of_singleton in Hk as ->. apply elem_of_app. right.
          left. }
    rewrite length_app in H. cbn in H. lia. }
  unfold promiseAll. fold (settleAll calls (pre ++ i :: post)
                             (allInit (length calls))).
  rewrite settleAll_app.
  destruct (settleAll_pending calls pre (allInit (length calls)))
    as [Hp _].
  - cbn. destruct (length calls); [lia|reflexivity].
  - exact Hlen.
  - exact Hpre.
  - change (settleAll calls (i :: post) ?st)
      with (settleAll calls post
              (match calls !! i with
               | Some r => allSettle st i r
               | None => st
               end)).
    rewrite Hi. rewrite settleAll_settled.
    + unfold allSettle. now rewrite Hp.
    + unfold allSettle. rewrite Hp. discriminate.
Qed.

Lemma promiseAll_pending (calls : list (JsResult A)) (order : list nat) :
  (length order < length calls)%nat ->
  (forall k, k ∈ order -> exists v, calls !! k = Some (Returns v)) ->
  promiseAll calls order = Pending.
Proof.
  intros Hlen Hret. unfold promiseAll.
  fold (settleAll calls order (allInit (length calls))).
  apply (settleAll_pending calls order (allInit (length calls))).
  - cbn. destruct (length calls); [lia|reflexivity].
  - exact Hlen.
  - exact Hret.
Qed.

End PromiseOrder.

(** X19. An image string without a comma has no payload: its trace call
    throws before potrace is reached, and the whole batch is rejected. *)
Theorem traceImagesToSvgs_bad_uri
    (trace : option string -> option string -> JsResult string)
    (images palette : list string) (order : list nat) (i : nat)
    (img : string) :
  order ≡ₚ seq 0 (length images) ->
  images !! i = Some img -> lacks ","%char img = true ->
  traceCall trace palette i img
    = Throws "TypeError: the first argument must be a string"
  /\ exists e, traceImagesToSvgs trace images palette order = Rejected e.
Proof.
  intros Hperm Hi Hno.
  assert (E : traceCall trace palette i img
              = Throws "TypeError: the first argument must be a string").
  { unfold traceCall, payload.
    now rewrite (proj2 (split_second_None ","%char img) Hno). }
  split; [exact E|].
  apply (traceImagesToSvgs_rejected trace images palette order Hperm).
  now exists i, img, "TypeError: the first argument must be a string"%string.
Qed.

Lemma traceImagesToSvgs_bad_uri_witness :
  let trace := fun (png color : option string) =>
                 Returns "<svg></svg>"%string in
  let images := ["data:image/png;base64,AAA"; "AAA"]%string in
  let palette := ["#ff0000"; "#0000ff"]%string in
  traceCall trace palette 1%nat "AAA"
    = Throws "TypeError: the first argument must be a string"
  /\ exists e, traceImagesToSvgs trace images palette [1; 0]%nat = Rejected e.
Proof.
  intros trace images palette.
  apply (traceImagesToSvgs_bad_uri trace images palette [1; 0]%nat 1%nat).
  - apply perm_swap.
  - reflexivity.
  - reflexivity.
Defined.

(** X20. When several trace calls fail, the batch is rejected with the
    error of the one whose callback fires first: the calls that settled
    before it all succeeded, and what settles after it changes nothing. *)
Theorem traceImagesToSvgs_first_failure
    (trace : option string -> option string -> JsResult string)
    (images palette : list string) (pre post : list nat) (i : nat)
    (img e : string) :
  pre ++ i :: post ≡ₚ seq 0 (length images) ->
  (forall k im, k ∈ pre -> images !! k = Some im ->
     exists svg, traceCall trace palette k im = Returns svg) ->
  images !! i = Some img -> traceCall trace palette i img = Throws e ->
  traceImagesToSvgs trace images palette (pre ++ i :: post) = Rejected e.
Proof.
  intros Hperm Hpre Hi He. unfold traceImagesToSvgs.
  apply promiseAll_first_rejection.
  - now rewrite length_imap.
  - intros k Hk.
    assert (Hlt : (k < length images)%nat).
    { assert (Hin : k ∈ pre ++ i :: post) by (apply elem_of_app; now left).
      rewrite Hperm in Hin. apply list_elem_of_In, in_seq in Hin. lia. }
    destruct (lookup_lt_is_Some_2 images k Hlt) as [im Him].
    destruct (Hpre k im Hk Him) as [svg Hsvg]. exists svg.
    now rewrite list_lookup_imap, Him, <- Hsvg.
  - now rewrite list_lookup_imap, Hi, <- He.
Qed.

Lemma traceImagesToSvgs_first_failure_witness :
  let trace := fun (png color : option string) =>
                 match png with
                 | Some "AAA"%string => Returns "<svg>a</svg>"%string
                 | Some "BBB"%string => Throws "potrace: b"
                 | _ => Throws "potrace: c"
                 end in
  let images := ["data:image/png;base64,AAA"; "data:image/png;base64,BBB";
                 "data:image/png;base64,CCC"]%string in
  let palette := ["#ff0000"; "#00ff00"; "#0000ff"]%string in
  traceImagesToSvgs trace images palette ([0%nat] ++ 2%nat :: [1%nat])
  = Rejected "potrace: c".
Proof.
  intros trace images palette.
  apply (traceImagesToSvgs_first_failure trace images palette
           [0%nat] [1%nat] 2%nat "data:image/png;base64,CCC" "potrace: c").
  - cbn. apply perm_skip, perm_swap.
  - intros k im Hk Him. apply list_elem_of_singleton in Hk. subst k.
    cbn in Him. injection Him as <-. now exists "<svg>a</svg>"%string.
  - reflexivity.
  - reflexivity.
Defined.

(** X21. The batch never settles on a part of the layers: while some
    trace callback has not fired and none that fired has failed, the batch
    is pending, and [vectori], which awaits it, does not return. *)
Theorem traceImagesToSvgs_never_partial
    (trace : option string -> option string -> JsResult string)
    (images palette : list string) (order : list nat) :
  (length order < length images)%nat ->
  (forall k, k ∈ order ->
     exists im svg, images !! k = Some im
                    /\ traceCall trace palette k im = Returns svg) ->
  traceImagesToSvgs trace images palette order = Pending
  /\ forall ci gi gp ap gap gimgs orderGrey h,
       traceAndMerge trace ci gi palette gp ap gap images gimgs
         order orderGrey h = Waiting.
Proof.
  intros Hlen Hret.
  assert (Hp : traceImagesToSvgs trace images palette order = Pending).
  { unfold traceImagesToSvgs. apply promiseAll_pending.
    - now rewrite length_imap.
    - intros k Hk. destruct (Hret k Hk) as (im & svg & Him & Hsvg).
      exists svg. now rewrite list_lookup_imap, Him, <- Hsvg. }
  split; [exact Hp|].
  intros ci gi gp ap gap gimgs orderGrey h.
  unfold traceAndMerge, mbind, await. now rewrite Hp.
Qed.

Lemma traceImagesToSvgs_never_partial_witness :
  let trace := fun (png color : option string) =>
                 Returns "<svg></svg>"%string in
  let images := ["data:image/png;base64,AAA"; "data:image/png;base64,BBB";
                 "data:image/png;base64,CCC"]%string in
  let palette := ["#ff0000"; "#00ff00"; "#0000ff"]%string in
  traceImagesToSvgs trace images palette [2; 0]%nat = Pending
  /\ forall ci gi gp ap gap gimgs orderGrey h,
       traceAndMerge trace ci gi palette gp ap gap images gimgs
         [2; 0]%nat orderGrey h = Waiting.
Proof.
  intros trace images palette.
  apply (traceImagesToSvgs_never_partial trace images palette [2; 0]%nat).
  - cbn. lia.
  - intros k Hk. apply elem_of_cons in Hk as [->|Hk].
    + now eexists _, _.
    + apply list_elem_of_singleton in Hk as ->. now eexists _, _.
Defined.

(** ** The fragment merger, further *)

Module MinMaxFacts.
Import JsNum JsNumFacts.

(** The order [Math.min] and [Math.max] pick by is total, antisymmetric
    and transitive on the specification floats other than [NaN]. *)

Ltac first_cases :=
  unfold SFfirst, SFltb;
  repeat match goal with
    | x : spec_float |- _ => destruct x
    | s : bool |- _ => destruct s
    end;
  cbn [SFcompare SFsign negb andb orb];
  try congruence; try discriminate; try reflexivity;
  intros; cmp_cases.

Lemma SFfirst_total x y :
  x <> S754_nan -> y <> S754_nan -> SFfirst x y = false -> SFfirst y x = true.
Proof. first_cases. Qed.

Lemma SFfirst_antisym x y :
  x <> S754_nan -> y <> S754_nan ->
  SFfirst x y = true -> SFfirst y x = true -> x = y.
Proof. first_cases. Qed.

Lemma SFfirst_trans x y z :
  x <> S754_nan -> y <> S754_nan -> z <> S754_nan ->
  SFfirst x y = true -> SFfirst y z = true -> SFfirst x z = true.
Proof. first_cases. Qed.

(** [get_sign] reads the sign bit, of a zero too. *)
Lemma get_sign_spec (a : float) :
  is_nan a = false -> get_sign a = SFsign (Prim2SF a).
Proof.
  intros Ha. apply not_nan_spec in Ha. unfold get_sign, is_zero.
  rewrite FloatAxioms.eqb_spec.
  change (Prim2SF zero) with (S754_zero false).
  destruct (Prim2SF a) as [s|s| |s m e] eqn:E; [| |congruence|].
  - change (SFeqb (S754_zero s) (S754_zero false)) with true. cbv iota.
    rewrite FloatAxioms.ltb_spec, FloatAxioms.div_spec, E.
    change (Prim2SF zero) with (S754_zero false).
    destruct s; reflexivity.
  - assert (Hz : SFeqb (S754_infinity s) (S754_zero false) = false)
      by (destruct s; reflexivity).
    rewrite Hz, FloatAxioms.ltb_spec, E.
    change (Prim2SF zero) with (S754_zero false).
    destruct s; reflexivity.
  - assert (Hz : SFeqb (S754_finite s m e) (S754_zero false) = false)
      by (destruct s; reflexivity).
    rewrite Hz, FloatAxioms.ltb_spec, E.
    change (Prim2SF zero) with (S754_zero false).
    destruct s; reflexivity.
Qed.

Lemma comesFirst_total (a b : float) :
  is_nan a = false -> is_nan b = false ->
  comesFirst a b = false -> comesFirst b a = true.
Proof.
  intros Ha Hb. apply SFfirst_total; now apply not_nan_spec.
Qed.

Lemma comesFirst_antisym (a b : float) :
  is_nan a = false -> is_nan b = false ->
  comesFirst a b = true -> comesFirst b a = true -> a = b.
Proof.
  intros Ha Hb H1 H2. apply Prim2SF_inj.
  apply SFfirst_antisym; try assumption; now apply not_nan_spec.
Qed.

Lemma comesFirst_trans (a b c : float) :
  is_nan a = false -> is_nan b = false -> is_nan c = false ->
  comesFirst a b = true -> comesFirst b c = true -> comesFirst a c = true.
Proof.
  intros Ha Hb Hc. apply SFfirst_trans; now apply not_nan_spec.
Qed.

(** [Math.min] and [Math.max] pick by that order. *)
Lemma Math_min_first (a b : float) :
  Math_min a b
  = if is_nan a || is_nan b then nan
    else if comesFirst a b then a else b.
Proof.
  unfold Math_min. destruct (is_nan a) eqn:Ha; [reflexivity|].
  destruct (is_nan b) eqn:Hb; [reflexivity|]. cbn [orb].
  unfold comesFirst, SFfirst. rewrite <- !FloatAxioms.ltb_spec.
  rewrite <- !get_sign_spec by assumption.
  destruct (a <? b)%float eqn:E1; [reflexivity|].
  destruct (b <? a)%float eqn:E2; [reflexivity|]. cbn [orb negb andb].
  destruct (get_sign a) eqn:Sa; [reflexivity|].
  destruct (get_sign b) eqn:Sb; [reflexivity|]. cbn [orb negb].
  symmetry. apply comesFirst_antisym; try assumption;
    unfold comesFirst, SFfirst; rewrite <- !FloatAxioms.ltb_spec;
    rewrite <- !get_sign_spec by assumption;
    rewrite E1, E2, Sa, Sb; reflexivity.
Qed.

Lemma Math_max_first (a b : float) :
  Math_max a b
  = if is_nan a || is_nan b then nan
    else if comesFirst a b then b else a.
Proof.
  unfold Math_max. destruct (is_nan a) eqn:Ha; [reflexivity|].
  destruct (is_nan b) eqn:Hb; [reflexivity|]. cbn [orb].
  unfold comesFirst, SFfirst. rewrite <- !FloatAxioms.ltb_spec.
  rewrite <- !get_sign_spec by assumption.
  destruct (a <? b)%float eqn:E1; [reflexivity|].
  destruct (b <? a)%float eqn:E2; [reflexivity|]. cbn [orb negb andb].
  destruct (get_sign a) eqn:Sa; [reflexivity|].
  destruct (get_sign b) eqn:Sb; [reflexivity|]. cbn [orb negb].
  apply comesFirst_antisym; try assumption;
    unfold comesFirst, SFfirst; rewrite <- !FloatAxioms.ltb_spec;
    rewrite <- !get_sign_spec by assumption;
    rewrite E1, E2, Sa, Sb; reflexivity.
Qed.

(** The result is [NaN] exactly when an argument is. *)
Lemma Math_min_is_nan (a b : float) :
  is_nan (Math_min a b) = is_nan a || is_nan b.
Proof.
  rewrite Math_min_first. destruct (is_nan a) eqn:Ha; [reflexivity|].
  destruct (is_nan b) eqn:Hb; [reflexivity|]. cbn [orb].
  now destruct (comesFirst a b).
Qed.

Lemma Math_max_is_nan (a b : float) :
  is_nan (Math_max a b) = is_nan a || is_nan b.
Proof.
  rewrite Math_max_first. destruct (is_nan a) eqn:Ha; [reflexivity|].
  destruct (is_nan b) eqn:Hb; [reflexivity|]. cbn [orb].
  now destruct (comesFirst a b).
Qed.

(** Folding in two values, in either order. *)
Lemma Math_min_swap (a b c : float) :
  Math_min (Math_min a b) c = Math_min (Math_min a c) b.
Proof.
  rewrite !(Math_min_first (Math_min _ _)).
  rewrite !Math_min_is_nan.
  destruct (is_nan a) eqn:Ha, (is_nan b) eqn:Hb, (is_nan c) eqn:Hc;
    cbn [orb]; try reflexivity.
  rewrite !Math_min_first, Ha, Hb, Hc. cbn [orb].
  destruct (comesFirst a b) eqn:Eab, (comesFirst a c) eqn:Eac;
    rewrite ?Eab, ?Eac; try reflexivity.
  - pose proof (comesFirst_total a c Ha Hc Eac) as Eca.
    destruct (comesFirst c b) eqn:Ecb; [reflexivity|].
    pose proof (comesFirst_total c b Hc Hb Ecb) as Ebc.
    pose proof (comesFirst_trans a b c Ha Hb Hc Eab Ebc). congruence.
  - pose proof (comesFirst_total a b Ha Hb Eab) as Eba.
    destruct (comesFirst b c) eqn:Ebc; [reflexivity|].
    pose proof (comesFirst_total b c Hb Hc Ebc) as Ecb.
    pose proof (comesFirst_trans a c b Ha Hc Hb Eac Ecb). congruence.
  - pose proof (comesFirst_total a b Ha Hb Eab) as Eba.
    pose proof (comesFirst_total a c Ha Hc Eac) as Eca.
    destruct (comesFirst b c) eqn:Ebc, (comesFirst c b) eqn:Ecb;
      try reflexivity.
    + now apply comesFirst_antisym.
    + pose proof (comesFirst_total b c Hb Hc Ebc). congruence.
Qed.

Lemma Math_max_swap (a b c : float) :
  Math_max (Math_max a b) c = Math_max (Math_max a c) b.
Proof.
  rewrite !(Math_max_first (Math_max _ _)).
  rewrite !Math_max_is_nan.
  destruct (is_nan a) eqn:Ha, (is_nan b) eqn:Hb, (is_nan c) eqn:Hc;
    cbn [orb]; try reflexivity.
  rewrite !Math_max_first, Ha, Hb, Hc. cbn [orb].
  destruct (comesFirst a b) eqn:Eab, (comesFirst a c) eqn:Eac;
    rewrite ?Eab, ?Eac; try reflexivity.
  - destruct (comesFirst b c) eqn:Ebc, (comesFirst c b) eqn:Ecb;
      try reflexivity.
    + symmetry. now apply comesFirst_antisym.
    + pose proof (comesFirst_total b c Hb Hc Ebc). congruence.
  - pose proof (comesFirst_total a c Ha Hc Eac) as Eca.
    destruct (comesFirst b c) eqn:Ebc; [|reflexivity].
    pose proof (comesFirst_trans a b c Ha Hb Hc Eab Ebc). congruence.
  - pose proof (comesFirst_total a b Ha Hb Eab) as Eba.
    destruct (comesFirst c b) eqn:Ecb; [|reflexivity].
    pose proof (comesFirst_trans a c b Ha Hc Hb Eac Ecb). congruence.
Qed.

(** A difference with a [NaN] operand prints as [NaN]. *)
Lemma sub_nan (x y : float) :
  is_nan x || is_nan y = true -> Str.numberToString (x - y) = "NaN"%string.
Proof.
  intros H. unfold Str.numberToString.
  rewrite FloatAxioms.sub_spec. apply orb_prop in H as [H|H];
    apply is_nan_spec in H; rewrite H; unfold SF64sub; cbn [SFsub];
    [reflexivity|].
  now destruct (Prim2SF x).
Qed.

End MinMaxFacts.

Section MergerOrder.
Import JsNum JsNumFacts MinMaxFacts.

Lemma extendBounds_swap (b : Bounds) (f g : Frame) :
  extendBounds (extendBounds b f) g = extendBounds (extendBounds b g) f.
Proof.
  unfold extendBounds. cbn [minX minY maxX maxY]. f_equal;
    first [apply Math_min_swap | apply Math_max_swap].
Qed.

Lemma fold_extendBounds_perm (svgs svgs' : list string) :
  svgs ≡ₚ svgs' ->
  forall b, fold_left (fun b svg => extendBounds b (frameOf svg)) svgs b
            = fold_left (fun b svg => extendBounds b (frameOf svg)) svgs' b.
Proof.
  induction 1 as [|x l l' _ IH|x y l|l l' l'' _ IH1 _ IH2]; intros b.
  - reflexivity.
  - cbn [fold_left]. apply IH.
  - cbn [fold_left]. now rewrite extendBounds_swap.
  - now rewrite IH1.
Qed.

Lemma extendBounds_proper_iff (b : Bounds) (f : Frame) :
  properBounds (extendBounds b f) <-> properBounds b /\ properFrame f.
Proof.
  unfold properBounds, properFrame, extendBounds. cbn [minX minY maxX maxY].
  rewrite !Math_min_is_nan, !Math_max_is_nan, !orb_false_iff. tauto.
Qed.

Lemma fold_extendBounds_proper_iff (svgs : list string) (b : Bounds) :
  properBounds (fold_left (fun b svg => extendBounds b (frameOf svg)) svgs b)
  <-> properBounds b /\ Forall (fun svg => properFrame (frameOf svg)) svgs.
Proof.
  revert b. induction svgs as [|svg svgs IH]; intros b; cbn [fold_left].
  - split; [intros H; split; [exact H|constructor]|tauto].
  - rewrite IH, extendBounds_proper_iff, Forall_cons. tauto.
Qed.

End MergerOrder.

(** X22. The frame of the merged document does not depend on the order
    of the fragments: two lists of the same fragments in different orders
    give the same bounds, so the same [viewBox], width and height; only the
    order of the contents follows the list. *)
Theorem mergeSvgs_frame_any_order (svgs svgs' : list string) :
  svgs ≡ₚ svgs' ->
  mergedBounds svgs = mergedBounds svgs'
  /\ declaredFrame svgs = declaredFrame svgs'
  /\ mergedSvgHeader (mergedBounds svgs) = mergedSvgHeader (mergedBounds svgs').
Proof.
  intros Hperm.
  assert (E : mergedBounds svgs = mergedBounds svgs')
    by (exact (fold_extendBounds_perm svgs svgs' Hperm initialBounds)).
  unfold declaredFrame. rewrite E. auto.
Qed.

Lemma mergeSvgs_frame_any_order_witness :
  let a := tracedSvg "10" "10" "0 0 10 10" "#ff0000" in
  let b := tracedSvg "20.5" "20" "-5 5.25 20.5 20" "#0000ff" in
  mergedBounds [a; b] = mergedBounds [b; a]
  /\ declaredFrame [a; b] = declaredFrame [b; a]
  /\ mergedSvgHeader (mergedBounds [a; b])
     = mergedSvgHeader (mergedBounds [b; a]).
Proof.
  intros a b. apply (mergeSvgs_frame_any_order [a; b] [b; a]).
  apply perm_swap.
Defined.

(** X23. The merged bounds are numbers exactly when the frame of every
    fragment is made of numbers; one fragment whose [viewBox] is short of
    a number is enough for the merged document to declare a width or a
    height of [NaN]. *)
Theorem mergeSvgs_nan_frame (svgs : list string) :
  (properBounds (mergedBounds svgs)
   <-> Forall (fun svg => properFrame (frameOf svg)) svgs)
  /\ (~ Forall (fun svg => properFrame (frameOf svg)) svgs ->
      Str.numberToString (finalWidth (mergedBounds svgs)) = "NaN"%string
      \/ Str.numberToString (finalHeight (mergedBounds svgs)) = "NaN"%string).
Proof.
  assert (Hiff : properBounds (mergedBounds svgs)
                 <-> Forall (fun svg => properFrame (frameOf svg)) svgs).
  { unfold mergedBounds. rewrite fold_extendBounds_proper_iff.
    pose proof initialBounds_proper. tauto. }
  split; [exact Hiff|]. intros Hnot. rewrite <- Hiff in Hnot.
  unfold properBounds in Hnot. unfold finalWidth, finalHeight.
  destruct (is_nan (minX (mergedBounds svgs))) eqn:E1;
    [left; apply MinMaxFacts.sub_nan; now rewrite E1, orb_true_r|].
  destruct (is_nan (maxX (mergedBounds svgs))) eqn:E3;
    [left; apply MinMaxFacts.sub_nan; now rewrite E3|].
  destruct (is_nan (minY (mergedBounds svgs))) eqn:E2;
    [right; apply MinMaxFacts.sub_nan; now rewrite E2, orb_true_r|].
  destruct (is_nan (maxY (mergedBounds svgs))) eqn:E4;
    [right; apply MinMaxFacts.sub_nan; now rewrite E4|].
  exfalso. apply Hnot. auto.
Qed.

(** A proper fragment merged with one whose [viewBox] has three numbers. *)
Example mergeSvgs_one_short_viewBox :
  let a := tracedSvg "10" "10" "0 0 10 10" "#ff0000" in
  let b := tracedSvg "20" "20" "5 5 20" "#0000ff" in
  mergedSvgHeader (mergedBounds [a; b]) = svgHeader "0 0 25 NaN" "25" "NaN".
Proof. vm_compute. reflexivity. Qed.

(** ** The whole run and the object it returns *)

Section Run.

Variable encodePng : Bitmap -> string.
Variable decodePng : option string -> Bitmap.
Variable greyscale : Bitmap -> Bitmap.
Variable quantize : list Color -> Z -> list Color.
Variable trace : option string -> option string -> JsResult string.

Lemma await_Done {A : Type} (p : Settled A) (h h' : Heap) (v : A) :
  await p h = Done (v, h') -> p = Fulfilled v /\ h' = h.
Proof.
  unfold await. destruct p as [|w|e]; try discriminate.
  intros E. injection E as -> ->. auto.
Qed.

(** A run of steps 7 to 10 that completes has traced both batches, and
    its result is built from the two lists of fragments. *)
Lemma traceAndMerge_Done (ci gi : string)
    (cp gp ap gap cimgs gimgs : list string) (oc og : list nat)
    (h h' : Heap) (r : ResultView) :
  traceAndMerge trace ci gi cp gp ap gap cimgs gimgs oc og h = Done (r, h') ->
  exists csvgs gsvgs,
    traceImagesToSvgs trace cimgs cp oc = Fulfilled csvgs
    /\ traceImagesToSvgs trace gimgs gp og = Fulfilled gsvgs
    /\ h' = h
    /\ r = {| colorImage := ci;
              greyscaleImage := gi;
              colorPallet := cp;
              greyscalePalette := gp;
              allColorsPalette := ap;
              greyscaleAllColorsPalette := gap;
              separatedColorImages := cimgs;
              separatedGreyscaleImages := gimgs;
              separatedColorSvgs := csvgs;
              separatedGreyscaleSvgs := gsvgs;
              separatedOutlinedSvgs := createSvgOutline csvgs;
              mergedColorSvg := mergeSvgs csvgs;
              mergedGreyscaleSvg := mergeSvgs gsvgs;
              mergedOutlinedSvg := mergeSvgs (createSvgOutline csvgs);
              mergedGreyscaleOutlinedSvg :=
                mergeSvgs (gsvgs ++ createSvgOutline csvgs);
              mergedColorOutlinedSvg :=
                mergeSvgs (csvgs ++ createSvgOutline csvgs) |}.
Proof.
  unfold traceAndMerge, mbind. intros H.
  destruct (await (traceImagesToSvgs trace cimgs cp oc) h)
    as [[csvgs h1]|e|] eqn:E1; try discriminate.
  apply await_Done in E1 as [E1 ->].
  destruct (await (traceImagesToSvgs trace gimgs gp og) h)
    as [[gsvgs h2]|e|] eqn:E2; try discriminate.
  apply await_Done in E2 as [E2 ->].
  unfold mret in H. injection H as <- <-.
  exists csvgs, gsvgs. auto.
Qed.

Lemma vectori_Done (source : Bitmap) (oc og : list nat) (r : ResultView)
    (h : Heap) :
  vectori encodePng decodePng greyscale quantize trace source oc og []
    = Done (r, h) ->
  exists s h1,
    vectoriSeparate encodePng decodePng greyscale quantize source []
      = Done (s, h1)
    /\ length (sepColorImages s) = length (sepColorPaletteValues s)
    /\ length (sepGreyscaleImages s) = length (sepGreyscalePalette s)
    /\ traceAndMerge trace (sepColorImage s) (sepGreyscaleImage s)
         (mapColorPaletteToHex (sepColorPaletteValues s))
         (sepGreyscalePalette s) (sepAllColorsPalette s)
         (sepGreyscaleAllColorsPalette s) (sepColorImages s)
         (sepGreyscaleImages s) oc og h1 = Done (r, h).
Proof.
  unfold vectori. intros H.
  pose proof (vectoriSeparate_run encodePng decodePng greyscale quantize source)
    as Hrun. cbv zeta in Hrun.
  rewrite (mbind_Done _ _ _ _ _ Hrun) in H.
  eexists _, _. split; [exact Hrun|].
  split; [cbn; now rewrite length_map|].
  split; [cbn; now rewrite length_map|]. exact H.
Qed.


End Run.

Section Accessors.

Lemma choose_other {A : Type} (fill : string) (cases : list (string * A)) :
  fill ∉ map fst cases -> Result.choose fill cases = None.
Proof.
  induction cases as [|[key v] cases IH]; intros Hnot; [reflexivity|].
  cbn [map fst] in Hnot. apply not_elem_of_cons in Hnot as [Hne Hnot].
  cbn [Result.choose]. apply String.eqb_neq in Hne. rewrite Hne. now apply IH.
Qed.

End Accessors.

(** X24. Step 5 of [vectori] reads back the greyscale image step 4 made:
    when the encoding of that image has no comma and decodes to the image,
    the greyscale palette is [extractGreyscalePalette] of the greyscale of
    the quantized image; and when that image is made of greys, it is the
    list of its grey levels. *)
Theorem vectoriSeparate_reads_back_greyscale (encodePng : Bitmap -> string)
    (decodePng : option string -> Bitmap) (greyscale : Bitmap -> Bitmap)
    (quantize : list Color -> Z -> list Color) (source : Bitmap) :
  let palette := quantize (collectPixels source) 6 in
  let Q := scan 0 0 (width source) (height source) (processPixel palette)
             source in
  lacks ","%char (encodePng (greyscale Q)) = true ->
  decodePng (Some (encodePng (greyscale Q))) = greyscale Q ->
  exists s h,
    vectoriSeparate encodePng decodePng greyscale quantize source []
      = Done (s, h)
    /\ sepGreyscaleImage s = dataUri encodePng (greyscale Q)
    /\ sepGreyscalePalette s = extractGreyscalePalette (greyscale Q)
    /\ ((forall p, (p < width (greyscale Q) * height (greyscale Q))%nat ->
           greyPixel (data (greyscale Q)) p) ->
        sepGreyscalePalette s = extractAllColors (greyscale Q)).
Proof.
  intros palette Q Hcomma Hcodec.
  pose proof (vectoriSeparate_run encodePng decodePng greyscale quantize source)
    as Hrun. cbv zeta in Hrun. fold palette in Hrun. fold Q in Hrun.
  eexists _, _. split; [exact Hrun|].
  assert (E : greyscaleRead encodePng decodePng greyscale Q = greyscale Q).
  { unfold greyscaleRead. now rewrite payload_of_dataUri. }
  cbn [sepGreyscalePalette sepGreyscaleImage separatedFrom]. rewrite E.
  split; [reflexivity|]. split; [reflexivity|]. intros Hgrey.
  now apply extractGreyscalePalette_greys.
Qed.

Lemma vectoriSeparate_reads_back_greyscale_witness :
  let grey := fun b : Bitmap =>
                {| width := width b; height := height b;
                   data := [19; 19; 19; 255] |} in
  let quantize := fun (pixels : list Color) (k : Z) => [[12; 20; 28]] in
  let decodePng := fun _ : option string =>
                     {| width := 1; height := 1; data := [19; 19; 19; 255] |} in
  let palette := quantize (collectPixels sampleSource) 6 in
  let Q := scan 0 0 (width sampleSource) (height sampleSource)
             (processPixel palette) sampleSource in
  exists s h,
    vectoriSeparate showBitmap decodePng grey quantize sampleSource []
      = Done (s, h)
    /\ sepGreyscaleImage s = dataUri showBitmap (grey Q)
    /\ sepGreyscalePalette s = extractGreyscalePalette (grey Q)
    /\ ((forall p, (p < width (grey Q) * height (grey Q))%nat ->
           greyPixel (data (grey Q)) p) ->
        sepGreyscalePalette s = extractAllColors (grey Q)).
Proof.
  intros grey quantize decodePng.
  apply (vectoriSeparate_reads_back_greyscale showBitmap decodePng grey
           quantize sampleSource).
  - vm_compute. reflexivity.
  - reflexivity.
Defined.



(** X26. In the object a completed run of [vectori] returns, each merged
    document is the merge of the fragment lists the object also gives:
    [svg] with the fill [color], [greyscale] or [outline] is [mergeSvgs] of
    [components.svg] with that fill, the two combined fills merge the
    filled fragments followed by the outlined ones, the outlined fragments
    are the outlines of the colour fragments, and a missing [fill] means
    [color]. *)
Theorem vectori_merged_views (encodePng : Bitmap -> string)
    (decodePng : option string -> Bitmap) (greyscale : Bitmap -> Bitmap)
    (quantize : list Color -> Z -> list Color)
    (trace : option string -> option string -> JsResult string)
    (source : Bitmap) (orderColor orderGrey : list nat)
    (r : ResultView) (h : Heap) :
  vectori encodePng decodePng greyscale quantize trace source
    orderColor orderGrey [] = Done (r, h) ->
  exists color grey outline : list string,
    Result.components_svg r (Options (Some "color"%string))
      = Returns (Some color)
    /\ Result.components_svg r (Options (Some "greyscale"%string))
       = Returns (Some grey)
    /\ Result.components_svg r (Options (Some "outline"%string))
       = Returns (Some outline)
    /\ outline = createSvgOutline color
    /\ Result.svg r (Options (Some "color"%string))
       = Returns (Some (mergeSvgs color))
    /\ Result.svg r (Options (Some "greyscale"%string))
       = Returns (Some (mergeSvgs grey))
    /\ Result.svg r (Options (Some "outline"%string))
       = Returns (Some (mergeSvgs outline))
    /\ Result.svg r (Options (Some "color-outline"%string))
       = Returns (Some (mergeSvgs (color ++ outline)))
    /\ Result.svg r (Options (Some "greyscale-outline"%string))
       = Returns (Some (mergeSvgs (grey ++ outline)))
    /\ Result.svg r (Options None) = Returns (Some (mergeSvgs color))
    /\ Result.components_svg r (Options None) = Returns (Some color).
Proof.
  intros Hrun.
  destruct (vectori_Done _ _ _ _ _ _ _ _ _ _ Hrun)
    as (s & h1 & _ & _ & _ & Htm).
  destruct (traceAndMerge_Done _ _ _ _ _ _ _ _ _ _ _ _ _ _ Htm)
    as (csvgs & gsvgs & _ & _ & _ & ->).
  exists csvgs, gsvgs, (createSvgOutline csvgs). repeat split.
Qed.

Lemma vectori_merged_views_witness :
  exists r h,
    sampleRun [0%nat] [0%nat] [] = Done (r, h)
    /\ exists color grey outline : list string,
         Result.components_svg r (Options (Some "color"%string))
           = Returns (Some color)
         /\ Result.components_svg r (Options (Some "greyscale"%string))
            = Returns (Some grey)
         /\ Result.components_svg r (Options (Some "outline"%string))
            = Returns (Some outline)
         /\ outline = createSvgOutline color
         /\ Result.svg r (Options (Some "color"%string))
            = Returns (Some (mergeSvgs color))
         /\ Result.svg r (Options (Some "greyscale"%string))
            = Returns (Some (mergeSvgs grey))
         /\ Result.svg r (Options (Some "outline"%string))
            = Returns (Some (mergeSvgs outline))
         /\ Result.svg r (Options (Some "color-outline"%string))
            = Returns (Some (mergeSvgs (color ++ outline)))
         /\ Result.svg r (Options (Some "greyscale-outline"%string))
            = Returns (Some (mergeSvgs (grey ++ outline)))
         /\ Result.svg r (Options None) = Returns (Some (mergeSvgs color))
         /\ Result.components_svg r (Options None) = Returns (Some color).
Proof.
  pose (c := sampleRun [0%nat] [0%nat] []). vm_compute in c.
  lazymatch eval cbv delta [c] in c with
  | Done (?r, ?h) =>
      clear c; exists r, h; split; [vm_compute; reflexivity|];
      apply (vectori_merged_views showBitmap (fun _ => sampleSource)
               (fun b => b) (fun _ _ => [[12; 20; 28]]) sampleTrace
               sampleSource [0%nat] [0%nat] r h);
      vm_compute; reflexivity
  end.
Defined.

(** X27. The accessors of the returned object at their edges: a [fill]
    that names no branch gives [undefined], never an exception; a call
    with no argument at all throws a [TypeError], except [palette.all],
    whose parameter defaults to the empty object and which then answers
    with the full colour palette; an options object without [fill] means
    [color]. *)
Theorem accessors_edge_cases (r : ResultView) :
  (forall fill,
     fill ∉ ["color"; "greyscale"; "outline"; "color-outline";
             "greyscale-outline"]%string ->
     Result.svg r (Options (Some fill)) = Returns None)
  /\ (forall fill,
        fill ∉ ["color"; "greyscale"; "outline"]%string ->
        Result.components_svg r (Options (Some fill)) = Returns None)
  /\ (forall fill,
        fill ∉ ["color"; "greyscale"]%string ->
        Result.image r (Options (Some fill)) = Returns None
        /\ Result.palette_popular r (Options (Some fill)) = Returns None
        /\ Result.palette_all r (Options (Some fill)) = None
        /\ Result.components_image r (Options (Some fill)) = Returns None)
  /\ (exists e,
        Result.image r NoArgument = Throws e
        /\ Result.palette_popular r NoArgument = Throws e
        /\ Result.components_image r NoArgument = Throws e
        /\ Result.components_svg r NoArgument = Throws e
        /\ Result.svg r NoArgument = Throws e)
  /\ Result.palette_all r NoArgument = Some (allColorsPalette r)
  /\ Result.image r (Options None) = Returns (Some (colorImage r))
  /\ Result.palette_popular r (Options None) = Returns (Some (colorPallet r)).
Proof.
  split; [|split; [|split; [|split]]].
  - intros fill Hnot. unfold Result.svg, Result.withFill.
    cbn [Result.fillOf default]. f_equal. now apply choose_other.
  - intros fill Hnot. unfold Result.components_svg, Result.withFill.
    cbn [Result.fillOf default]. f_equal. now apply choose_other.
  - intros fill Hnot.
    assert (Hnot' : fill ∉ ["greyscale"; "color"]%string).
    { intros Hin. apply Hnot. apply elem_of_cons in Hin as [->|Hin].
      - right. left.
      - apply list_elem_of_singleton in Hin as ->. left. }
    unfold Result.image, Result.palette_popular, Result.palette_all,
      Result.components_image, Result.withFill.
    cbn [Result.fillOf Result.fillOrEmpty default].
    rewrite !choose_other by assumption. auto.
  - eexists. repeat split.
  - repeat split.
Qed.

(** ** The older copy of the quantization pass *)

Section LegacyFacts.

Lemma legacy_findClosestColor_cons (c p0 : Color) (rest : list Color) :
  Legacy.findClosestColor c (p0 :: rest)
  = Returns (findClosestColor c (p0 :: rest)).
Proof. reflexivity. Qed.

Lemma legacy_scanCalls_nonempty (P : list Color)
    (calls : list (nat * nat * nat)) (d : list Z) :
  P <> [] ->
  LegacyPass.scanCalls (LegacyPass.processPixel P) calls d
  = (fold_left (fun d '(x, y, idx) => processPixel P x y idx d) calls d, None).
Proof.
  intros HP. destruct P as [|p0 rest]; [congruence|]. clear HP.
  revert d. induction calls as [|[[x y] idx] calls IH]; intros d.
  - reflexivity.
  - cbn [LegacyPass.scanCalls fold_left]. unfold LegacyPass.processPixel.
    rewrite legacy_findClosestColor_cons. cbv zeta. apply IH.
Qed.

Lemma scanOrder_nonempty (bw w h : nat) :
  (0 < w * h)%nat -> scanOrder bw 0 0 w h <> [].
Proof.
  intros Hwh. destruct w as [|w]; [lia|]. destruct h as [|h]; [lia|].
  unfold scanOrder. cbn. discriminate.
Qed.

End LegacyFacts.

(** X28. The older copy of [processImage], around the unguarded
    [findClosestColor]: on a non-empty palette it changes the bitmap exactly
    as the copy of [vectori.js] does; on the empty palette it throws at the
    first pixel, before any byte is written, so an image with a pixel is
    left untouched and the call fails, and only an image without pixels
    comes back. *)
Theorem legacy_processBitmap (P : list Color) (b : Bitmap) :
  (P <> [] ->
   LegacyPass.processBitmap P b
   = (scan 0 0 (width b) (height b) (processPixel P) b, None))
  /\ (P = [] -> (0 < width b * height b)%nat ->
      LegacyPass.processBitmap P b
      = (b, Some "TypeError: Reduce of empty array with no initial value"%string))
  /\ (P = [] -> (width b * height b = 0)%nat ->
      LegacyPass.processBitmap P b = (b, None)).
Proof.
  split; [|split].
  - intros HP. unfold LegacyPass.processBitmap.
    now rewrite legacy_scanCalls_nonempty.
  - intros -> Hwh. unfold LegacyPass.processBitmap.
    pose proof (scanOrder_nonempty (width b) (width b) (height b) Hwh) as Hne.
    destruct (scanOrder (width b) 0 0 (width b) (height b))
      as [|[[x y] idx] calls]; [congruence|].
    cbn. now destruct b.
  - intros -> Hwh. unfold LegacyPass.processBitmap.
    assert (E : scanOrder (width b) 0 0 (width b) (height b) = []).
    { unfold scanOrder. apply Nat.eq_mul_0 in Hwh as [->| ->]; cbn.
      - induction (seq 0 (height b)); [reflexivity|]. now cbn.
      - reflexivity. }
    rewrite E. cbn. now destruct b.
Qed.

(** The older copy on a one-pixel image: quantized with a palette, failing
    without one. *)
Example legacy_processBitmap_one_pixel :
  LegacyPass.processBitmap [[12; 20; 28]] sampleSource
  = ({| width := 1; height := 1; data := [12; 20; 28; 255] |}, None)
  /\ LegacyPass.processBitmap [] sampleSource
     = (sampleSource,
        Some "TypeError: Reduce of empty array with no initial value"%string).
Proof. split; vm_compute; reflexivity. Qed.
